(** * Shai-Hulud detector: a shallow embedding of [detector.js]

    The development follows the source file by file and function by
    function:

    - JavaScript values coming out of [JSON.parse], with the few
      operators the scanner applies to them (property access, [||],
      truthiness, use as a [Map] key);
    - the string primitives used by the text-feed reader ([trim],
      [split], [startsWith], [includes] and the one regular expression
      [/^([^:@]+)[:@](.+)$/]);
    - [Map] and [Set] as insertion-ordered containers;
    - [parseCompromisedList], the merge loop of
      [fetchAllCompromisedPackages], [getAllInstalledPackages] and
      [scanAllPackages];
    - the older [parseCompromisedList] of [check-packages.js] (module
      [CheckPackages]).

    Modelling conventions.  Strings are sequences of code units in the
    Latin-1 range (Stdlib [string]).  JSON numbers are restricted to
    integers, [JNum n] standing for the double nearest to [n].  Paths
    are POSIX paths.  Console output is not modelled.  The file system
    is a finite tree without symbolic links; the content of a file is
    represented by what [JSON.parse (fs.readFileSync f)] evaluates
    to. *)

From Stdlib Require Import List String Ascii Bool Arith ZArith Lia Permutation.
From Stdlib Require Import Decimal DecimalString.
Import ListNotations.
Open Scope string_scope.
Open Scope list_scope.

Set Implicit Arguments.
#[local] Set Warnings "-register-all".

(* ------------------------------------------------------------------ *)
(** ** Keys with decidable equality *)

Class EqKey (K : Type) := {
  keqb : K -> K -> bool;
  keqb_spec : forall a b : K, reflect (a = b) (keqb a b)
}.

#[export] Instance EqKey_string : EqKey string :=
  {| keqb := String.eqb; keqb_spec := String.eqb_spec |}.

(* ------------------------------------------------------------------ *)
(** ** JavaScript [Set] and [Map]

    Both containers iterate in insertion order, and the scanner's
    output arrays ([Array.from (m.keys ())], [Array.from sources]) expose
    that order, so they are kept as lists: a [Set] is the list of its
    members in insertion order, a [Map] the list of its key/value pairs.
    [Map.prototype.set] on a key already present replaces the value in
    place and keeps the position of the key. *)

Module JSSet.
Section Ops.
Context {A : Type} `{EqKey A}.

Definition has (x : A) (s : list A) : bool := existsb (keqb x) s.

Definition add (x : A) (s : list A) : list A :=
  if has x s then s else s ++ [x].
End Ops.
End JSSet.

Module JSMap.
Section Ops.
Context {K V : Type} `{EqKey K}.

Fixpoint get (k : K) (m : list (K * V)) : option V :=
  match m with
  | [] => None
  | (k', v) :: rest => if keqb k k' then Some v else get k rest
  end.

Definition has (k : K) (m : list (K * V)) : bool :=
  match get k m with Some _ => true | None => false end.

Fixpoint set (k : K) (v : V) (m : list (K * V)) : list (K * V) :=
  match m with
  | [] => [(k, v)]
  | (k', v') :: rest =>
      if keqb k k' then (k, v) :: rest else (k', v') :: set k v rest
  end.

Definition keys (m : list (K * V)) : list K := map fst m.

Definition size (m : list (K * V)) : nat := List.length m.
End Ops.
End JSMap.

(* ------------------------------------------------------------------ *)
(** ** JavaScript values

    [JArr] and [JObj] carry the identity of the object ([ref]): a [Map]
    compares object keys by reference, primitives by value
    (SameValueZero). *)

Inductive jsval : Type :=
| JUndefined
| JNull
| JBool (b : bool)
| JNum (n : Z)
| JStr (s : string)
| JArr (ref : nat) (items : list jsval)
| JObj (ref : nat) (fields : list (string * jsval)).

(** [JNum n] stands for the number [JSON.parse] yields for the integer
    [n], which is the double nearest to [n]. *)

(** The double nearest to a positive integer, ties to the even
    mantissa; [None] when the integer rounds to [Infinity]. *)
Definition nearestDouble (n : Z) : option Z :=
  let e := Z.log2 n in
  if (e <=? 52)%Z then Some n
  else
    let shift := (e - 52)%Z in
    let m := Z.shiftr n shift in
    let r := (n - Z.shiftl m shift)%Z in
    let half := Z.shiftl 1 (shift - 1) in
    let m' := if (half <? r)%Z || ((r =? half)%Z && Z.odd m) then (m + 1)%Z else m in
    let x := Z.shiftl m' shift in
    if (Z.shiftl 1 1024 <=? x)%Z then None else Some x.

(** The value of that double; plus or minus 2^1024 stands for the two
    infinities. *)
Definition doubleOf (n : Z) : Z :=
  let a := match nearestDouble (Z.abs n) with
           | Some x => x
           | None => Z.shiftl 1 1024
           end in
  if (n <? 0)%Z then (- a)%Z else a.

(** What a [Map] sees of a value used as a key: two numbers are the
    same key when they are the same double. *)
Inductive key : Type :=
| KUndefined
| KNull
| KBool (b : bool)
| KNum (n : Z)
| KStr (s : string)
| KRef (ref : nat).

Definition toKey (v : jsval) : key :=
  match v with
  | JUndefined => KUndefined
  | JNull => KNull
  | JBool b => KBool b
  | JNum n => KNum (doubleOf n)
  | JStr s => KStr s
  | JArr r _ => KRef r
  | JObj r _ => KRef r
  end.

Definition key_eqb (a b : key) : bool :=
  match a, b with
  | KUndefined, KUndefined => true
  | KNull, KNull => true
  | KBool x, KBool y => Bool.eqb x y
  | KNum x, KNum y => Z.eqb x y
  | KStr x, KStr y => String.eqb x y
  | KRef x, KRef y => Nat.eqb x y
  | _, _ => false
  end.

#[export, refine] Instance EqKey_key : EqKey key := {| keqb := key_eqb |}.
Proof.
  intros a b. destruct a, b; simpl; try (constructor; congruence).
  - destruct (Bool.eqb_spec b0 b); constructor; congruence.
  - destruct (Z.eqb_spec n n0); constructor; congruence.
  - destruct (String.eqb_spec s s0); constructor; congruence.
  - destruct (Nat.eqb_spec ref ref0); constructor; congruence.
Defined.

(** Outcome of an expression that may throw. *)
Inductive outcome (A : Type) : Type :=
| Ok (a : A)
| Throw.
Arguments Ok {A} a.
Arguments Throw {A}.

Definition bind {A B} (x : outcome A) (f : A -> outcome B) : outcome B :=
  match x with Ok a => f a | Throw => Throw end.

Notation "x <- e ;; k" := (bind e (fun x => k))
  (at level 61, e at next level, right associativity).

(** ToBoolean. *)
Definition truthy (v : jsval) : bool :=
  match v with
  | JUndefined | JNull => false
  | JBool b => b
  | JNum n => negb (Z.eqb n 0)
  | JStr s => negb (String.eqb s "")
  | JArr _ _ | JObj _ _ => true
  end.

(** [a || b]. *)
Definition jsOr (a b : jsval) : jsval := if truthy a then a else b.

Fixpoint field (name : string) (fields : list (string * jsval)) : option jsval :=
  match fields with
  | [] => None
  | (n, v) :: rest => if String.eqb n name then Some v else field name rest
  end.

(** [v.name] for the property names the two scripts read ([packages],
    [compromisedPackages], [name], [package], [version], [severity],
    [source]): none of them is defined on the prototypes of strings,
    numbers, booleans, arrays or objects, so only the own properties of
    an object answer; on [null] and [undefined] the access throws a
    TypeError. *)
Definition prop (v : jsval) (name : string) : outcome jsval :=
  match v with
  | JUndefined | JNull => Throw
  | JObj _ fields =>
      match field name fields with Some x => Ok x | None => Ok JUndefined end
  | _ => Ok JUndefined
  end.

Definition isArray (v : jsval) : bool :=
  match v with JArr _ _ => true | _ => false end.

(* ------------------------------------------------------------------ *)
(** ** String primitives *)

(** WhiteSpace and LineTerminator code units below 256, as stripped by
    [String.prototype.trim]: TAB, LF, VT, FF, CR, SP, NBSP. *)
Definition isWhite (c : ascii) : bool :=
  match nat_of_ascii c with
  | 9 | 10 | 11 | 12 | 13 | 32 | 160 => true
  | _ => false
  end.

(** LineTerminator code units below 256: the characters [.] refuses. *)
Definition isLineTerminator (c : ascii) : bool :=
  match nat_of_ascii c with
  | 10 | 13 => true
  | _ => false
  end.

Fixpoint trimStart (s : string) : string :=
  match s with
  | EmptyString => EmptyString
  | String c rest => if isWhite c then trimStart rest else s
  end.

Fixpoint trimEnd (s : string) : string :=
  match s with
  | EmptyString => EmptyString
  | String c rest =>
      match trimEnd rest with
      | EmptyString => if isWhite c then EmptyString else String c EmptyString
      | r => String c r
      end
  end.

Definition trim (s : string) : string := trimEnd (trimStart s).

(** [s.split (sep)] for a one-character separator. *)
Fixpoint split (sep : ascii) (s : string) : list string :=
  match s with
  | EmptyString => [EmptyString]
  | String c rest =>
      if Ascii.eqb c sep then EmptyString :: split sep rest
      else match split sep rest with
           | [] => [String c EmptyString]
           | h :: t => String c h :: t
           end
  end.

(** [s.startsWith (c)] and [s.includes (c)] for a one-character
    argument. *)
Definition startsWith (c : ascii) (s : string) : bool :=
  match s with
  | String c' _ => Ascii.eqb c' c
  | EmptyString => false
  end.

Fixpoint includes (c : ascii) (s : string) : bool :=
  match s with
  | EmptyString => false
  | String c' rest => Ascii.eqb c' c || includes c rest
  end.

Definition nonEmpty (s : string) : bool := negb (String.eqb s "").

Fixpoint allChars (p : ascii -> bool) (s : string) : bool :=
  match s with
  | EmptyString => true
  | String c rest => p c && allChars p rest
  end.

(** The character class [[:@]]. *)
Definition isSeparator (c : ascii) : bool :=
  Ascii.eqb c ":" || Ascii.eqb c "@".

(** Cut a string at its first separator. *)
Fixpoint breakAtSeparator (s : string) : option (string * string) :=
  match s with
  | EmptyString => None
  | String c rest =>
      if isSeparator c then Some (EmptyString, rest)
      else match breakAtSeparator rest with
           | Some (n, v) => Some (String c n, v)
           | None => None
           end
  end.

(** [line.match (/^([^:@]+)[:@](.+)$/)]: the two capture groups.  The
    first group cannot cross a separator, so the only way to match is
    to cut at the first one; both groups must be non-empty and the
    second must be free of line terminators. *)
Definition matchLine (line : string) : option (string * string) :=
  match breakAtSeparator line with
  | Some (name, version) =>
      if nonEmpty name && nonEmpty version
         && allChars (fun c => negb (isLineTerminator c)) version
      then Some (name, version) else None
  | None => None
  end.

(* ------------------------------------------------------------------ *)
(** ** The registry of compromised packages *)

(** The object [{ versions: new Map (), sources: new Set () }] kept for
    every package name. *)
Record entry : Type := mkEntry {
  versions : list (key * list string);
  sources : list string
}.

Definition registry := list (key * entry).

Definition emptyEntry : entry := mkEntry [] [].

(** The update repeated in every branch of [parseCompromisedList]:
<<
  if (!compromised.has(name)) compromised.set(name, {versions, sources});
  const pkg = compromised.get(name);
  if (!pkg.versions.has(version)) pkg.versions.set(version, new Set());
  pkg.versions.get(version).add(sourceName);
  pkg.sources.add(sourceName);
>>
    The entry object is mutated in place: its slot in the map keeps its
    position. *)
Definition addRecord (name version : key) (sourceName : string)
  (compromised : registry) : registry :=
  let compromised :=
    if negb (JSMap.has name compromised)
    then JSMap.set name emptyEntry compromised else compromised in
  match JSMap.get name compromised with
  | Some pkg =>
      let vs :=
        if negb (JSMap.has version (versions pkg))
        then JSMap.set version [] (versions pkg) else versions pkg in
      let vs :=
        match JSMap.get version vs with
        | Some s => JSMap.set version (JSSet.add sourceName s) vs
        | None => vs
        end in
      JSMap.set name (mkEntry vs (JSSet.add sourceName (sources pkg))) compromised
  | None => compromised
  end.

(** One iteration of [lines.forEach] in the text branch. *)
Definition parseLine (sourceName : string) (compromised : registry)
  (line : string) : registry :=
  let line := trim line in
  if negb (nonEmpty line) || startsWith "#" line || startsWith "|" line
  then compromised
  else if includes "|" line then
    let parts := filter nonEmpty (map trim (split "|" line)) in
    match parts with
    | name :: version :: _ =>
        if nonEmpty name && nonEmpty version then
          if negb (String.eqb name "Package") && negb (String.eqb version "Version")
          then addRecord (KStr name) (KStr version) sourceName compromised
          else compromised
        else compromised
    | _ => compromised
    end
  else
    match matchLine line with
    | Some (name, version) =>
        addRecord (KStr (trim name)) (KStr (trim version)) sourceName compromised
    | None => compromised
    end.

(** One iteration of [data.packages.forEach] ([name || package]) and
    of [data.forEach] ([package || name]). *)
Definition parseRecord (first second : string) (sourceName : string)
  (compromised : registry) (pkg : jsval) : outcome registry :=
  a <- prop pkg first ;;
  name <- (if truthy a then Ok a else prop pkg second) ;;
  version <- prop pkg "version" ;;
  Ok (addRecord (toKey name) (toKey version) sourceName compromised).

(** [items.forEach (f)] where [f] may throw: the first exception leaves
    the loop. *)
Fixpoint forEach {A S : Type} (f : S -> A -> outcome S) (items : list A)
  (s : S) : outcome S :=
  match items with
  | [] => Ok s
  | x :: rest => s' <- f s x ;; forEach f rest s'
  end.

Definition parseCompromisedList (data : jsval) (sourceName : string)
  : outcome registry :=
  match data with
  | JStr text =>
      (* typeof data === 'string' *)
      Ok (fold_left (parseLine sourceName) (split "010" text) [])
  | JNull | JObj _ _ | JArr _ _ =>
      (* typeof data === 'object', which holds of null too *)
      packages <- prop data "packages" ;;
      if truthy packages && isArray packages then
        match packages with
        | JArr _ items => forEach (parseRecord "name" "package" sourceName) items []
        | _ => Ok []
        end
      else
        match data with
        | JArr _ items => forEach (parseRecord "package" "name" sourceName) items []
        | _ => Ok []
        end
  | JUndefined | JBool _ | JNum _ => Ok []
  end.

(** The merge loop of [fetchAllCompromisedPackages] (one source). *)
Definition mergeSources (version : key) (existing : entry) (srcs : list string)
  : entry :=
  fold_left
    (fun ex src =>
       mkEntry
         (match JSMap.get version (versions ex) with
          | Some s => JSMap.set version (JSSet.add src s) (versions ex)
          | None => versions ex
          end)
         (JSSet.add src (sources ex)))
    srcs existing.

Definition mergeVersions (existing : entry) (vs : list (key * list string))
  : entry :=
  fold_left
    (fun ex '(version, srcs) =>
       let ex :=
         if negb (JSMap.has version (versions ex))
         then mkEntry (JSMap.set version [] (versions ex)) (sources ex)
         else ex in
       mergeSources version ex srcs)
    vs existing.

Definition mergeInto (allCompromised sourceCompromised : registry) : registry :=
  fold_left
    (fun all '(name, pkgData) =>
       let all :=
         if negb (JSMap.has name all)
         then JSMap.set name emptyEntry all else all in
       match JSMap.get name all with
       | Some existing =>
           JSMap.set name (mergeVersions existing (versions pkgData)) all
       | None => all
       end)
    sourceCompromised allCompromised.

(** What one source of [COMPROMISED_SOURCES] delivers: [fetchUrl]
    rejects, or [parsed] holds the JSON value of the body, or the body
    itself (as [JStr]) when [JSON.parse] throws on it. *)
Inductive fetched : Type :=
| FetchFailed
| Parsed (parsed : jsval).

Definition fetchStep (allCompromised : registry) (source : string * fetched)
  : registry :=
  match snd source with
  | FetchFailed => allCompromised
  | Parsed parsed =>
      match parseCompromisedList parsed (fst source) with
      | Ok sourceCompromised => mergeInto allCompromised sourceCompromised
      | Throw => allCompromised
      end
  end.

Definition fetchAllCompromisedPackages (feeds : list (string * fetched))
  : registry :=
  fold_left fetchStep feeds [].

(* ------------------------------------------------------------------ *)
(** ** The installation tree *)

(** A file holds what [JSON.parse (fs.readFileSync (f, 'utf8'))] yields
    ([None] when either call throws).  A directory lists its entries in
    the order of [fs.readdirSync]; [listable = false] makes
    [readdirSync] throw (EACCES) while its entries stay reachable by
    path. *)
Inductive node : Type :=
| File (content : option jsval)
| Dir (listable : bool) (entries : list (string * node)).

Fixpoint child (name : string) (entries : list (string * node)) : option node :=
  match entries with
  | [] => None
  | (n, c) :: rest => if String.eqb n name then Some c else child name rest
  end.

(** Continue with the entry called [name], if there is one. *)
Definition withChild {A : Type} (name : string) (k : node -> A) (d : A)
  : list (string * node) -> A :=
  fix go entries :=
    match entries with
    | [] => d
    | (n, c) :: rest => if String.eqb n name then k c else go rest
    end.

Definition existsSync (target : option node) : bool :=
  match target with Some _ => true | None => false end.

(** [path.join (dir, name)] for a normalised [dir] and a plain entry
    name: there [path.join] has nothing to normalise and the result is
    the concatenation.  Inside [getAllInstalledPackages] every
    directory is the result of an earlier [path.join]; for the project
    root handed to [scanAllPackages] this is the condition
    [plainRoot] below. *)
Definition join (dir name : string) : string := (dir ++ "/" ++ name)%string.

(** [JSON.parse (fs.readFileSync (packageJsonPath, 'utf8'))]. *)
Definition readManifest (target : option node) : outcome jsval :=
  match target with
  | Some (File (Some pkg)) => Ok pkg
  | _ => Throw
  end.

(** The value stored in [scanned] for a package name. *)
Record info : Type := mkInfo {
  version : jsval;
  path : string
}.

Definition scannedMap := list (string * info).

Section Walk.
(** The function itself, for the recursive call on a nested
    [node_modules]. *)
Variable getAll : node -> string -> scannedMap -> scannedMap.

(** The body shared by the scoped and the regular case: from
    [if (fs.existsSync (packageJsonPath) && !scanned.has (packageName))]
    to the end of its [try]/[catch]. *)
Definition visitPackage (packageName packagePath : string)
  (pkgEntries : list (string * node)) (scanned : scannedMap) : scannedMap :=
  if existsSync (child "package.json" pkgEntries)
     && negb (JSMap.has packageName scanned)
  then
    match (pkg <- readManifest (child "package.json" pkgEntries) ;;
           v <- prop pkg "version" ;;
           Ok (JSMap.set packageName (mkInfo v packagePath) scanned)) with
    | Ok scanned' =>
        withChild "node_modules"
          (fun nested => getAll nested (join packagePath "node_modules") scanned')
          scanned' pkgEntries
    | Throw => scanned
    end
  else scanned.

(** [for (const scopedPkg of scopedPackages)]. *)
Definition scanScoped (scopeName scopePath : string)
  : list (string * node) -> scannedMap -> scannedMap :=
  fix loop scopedPackages scanned :=
    match scopedPackages with
    | [] => scanned
    | (_, File _) :: rest => loop rest scanned
    | (pkgName, Dir _ pkgEntries) :: rest =>
        loop rest
          (visitPackage (scopeName ++ "/" ++ pkgName)%string
             (join scopePath pkgName) pkgEntries scanned)
    end.

(** [for (const entry of entries)].  Listing an unreadable scope
    directory throws out of the loop into the outer [catch], which
    returns the map as it stands. *)
Definition scanEntries (nodeModulesPath : string)
  : list (string * node) -> scannedMap -> scannedMap :=
  fix loop entries scanned :=
    match entries with
    | [] => scanned
    | (_, File _) :: rest => loop rest scanned
    | (name, Dir listable sub) :: rest =>
        if startsWith "@" name then
          if listable then
            loop rest (scanScoped name (join nodeModulesPath name) sub scanned)
          else scanned
        else
          loop rest (visitPackage name (join nodeModulesPath name) sub scanned)
    end.
End Walk.

(** [getAllInstalledPackages] once [nodeModulesPath] is known to
    exist. *)
Fixpoint readNodeModules (target : node) (nodeModulesPath : string)
  (scanned : scannedMap) {struct target} : scannedMap :=
  match target with
  | Dir true entries => scanEntries readNodeModules nodeModulesPath entries scanned
  | Dir false _ | File _ => scanned
  end.

Definition getAllInstalledPackages (target : option node)
  (nodeModulesPath : string) (scanned : scannedMap) : scannedMap :=
  match target with
  | None => scanned
  | Some t => readNodeModules t nodeModulesPath scanned
  end.

(* ------------------------------------------------------------------ *)
(** ** The classifier *)

Module Finding.
(** An element of [results.compromised] or [results.suspicious]; only
    the former carries [allSources]. *)
Record t : Type := mk {
  name : string;
  installedVersion : jsval;
  compromisedVersions : list key;
  sources : list string;
  allSources : option (list string);
  path : string
}.
End Finding.

Record results : Type := mkResults {
  compromised : list Finding.t;
  suspicious : list Finding.t;
  safe : nat;
  totalScanned : nat
}.

(** One iteration of [for (const [name, info] of allPackages)]. *)
Definition classify (compromisedList : registry) (res : results)
  (pkg : string * info) : results :=
  let '(name, inf) := pkg in
  match JSMap.get (KStr name) compromisedList with
  | Some compromisedData =>
      let allVersions := JSMap.keys (versions compromisedData) in
      match JSMap.get (toKey (version inf)) (versions compromisedData) with
      | Some srcs =>
          mkResults
            (compromised res ++
               [Finding.mk name (version inf) allVersions srcs
                  (Some (sources compromisedData)) (path inf)])
            (suspicious res) (safe res) (totalScanned res)
      | None =>
          mkResults (compromised res)
            (suspicious res ++
               [Finding.mk name (version inf) allVersions
                  (sources compromisedData) None (path inf)])
            (safe res) (totalScanned res)
      end
  | None =>
      mkResults (compromised res) (suspicious res) (S (safe res)) (totalScanned res)
  end.

(** The loop of [scanAllPackages] over an installed-package map. *)
Definition classifyAll (allPackages : scannedMap) (compromisedList : registry)
  : results :=
  fold_left (classify compromisedList) allPackages
    (mkResults [] [] 0 (JSMap.size allPackages)).

Definition resolve (dir : node) (name : string) : option node :=
  match dir with
  | Dir _ entries => child name entries
  | File _ => None
  end.

Definition scanAllPackages (project : node) (projectRoot : string)
  (compromisedList : registry) : results :=
  let nodeModulesPath := join projectRoot "node_modules" in
  let allPackages :=
    getAllInstalledPackages (resolve project "node_modules") nodeModulesPath [] in
  classifyAll allPackages compromisedList.

(* ------------------------------------------------------------------ *)
(** ** [check-packages.js] *)

Module CheckPackages.

(** The object stored for every [name@version] key. *)
Record record : Type := mk {
  name : jsval;
  version : jsval;
  severity : jsval;
  source : jsval
}.

Definition joinWith (sep : string) (parts : list string) : string :=
  match parts with
  | [] => ""
  | p :: rest => fold_left (fun acc q => (acc ++ sep ++ q)%string) rest p
  end.

(** *** Number to string

    A template literal prints a number as
    [Number.prototype.toString] does: the shortest decimal digits that
    read back as that double, in positional notation below 10^21 and
    in exponent notation from there on. *)

Definition decimal (n : Z) : string := NilZero.string_of_int (Z.to_int n).

(** Whether the decimal [s * p10] reads back as the double [x] (at
    least 2^53): it lies within half a gap of [x] on either side, the
    bounds included when the mantissa of [x] is even.  The gap below a
    power of two is half the gap above it.  All quantities are taken
    four times to stay in the integers. *)
Definition readsBack (x s p10 : Z) : bool :=
  let shift := (Z.log2 x - 52)%Z in
  let gap := Z.shiftl 1 shift in
  let m := Z.shiftr x shift in
  let down := if (m =? Z.shiftl 1 52)%Z then gap else (2 * gap)%Z in
  let lo := (4 * x - down)%Z in
  let hi := (4 * x + 2 * gap)%Z in
  let y := (4 * s * p10)%Z in
  if Z.even m then (lo <=? y)%Z && (y <=? hi)%Z else (lo <? y)%Z && (y <? hi)%Z.

(** The shortest digits: drop one more decimal place as long as one of
    the two neighbouring multiples of the power of ten reads back as
    [x]; of two that do, take the nearer one (the even one on a
    tie). *)
Fixpoint shortest (fuel : nat) (x s p10 : Z) (j : nat) : Z * nat :=
  match fuel with
  | O => (s, j)
  | S fuel' =>
      let p10' := (10 * p10)%Z in
      let q := (x / p10')%Z in
      let r := (x mod p10')%Z in
      let lowOk := readsBack x q p10' in
      let highOk := readsBack x (q + 1) p10' in
      let nearLow := (2 * r <? p10')%Z || ((2 * r =? p10')%Z && Z.even q) in
      if lowOk && highOk
      then shortest fuel' x (if nearLow then q else (q + 1)%Z) p10' (S j)
      else if lowOk then shortest fuel' x q p10' (S j)
      else if highOk then shortest fuel' x (q + 1)%Z p10' (S j)
      else (s, j)
  end.

Fixpoint zeros (j : nat) : string :=
  match j with O => "" | S j' => String "0" (zeros j') end.

(** A positive double that is an integer, printed. *)
Definition printDouble (x : Z) : string :=
  if (Z.log2 x <=? 52)%Z then decimal x
  else
    let '(s, j) := shortest 400 x x 1 0 in
    let ds := decimal s in
    let n := (String.length ds + j)%nat in
    if (n <=? 21)%nat then ds ++ zeros j
    else
      match ds with
      | String d rest =>
          String d (if (rest =? "")%string then "" else "." ++ rest)
          ++ "e+" ++ decimal (Z.of_nat n - 1)
      | EmptyString => ""
      end.

Definition numberToString (n : Z) : string :=
  if (n =? 0)%Z then "0"
  else
    let sign := if (n <? 0)%Z then "-" else "" in
    match nearestDouble (Z.abs n) with
    | Some x => sign ++ printDouble x
    | None => sign ++ "Infinity"
    end.

Arguments numberToString : simpl never.

(** ToString, as applied by a template literal.  A number is printed
    by [numberToString]; an array joins its elements with commas,
    [null] and [undefined] elements printing as nothing; an object
    prints as [[object Object]] unless an own [toString] property,
    which cannot be callable in parsed JSON, makes the conversion
    throw. *)
Fixpoint toString (v : jsval) : outcome string :=
  match v with
  | JUndefined => Ok "undefined"
  | JNull => Ok "null"
  | JBool true => Ok "true"
  | JBool false => Ok "false"
  | JNum n => Ok (numberToString n)
  | JStr s => Ok s
  | JArr _ items =>
      parts <-
        (fix each (items : list jsval) : outcome (list string) :=
           match items with
           | [] => Ok []
           | x :: rest =>
               s <- match x with
                    | JUndefined | JNull => Ok ""
                    | _ => toString x
                    end ;;
               ss <- each rest ;;
               Ok (s :: ss)
           end) items ;;
      Ok (joinWith "," parts)
  | JObj _ fields =>
      match field "toString" fields with
      | Some _ => Throw
      | None => Ok "[object Object]"
      end
  end.

(** [const [name, version] = pkgStr.split ('@')]; anything but a
    string has no callable [split]. *)
Definition splitIdentifier (pkgStr : jsval) : outcome (string * jsval * jsval) :=
  match pkgStr with
  | JStr s =>
      let parts := split "@" s in
      Ok (s,
          match parts with p :: _ => JStr p | [] => JUndefined end,
          match parts with _ :: p :: _ => JStr p | _ => JUndefined end)
  | _ => Throw
  end.

Definition parseCompromisedList (data : jsval)
  : outcome (list (string * record)) :=
  packages <- prop data "packages" ;;
  if truthy packages && isArray packages then
    match packages with
    | JArr _ items =>
        forEach
          (fun compromised pkg =>
             n <- prop pkg "name" ;;
             v <- prop pkg "version" ;;
             ns <- toString n ;;
             vs <- toString v ;;
             sev <- prop pkg "severity" ;;
             src <- prop pkg "source" ;;
             Ok (JSMap.set (ns ++ "@" ++ vs)%string
                   (mk n v (jsOr sev (JStr "high")) (jsOr src (JStr "unknown")))
                   compromised))
          items []
    | _ => Ok []
    end
  else if isArray data then
    match data with
    | JArr _ items =>
        forEach
          (fun compromised pkg =>
             n <- prop pkg "package" ;;
             v <- prop pkg "version" ;;
             ns <- toString n ;;
             vs <- toString v ;;
             Ok (JSMap.set (ns ++ "@" ++ vs)%string
                   (mk n v (JStr "critical") (JStr "tenable")) compromised))
          items []
    | _ => Ok []
    end
  else
    listed <- prop data "compromisedPackages" ;;
    if truthy listed && isArray listed then
      match listed with
      | JArr _ items =>
          forEach
            (fun compromised pkgStr =>
               parts <- splitIdentifier pkgStr ;;
               let '(k, n, v) := parts in
               Ok (JSMap.set k (mk n v (JStr "high") (JStr "list")) compromised))
            items []
      | _ => Ok []
      end
    else Ok [].

End CheckPackages.

(* ------------------------------------------------------------------ *)
(** ** Notions used in the statements

    The content of a registry independently of insertion order, the
    elementary updates the source composes, the reading of a line of a
    text feed, and the trees used as examples. *)

(** What a registry can say of a package name: that [v] is one of its
    versions, that [src] reported [v], that [src] is one of its
    sources. *)
Inductive fact : Type :=
| FVersion (v : key)
| FReport (v : key) (src : string)
| FCite (src : string).

(** The facts an entry holds. *)
Definition eSays (e : entry) (f : fact) : Prop :=
  match f with
  | FVersion v => JSMap.has v (versions e) = true
  | FReport v src => exists ss, JSMap.get v (versions e) = Some ss /\ In src ss
  | FCite src => In src (sources e)
  end.

(** The entry of a name, empty when the registry has none. *)
Definition entryOf (reg : registry) (name : key) : entry :=
  match JSMap.get name reg with Some e => e | None => emptyEntry end.

(** [name] is a key of the registry. *)
Definition knows (reg : registry) (name : key) : Prop :=
  JSMap.has name reg = true.

(** The registry holds fact [f] of [name]. *)
Definition says (reg : registry) (name : key) (f : fact) : Prop :=
  eSays (entryOf reg name) f.

(** What a version map handed to the merge loop contributes. *)
Definition gives (vs : list (key * list string)) (f : fact) : Prop :=
  match f with
  | FVersion v => exists ss, In (v, ss) vs
  | FReport v src => exists ss, In (v, ss) vs /\ In src ss
  | FCite src => exists v ss, In (v, ss) vs /\ In src ss
  end.

(** What one record [(version, sourceName)] contributes. *)
Definition recordGives (version : key) (sourceName : string) (f : fact) : Prop :=
  match f with
  | FVersion v => v = version
  | FReport v src => v = version /\ src = sourceName
  | FCite src => src = sourceName
  end.

(** The three elementary updates the source composes. *)
Definition ensureVersion (version : key) (e : entry) : entry :=
  if negb (JSMap.has version (versions e))
  then mkEntry (JSMap.set version [] (versions e)) (sources e) else e.

Definition addSource (version : key) (e : entry) (src : string) : entry :=
  mkEntry
    (match JSMap.get version (versions e) with
     | Some s => JSMap.set version (JSSet.add src s) (versions e)
     | None => versions e
     end)
    (JSSet.add src (sources e)).

Definition upsert (name : key) (f : entry -> entry) (reg : registry) : registry :=
  let reg :=
    if negb (JSMap.has name reg) then JSMap.set name emptyEntry reg else reg in
  match JSMap.get name reg with
  | Some e => JSMap.set name (f e) reg
  | None => reg
  end.

(** Two sets with the same members; two maps with the same keys and
    related values. *)
Definition sameSet (a b : list string) : Prop := forall x, In x a <-> In x b.

Definition sameMap {V : Type} (R : V -> V -> Prop) (m1 m2 : list (key * V)) : Prop :=
  forall k,
    match JSMap.get k m1, JSMap.get k m2 with
    | Some a, Some b => R a b
    | None, None => True
    | _, _ => False
    end.

Definition sameEntry (e1 e2 : entry) : Prop :=
  sameMap sameSet (versions e1) (versions e2) /\ sameSet (sources e1) (sources e2).

(** Same identifiers, same version maps, same source sets. *)
Definition sameRegistry (r1 r2 : registry) : Prop := sameMap sameEntry r1 r2.

(** The three categories of the classifier, and the one the registry
    assigns to an installed package. *)
Inductive verdict : Type := Compromised | Suspicious | Safe.

Definition verdictOf (compromisedList : registry) (pkg : string * info) : verdict :=
  match JSMap.get (KStr (fst pkg)) compromisedList with
  | Some e =>
      if JSMap.has (toKey (version (snd pkg))) (versions e)
      then Compromised else Suspicious
  | None => Safe
  end.

Definition verdict_eqb (a b : verdict) : bool :=
  match a, b with
  | Compromised, Compromised | Suspicious, Suspicious | Safe, Safe => true
  | _, _ => false
  end.

(** The installed packages of one category, in map order. *)
Definition ofVerdict (compromisedList : registry) (v : verdict)
  (allPackages : scannedMap) : scannedMap :=
  filter (fun pkg => verdict_eqb (verdictOf compromisedList pkg) v) allPackages.

(** A list that stands for a [Map] has distinct keys, one that stands
    for a [Set] distinct members. *)
Definition properEntry (e : entry) : Prop :=
  NoDup (JSMap.keys (versions e))
  /\ (forall v ss, In (v, ss) (versions e) -> NoDup ss)
  /\ NoDup (sources e).

Definition properRegistry (r : registry) : Prop :=
  NoDup (JSMap.keys r) /\ forall n e, In (n, e) r -> properEntry e.

(** The partial registries one source hands to the merge loop: one if
    it was fetched and parsed, none otherwise. *)
Definition partialOf (source : string * fetched) : list registry :=
  match snd source with
  | FetchFailed => []
  | Parsed parsed =>
      match parseCompromisedList parsed (fst source) with
      | Ok sourceCompromised => [sourceCompromised]
      | Throw => []
      end
  end.

(** Structural induction on trees: the hypothesis holds of every entry
    of a directory. *)
Fixpoint node_induction (P : node -> Prop)
  (HFile : forall c, P (File c))
  (HDir : forall l es, Forall (fun p => P (snd p)) es -> P (Dir l es))
  (n : node) {struct n} : P n :=
  match n with
  | File c => HFile c
  | Dir l es =>
      HDir l es
        ((fix go (es : list (string * node)) : Forall (fun p => P (snd p)) es :=
            match es with
            | [] => Forall_nil _
            | (name, c) :: rest =>
                Forall_cons (P := fun p => P (snd p)) (name, c)
                  (node_induction P HFile HDir c) (go rest)
            end) es)
  end.

(** The walk of [t] preserves the property [P] of the accumulator. *)
Definition keptByWalk (P : scannedMap -> Prop) (t : node) : Prop :=
  forall p m, P m -> P (readNodeModules t p m).

(** [Q] holds of a tree and of every tree below it. *)
Inductive Deep (Q : node -> Prop) : node -> Prop :=
| Deep_File c : Q (File c) -> Deep Q (File c)
| Deep_Dir l es :
    Q (Dir l es) -> Forall (fun p => Deep Q (snd p)) es -> Deep Q (Dir l es).

(** Nothing but white space. *)
Definition blank (s : string) : bool := allChars isWhite s.

(** None of the characters that make a line a row: [:], [@], pipe. *)
Definition plainChar (c : ascii) : bool :=
  negb (isSeparator c) && negb (Ascii.eqb c "|").

(** The record a line of a text feed stands for, if any: the pair
    [parseLine] hands to the registry update. *)
Definition lineRecord (line : string) : option (string * string) :=
  let t := trim line in
  if negb (nonEmpty t) || startsWith "#" t || startsWith "|" t then None
  else if includes "|" t then
    match filter nonEmpty (map trim (split "|" t)) with
    | name :: version :: _ =>
        if negb (String.eqb name "Package") && negb (String.eqb version "Version")
        then Some (name, version) else None
    | _ => None
    end
  else
    match matchLine t with
    | Some (n, v) => Some (trim n, trim v)
    | None => None
    end.

(** The two fields a structured record is filed under:
    [first || second] and [version]. *)
Definition recordFields (first second : string) (pkg : jsval)
  : outcome (jsval * jsval) :=
  a <- prop pkg first ;;
  name <- (if truthy a then Ok a else prop pkg second) ;;
  version <- prop pkg "version" ;;
  Ok (name, version).

(** Only [null] and [undefined] elements make the record loop throw. *)
Definition isObjectCoercible (v : jsval) : bool :=
  match v with JNull | JUndefined => false | _ => true end.

(** A package directory with a manifest declaring [version] and,
    possibly, a nested [node_modules]. *)
Definition manifestOf (name ver : string) : node :=
  File (Some (JObj 0 [("name", JStr name); ("version", JStr ver)])).

(** [containerDir/foo] at 1.0.0 holding [containerDir/foo] at 0.9.0. *)
Definition nestedFoo : node :=
  Dir true
    [("foo",
      Dir true
        [("package.json", manifestOf "foo" "1.0.0");
         ("node_modules",
          Dir true
            [("foo", Dir true [("package.json", manifestOf "foo" "0.9.0")])])])].

(** A package whose manifest is the JSON object [{"name": "foo"}]. *)
Definition versionlessFoo : node :=
  Dir true
    [("foo", Dir true [("package.json", File (Some (JObj 0 [("name", JStr "foo")])))]);
     ("bar", Dir true [("package.json", manifestOf "bar" "2.0.0")])].

(** No entry of the listing is a scope directory that cannot be
    listed: the loop over these entries is not left by an exception. *)
Definition scopesListable (entries : list (string * node)) : bool :=
  forallb
    (fun e => match snd e with
              | Dir false _ => negb (startsWith "@" (fst e))
              | _ => true
              end)
    entries.

(** The structural probes of [parseCompromisedList]: a string, an
    array, or an object whose [packages] is an array. *)
Definition recognizedShape (doc : jsval) : bool :=
  match doc with
  | JStr _ | JArr _ _ => true
  | JObj _ fields =>
      match field "packages" fields with
      | Some (JArr _ _) => true
      | _ => false
      end
  | _ => false
  end.

(** The first line of a JSON body cut off in transit, on which
    [JSON.parse] throws: an opening brace, the key [packages] between
    double quotes, a colon and an opening bracket. *)
Definition truncatedBody : string :=
  "{" ++ String "034" "packages" ++ String "034" ": [".

(** A line that is read at all: not blank, not a [#] comment, not
    starting with a pipe. *)
Definition dataLine (t : string) : Prop :=
  t <> "" /\ startsWith "#" t = false /\ startsWith "|" t = false.

(** A table row: the cells between pipes, trimmed, the empty ones
    dropped; the first two are name and version; header cells
    [Package] and [Version] disqualify the row. *)
Definition tableRow (t name version : string) : Prop :=
  includes "|" t = true
  /\ exists rest,
       filter nonEmpty (map trim (split "|" t)) = name :: version :: rest
       /\ name <> "Package" /\ version <> "Version".

(** A pattern row: name, [:] or [@], version. *)
Definition patternRow (t name version : string) : Prop :=
  includes "|" t = false
  /\ exists n v, matchLine t = Some (n, v) /\ name = trim n /\ version = trim v.

(* ------------------------------------------------------------------ *)
(** ** [check-packages.js]: the installed side *)

Module Installed.
(** The object [flattenDependencies] stores for every [name@version]
    key. *)
Record t : Type := mk {
  name : string;
  version : jsval;
  path : jsval
}.
End Installed.

Definition installedMap := list (string * Installed.t).

(** Continue with the own property called [name], if there is one. *)
Definition withField {A : Type} (name : string) (k : jsval -> A) (d : A)
  : list (string * jsval) -> A :=
  fix go fields :=
    match fields with
    | [] => d
    | (n, v) :: rest => if String.eqb n name then k v else go rest
    end.

(** [String (i)] for an array index. *)
Definition indexName (i : nat) : string := NilZero.string_of_uint (Nat.to_uint i).

Section Flatten.
(** The function itself, for the recursive call on [info.dependencies]. *)
Variable flatten : jsval -> installedMap -> outcome installedMap.

(** One iteration of [for (const [name, info] of Object.entries (deps))]. *)
Definition visitDependency (name : string) (info : jsval) (result : installedMap)
  : outcome installedMap :=
  v <- prop info "version" ;;
  result <-
    (if truthy v then
       vs <- CheckPackages.toString v ;;
       p <- prop info "path" ;;
       Ok (JSMap.set (name ++ "@" ++ vs)%string
             (Installed.mk name v (jsOr p (JStr "unknown"))) result)
     else Ok result) ;;
  match info with
  | JObj _ fields =>
      withField "dependencies"
        (fun d => if truthy d then flatten d result else Ok result)
        (Ok result) fields
  | _ => Ok result
  end.

(** The loop over the own properties of an object, in enumeration
    order, and over the elements of an array, by index. *)
Definition flattenFields
  : list (string * jsval) -> installedMap -> outcome installedMap :=
  fix loop fields result :=
    match fields with
    | [] => Ok result
    | (name, info) :: rest =>
        r <- visitDependency name info result ;; loop rest r
    end.

Definition flattenItems
  : list jsval -> nat -> installedMap -> outcome installedMap :=
  fix loop items i result :=
    match items with
    | [] => Ok result
    | info :: rest =>
        r <- visitDependency (indexName i) info result ;; loop rest (S i) r
    end.
End Flatten.

(** [flattenDependencies (deps, result)].  The fields of a [JObj] are
    its own properties in enumeration order.  The entries of a string
    are its characters, which have neither [version] nor
    [dependencies]; a number or a boolean has no entries. *)
Fixpoint flattenDependencies (deps : jsval) (result : installedMap) {struct deps}
  : outcome installedMap :=
  if negb (truthy deps) then Ok result
  else
    match deps with
    | JObj _ fields => flattenFields flattenDependencies fields result
    | JArr _ items => flattenItems flattenDependencies items 0 result
    | _ => Ok result
    end.

Module Hit.
(** [{...pkg, ...compromisedInfo}]: the element pushed on [found]. *)
Record t : Type := mk {
  name : jsval;
  version : jsval;
  path : jsval;
  severity : jsval;
  source : jsval
}.
End Hit.

(** One iteration of [for (const [key, pkg] of installedPackages)]. *)
Definition checkOne (compromisedList : list (string * CheckPackages.record))
  (found : list Hit.t) (entry : string * Installed.t) : list Hit.t :=
  let '(key, pkg) := entry in
  if JSMap.has key compromisedList then
    match JSMap.get key compromisedList with
    | Some compromisedInfo =>
        found ++
        [Hit.mk (CheckPackages.name compromisedInfo)
           (CheckPackages.version compromisedInfo)
           (Installed.path pkg)
           (CheckPackages.severity compromisedInfo)
           (CheckPackages.source compromisedInfo)]
    | None => found
    end
  else found.

Definition checkForCompromised (installedPackages : installedMap)
  (compromisedList : list (string * CheckPackages.record)) : list Hit.t :=
  fold_left (checkOne compromisedList) installedPackages [].


(** Structural induction on values: the hypothesis holds of every
    element of an array and of every property value of an object. *)
Fixpoint jsval_induction (P : jsval -> Prop)
  (HUndefined : P JUndefined) (HNull : P JNull)
  (HBool : forall b, P (JBool b)) (HNum : forall n, P (JNum n))
  (HStr : forall s, P (JStr s))
  (HArr : forall r items, Forall P items -> P (JArr r items))
  (HObj : forall r fields, Forall (fun f => P (snd f)) fields -> P (JObj r fields))
  (v : jsval) {struct v} : P v :=
  match v with
  | JUndefined => HUndefined
  | JNull => HNull
  | JBool b => HBool b
  | JNum n => HNum n
  | JStr s => HStr s
  | JArr r items =>
      HArr r items
        ((fix go (items : list jsval) : Forall P items :=
            match items with
            | [] => Forall_nil _
            | x :: rest =>
                Forall_cons x
                  (@jsval_induction P HUndefined HNull HBool HNum HStr HArr HObj x)
                  (go rest)
            end) items)
  | JObj r fields =>
      HObj r fields
        ((fix go (fields : list (string * jsval))
            : Forall (fun f => P (snd f)) fields :=
            match fields with
            | [] => Forall_nil _
            | (n, x) :: rest =>
                Forall_cons (P := fun f => P (snd f)) (n, x)
                  (@jsval_induction P HUndefined HNull HBool HNum HStr HArr HObj x)
                  (go rest)
            end) fields)
  end.

(** [Q] holds of a value and of every value inside it. *)
Inductive DeepJ (Q : jsval -> Prop) : jsval -> Prop :=
| DeepJ_arr r items :
    Q (JArr r items) -> Forall (DeepJ Q) items -> DeepJ Q (JArr r items)
| DeepJ_obj r fields :
    Q (JObj r fields) -> Forall (fun f => DeepJ Q (snd f)) fields ->
    DeepJ Q (JObj r fields)
| DeepJ_leaf v : isArray v = false -> (forall r fs, v <> JObj r fs) -> Q v -> DeepJ Q v.

(** Flattening [deps] into an accumulator preserves the property [P]. *)
Definition keptByFlatten (P : installedMap -> Prop) (deps : jsval) : Prop :=
  forall m r, P m -> flattenDependencies deps m = Ok r -> P r.

(** What [flattenDependencies] stores under a key: a truthy version,
    the key spelling [name@version], a truthy path. *)
Definition flattened (key : string) (pkg : Installed.t) : Prop :=
  truthy (Installed.version pkg) = true
  /\ truthy (Installed.path pkg) = true
  /\ exists vs,
       CheckPackages.toString (Installed.version pkg) = Ok vs
       /\ key = (Installed.name pkg ++ "@" ++ vs)%string.

(** The hit [checkForCompromised] builds from a listed entry and an
    installed one. *)
Definition hitOf (compromisedInfo : CheckPackages.record) (pkg : Installed.t)
  : Hit.t :=
  Hit.mk (CheckPackages.name compromisedInfo) (CheckPackages.version compromisedInfo)
    (Installed.path pkg) (CheckPackages.severity compromisedInfo)
    (CheckPackages.source compromisedInfo).


(** ** [check-packages.js]: what each record of a list becomes *)

(** The key and the object the first branch of the older
    [parseCompromisedList] stores for a record ([data.packages]). *)
Definition gensecRecord (pkg : jsval) : outcome (string * CheckPackages.record) :=
  n <- prop pkg "name" ;;
  v <- prop pkg "version" ;;
  ns <- CheckPackages.toString n ;;
  vs <- CheckPackages.toString v ;;
  sev <- prop pkg "severity" ;;
  src <- prop pkg "source" ;;
  Ok ((ns ++ "@" ++ vs)%string,
      CheckPackages.mk n v (jsOr sev (JStr "high")) (jsOr src (JStr "unknown"))).

(** The same for the second branch (a bare array). *)
Definition tenableRecord (pkg : jsval) : outcome (string * CheckPackages.record) :=
  n <- prop pkg "package" ;;
  v <- prop pkg "version" ;;
  ns <- CheckPackages.toString n ;;
  vs <- CheckPackages.toString v ;;
  Ok ((ns ++ "@" ++ vs)%string, CheckPackages.mk n v (JStr "critical") (JStr "tenable")).

(** The same for the third branch ([data.compromisedPackages]). *)
Definition listedRecord (pkgStr : jsval) : outcome (string * CheckPackages.record) :=
  parts <- CheckPackages.splitIdentifier pkgStr ;;
  let '(k, n, v) := parts in
  Ok (k, CheckPackages.mk n v (JStr "high") (JStr "list")).

(** [compromised.set (key, object)] with the key and object [g] gives. *)
Definition setStep {A V : Type} (g : A -> outcome (string * V))
  (m : list (string * V)) (x : A) : outcome (list (string * V)) :=
  kr <- g x ;; Ok (JSMap.set (fst kr) (snd kr) m).

(** No [@] in the string. *)
Definition noAt (s : string) : bool := allChars (fun c => negb (Ascii.eqb c "@")) s.


(** ** Provenance *)

(** An entry that cites one feed and nothing else: its sources are
    [[src]], it has a version, and every version was reported by
    [[src]]. *)
Definition ownEntry (src : string) (e : entry) : Prop :=
  sources e = [src]
  /\ versions e <> []
  /\ forall v ss, In (v, ss) (versions e) -> ss = [src].


(** ** What a finding is made of *)

(** [f] is the Compromised finding of an installed package that the
    registry lists at its installed version. *)
Definition compromisedFinding (compromisedList : registry) (allPackages : scannedMap)
  (f : Finding.t) : Prop :=
  exists inf e srcs,
    In (Finding.name f, inf) allPackages
    /\ JSMap.get (KStr (Finding.name f)) compromisedList = Some e
    /\ JSMap.get (toKey (version inf)) (versions e) = Some srcs
    /\ f = Finding.mk (Finding.name f) (version inf) (JSMap.keys (versions e)) srcs
             (Some (sources e)) (path inf).

(** [f] is the Suspicious finding of an installed package that the
    registry lists, but not at its installed version. *)
Definition suspiciousFinding (compromisedList : registry) (allPackages : scannedMap)
  (f : Finding.t) : Prop :=
  exists inf e,
    In (Finding.name f, inf) allPackages
    /\ JSMap.get (KStr (Finding.name f)) compromisedList = Some e
    /\ JSMap.get (toKey (version inf)) (versions e) = None
    /\ f = Finding.mk (Finding.name f) (version inf) (JSMap.keys (versions e))
             (sources e) None (path inf).


(** ** Where a record comes from *)

(** The package directory holds a manifest that parses, and [v] is its
    [version] ([undefined] when it has none). *)
Definition declares (pkgEntries : list (string * node)) (v : jsval) : Prop :=
  exists pkg,
    readManifest (child "package.json" pkgEntries) = Ok pkg
    /\ prop pkg "version" = Ok v.

(** [site t p name v path]: in the [node_modules] tree [t] found at
    [p], the directory at [path] is a package directory called [name]
    (a regular one, or one of a listable scope directory) whose
    manifest declares [v]; it sits at the top of [t] or in the nested
    [node_modules] of a package directory that has a manifest itself. *)
Inductive site : node -> string -> string -> jsval -> string -> Prop :=
| site_regular es p n l pk v :
    In (n, Dir l pk) es -> startsWith "@" n = false -> declares pk v ->
    site (Dir true es) p n v (join p n)
| site_scoped es p sc sub n l pk v :
    In (sc, Dir true sub) es -> startsWith "@" sc = true ->
    In (n, Dir l pk) sub -> declares pk v ->
    site (Dir true es) p (sc ++ "/" ++ n) v (join (join p sc) n)
| site_below es p n l pk v0 t name v path :
    In (n, Dir l pk) es -> startsWith "@" n = false -> declares pk v0 ->
    child "node_modules" pk = Some t ->
    site t (join (join p n) "node_modules") name v path ->
    site (Dir true es) p name v path
| site_below_scoped es p sc sub n l pk v0 t name v path :
    In (sc, Dir true sub) es -> startsWith "@" sc = true ->
    In (n, Dir l pk) sub -> declares pk v0 ->
    child "node_modules" pk = Some t ->
    site t (join (join (join p sc) n) "node_modules") name v path ->
    site (Dir true es) p name v path.

(** What visiting one package directory can add: its own record, or
    records of its nested [node_modules]. *)
Definition fromPackage (packageName packagePath : string)
  (pkgEntries : list (string * node)) (n : string) (i : info) : Prop :=
  (n = packageName /\ path i = packagePath /\ declares pkgEntries (version i))
  \/ (exists v0 t,
        declares pkgEntries v0
        /\ child "node_modules" pkgEntries = Some t
        /\ site t (join packagePath "node_modules") n (version i) (path i)).

(** Every record the walk of [t] adds is a site of [t]. *)
Definition recordsAreSites (t : node) : Prop :=
  forall p m n i,
    In (n, i) (readNodeModules t p m) ->
    In (n, i) m \/ site t p n (version i) (path i).


(** ** Dependencies listed in a tree of [npm ls] *)

(** [listedDep deps name v]: the dependency object [deps] has, at some
    depth, an entry [name] whose [version] is the truthy value [v]; the
    way down leads through the [dependencies] of entries that are
    objects. *)
Inductive listedDep : jsval -> string -> jsval -> Prop :=
| listed_here ref fields name info v :
    In (name, info) fields -> prop info "version" = Ok v -> truthy v = true ->
    listedDep (JObj ref fields) name v
| listed_below ref fields n ref' ifields d name v :
    In (n, JObj ref' ifields) fields -> field "dependencies" ifields = Some d ->
    listedDep d name v ->
    listedDep (JObj ref fields) name v.

(** [foo] inside [bar] with a manifest that cannot be parsed, then
    [foo] at the top with version 1.0.0. *)
Definition brokenFirstFoo : node :=
  Dir true
    [("bar",
      Dir true
        [("package.json", manifestOf "bar" "2.0.0");
         ("node_modules",
          Dir true [("foo", Dir true [("package.json", File None)])])]);
     ("foo", Dir true [("package.json", manifestOf "foo" "1.0.0")])].

(** ** Project roots

    A path segment that [path.join] leaves alone: not empty, not [.]
    and not [..]. *)
Definition plainSegment (seg : string) : bool :=
  nonEmpty seg && negb (String.eqb seg ".") && negb (String.eqb seg "..").

(** A project root on which [path.join (projectRoot, 'node_modules')]
    is [projectRoot + '/node_modules']: a non-empty sequence of plain
    segments separated by single slashes, after a leading slash if the
    path is absolute.  The root directory [/] itself, the empty path
    and [.] are not of that kind. *)
Definition plainRoot (projectRoot : string) : bool :=
  match split "/" projectRoot with
  | "" :: seg :: rest => forallb plainSegment (seg :: rest)
  | segments => forallb plainSegment segments
  end.

(* ================================================================== *)
(** * Facts about the containers *)

Lemma keqb_refl {K} `{EqKey K} (a : K) : keqb a a = true.
Proof. destruct (keqb_spec a a); congruence. Qed.

Lemma keqb_eq {K} `{EqKey K} (a b : K) : keqb a b = true <-> a = b.
Proof. destruct (keqb_spec a b); split; congruence. Qed.

Lemma keqb_neq {K} `{EqKey K} (a b : K) : keqb a b = false <-> a <> b.
Proof. destruct (keqb_spec a b); split; congruence. Qed.


Ltac keq k k' :=
  let E := fresh "E" in
  destruct (keqb_spec k k') as [E | E]; [try subst | idtac].

Section SetFacts.
Context {A : Type} `{EqKey A}.

Lemma set_has_In (x : A) (s : list A) : JSSet.has x s = true <-> In x s.
Proof.
  unfold JSSet.has. rewrite existsb_exists. split.
  - intros (y & Hy & E). apply keqb_eq in E. now subst.
  - intros Hx. exists x. split; [assumption | apply keqb_refl].
Qed.

Lemma set_add_In (x y : A) (s : list A) :
  In y (JSSet.add x s) <-> y = x \/ In y s.
Proof.
  unfold JSSet.add. destruct (JSSet.has x s) eqn:E.
  - apply set_has_In in E. split; [tauto | intros [-> | ?]; assumption].
  - rewrite in_app_iff. simpl. intuition congruence.
Qed.

Lemma set_add_NoDup (x : A) (s : list A) : NoDup s -> NoDup (JSSet.add x s).
Proof.
  intros Hs. unfold JSSet.add. destruct (JSSet.has x s) eqn:E; [assumption|].
  assert (~ In x s) as Hx by (rewrite <- set_has_In; congruence).
  clear E. induction Hs as [| a l Ha _ IH]; simpl.
  - constructor; [tauto | constructor].
  - constructor.
    + rewrite in_app_iff. simpl in *. intuition.
    + apply IH. simpl in Hx. tauto.
Qed.
End SetFacts.

Section MapFacts.
Context {K V : Type} `{EqKey K}.
Implicit Types (m : list (K * V)) (k : K) (v : V).

Lemma map_has_get k m : JSMap.has k m = true <-> exists v, JSMap.get k m = Some v.
Proof.
  unfold JSMap.has. destruct (JSMap.get k m).
  - split; [eauto | reflexivity].
  - split; [discriminate | intros [? ?]; discriminate].
Qed.

Lemma map_has_false k m : JSMap.has k m = false <-> JSMap.get k m = None.
Proof. unfold JSMap.has. destruct (JSMap.get k m); split; congruence. Qed.

Lemma map_get_set k k' v m :
  JSMap.get k' (JSMap.set k v m) = if keqb k' k then Some v else JSMap.get k' m.
Proof.
  induction m as [| [k0 v0] m IH]; simpl.
  - reflexivity.
  - keq k k0; simpl.
    + destruct (keqb k' k0); reflexivity.
    + rewrite IH. keq k' k0; [| reflexivity].
      rewrite (proj2 (keqb_neq k0 k)); congruence.
Qed.

Lemma map_get_set_eq k v m : JSMap.get k (JSMap.set k v m) = Some v.
Proof. now rewrite map_get_set, keqb_refl. Qed.

Lemma map_has_set k k' v m :
  JSMap.has k' (JSMap.set k v m) = keqb k' k || JSMap.has k' m.
Proof. unfold JSMap.has. rewrite map_get_set. destruct (keqb k' k); reflexivity. Qed.

(** [set] on a fresh key appends; on a known key it keeps the keys. *)
Lemma map_set_fresh k v m :
  JSMap.has k m = false -> JSMap.set k v m = m ++ [(k, v)].
Proof.
  unfold JSMap.has. induction m as [| [k0 v0] m IH]; simpl; [reflexivity|].
  keq k k0; [discriminate|]. intros E0. now rewrite IH.
Qed.

Lemma map_keys_set_known k v m :
  JSMap.has k m = true -> JSMap.keys (JSMap.set k v m) = JSMap.keys m.
Proof.
  unfold JSMap.has. induction m as [| [k0 v0] m IH]; simpl; [discriminate|].
  keq k k0; simpl; [reflexivity|]. intros E0. f_equal. now apply IH.
Qed.

Lemma map_get_In k v m : JSMap.get k m = Some v -> In (k, v) m.
Proof.
  induction m as [| [k0 v0] m IH]; simpl; [discriminate|].
  keq k k0; [intros [= ->]; now left | intros E0; right; now apply IH].
Qed.

Lemma map_In_has k v m : In (k, v) m -> JSMap.has k m = true.
Proof.
  unfold JSMap.has. induction m as [| [k0 v0] m IH]; simpl; [tauto|].
  intros [[= -> ->] | Hin].
  - now rewrite keqb_refl.
  - destruct (keqb k k0); [reflexivity | now apply IH].
Qed.

Lemma map_has_keys k m : JSMap.has k m = true <-> In k (JSMap.keys m).
Proof.
  unfold JSMap.keys. rewrite in_map_iff. split.
  - intros Hh. apply map_has_get in Hh as [v Hv]. exists (k, v).
    split; [reflexivity | now apply map_get_In].
  - intros ([k0 v] & E & Hin). simpl in E. subst. eapply map_In_has; eassumption.
Qed.

Lemma map_In_get k v m :
  NoDup (JSMap.keys m) -> In (k, v) m -> JSMap.get k m = Some v.
Proof.
  induction m as [| [k0 v0] m IH]; simpl; [tauto|].
  intros Hnd [[= -> ->] | Hin].
  - now rewrite keqb_refl.
  - inversion Hnd as [| ? ? Hk0 Hm]; subst.
    keq k k0.
    + exfalso. apply Hk0. apply map_has_keys. eapply map_In_has; eassumption.
    + now apply IH.
Qed.

Lemma map_set_In k v k' v' m :
  In (k', v') (JSMap.set k v m) -> (k' = k /\ v' = v) \/ In (k', v') m.
Proof.
  induction m as [| [k0 v0] m IH]; simpl.
  - intros [[= <- <-] | []]. auto.
  - keq k k0; simpl.
    + intros [[= <- <-] | Hin]; auto.
    + intros [Heq | Hin]; [auto|]. apply IH in Hin. tauto.
Qed.

Lemma map_set_NoDup k v m :
  NoDup (JSMap.keys m) -> NoDup (JSMap.keys (JSMap.set k v m)).
Proof.
  intros Hnd. destruct (JSMap.has k m) eqn:E.
  - now rewrite map_keys_set_known.
  - rewrite map_set_fresh by assumption. unfold JSMap.keys in *.
    rewrite map_app. simpl.
    assert (~ In k (map fst m)) as Hk.
    { intros Hin. apply map_has_keys in Hin. congruence. }
    clear E. induction Hnd as [| a l Ha _ IH]; simpl.
    + constructor; [tauto | constructor].
    + constructor.
      * rewrite in_app_iff. simpl in *. intuition.
      * apply IH. simpl in Hk. tauto.
Qed.

End MapFacts.

(* ================================================================== *)
(** * What a registry says

    The content of a registry, independently of insertion order: which
    names it knows, and for each name which versions it knows, which
    source reported which version, and which sources it cites. *)

Lemma addRecord_upsert name version sourceName reg :
  addRecord name version sourceName reg =
  upsert name (fun e => addSource version (ensureVersion version e) sourceName) reg.
Proof.
  unfold addRecord, upsert.
  destruct (JSMap.get name _) as [pkg|]; [| reflexivity].
  f_equal. unfold addSource, ensureVersion.
  destruct (negb (JSMap.has version (versions pkg))); reflexivity.
Qed.

Lemma mergeVersions_cons e version srcs vs :
  mergeVersions e ((version, srcs) :: vs) =
  mergeVersions (fold_left (addSource version) srcs (ensureVersion version e)) vs.
Proof.
  unfold mergeVersions at 1. simpl. unfold ensureVersion.
  destruct (negb (JSMap.has version (versions e))); reflexivity.
Qed.

Lemma mergeInto_cons all name pkgData sc :
  mergeInto all ((name, pkgData) :: sc) =
  mergeInto (upsert name (fun e => mergeVersions e (versions pkgData)) all) sc.
Proof. reflexivity. Qed.

Lemma eSays_emptyEntry f : ~ eSays emptyEntry f.
Proof. destruct f; simpl; [discriminate | intros (? & ? & _); discriminate | tauto]. Qed.

Lemma eSays_ensureVersion version e f :
  eSays (ensureVersion version e) f <->
  eSays e f \/ f = FVersion version.
Proof.
  unfold ensureVersion. destruct (JSMap.has version (versions e)) eqn:E; simpl.
  - split; [tauto | intros [? | ->]; [assumption | exact E]].
  - destruct f as [v | v src | src]; simpl.
    + rewrite map_has_set. keq v version.
      * split; [auto | reflexivity].
      * simpl. split; [tauto | intros [? | [= ?]]; [assumption | contradiction]].
    + rewrite map_get_set. keq v version.
      * split.
        -- intros (ss & [= <-] & []).
        -- intros [(ss & Hg & _) | [= ]]. apply map_has_false in E. congruence.
      * split; [tauto | intros [? | [= ]]; assumption].
    + split; [tauto | intros [? | [= ]]; assumption].
Qed.

Lemma eSays_addSource version e src f :
  JSMap.has version (versions e) = true ->
  eSays (addSource version e src) f <->
  eSays e f \/ f = FReport version src \/ f = FCite src.
Proof.
  intros Hv. apply map_has_get in Hv as [ss0 Hss0].
  unfold addSource. rewrite Hss0.
  destruct f as [v | v s | s]; simpl.
  - rewrite map_has_set. keq v version.
    + simpl. unfold JSMap.has. rewrite Hss0.
      split; [auto | reflexivity].
    + simpl. split; [tauto | intros [? | [[= ] | [= ]]]; assumption].
  - rewrite map_get_set. keq v version.
    + split.
      * intros (ss & [= <-] & Hin). apply set_add_In in Hin as [-> | Hin].
        -- right. left. reflexivity.
        -- left. eauto.
      * intros [(ss & Hg & Hin) | [[= ->] | [= ]]].
        -- rewrite Hss0 in Hg. injection Hg as <-.
           eexists. split; [reflexivity | apply set_add_In; tauto].
        -- eexists. split; [reflexivity | apply set_add_In; tauto].
    + split; [tauto | intros [? | [[= ? ?] | [= ]]]; [assumption | contradiction]].
  - rewrite set_add_In. split.
    + intros [-> | ?]; auto.
    + intros [? | [[= ] | [= ->]]]; auto.
Qed.

Lemma has_addSource version e src v :
  JSMap.has v (versions (addSource version e src)) = JSMap.has v (versions e).
Proof.
  unfold addSource. simpl. destruct (JSMap.get version (versions e)) eqn:E; [| reflexivity].
  rewrite map_has_set. keq v version; [| reflexivity].
  simpl. unfold JSMap.has. now rewrite E.
Qed.

Lemma eSays_mergeSources version srcs : forall e f,
  JSMap.has version (versions e) = true ->
  eSays (fold_left (addSource version) srcs e) f <->
  eSays e f \/ (exists src, In src srcs /\ (f = FReport version src \/ f = FCite src)).
Proof.
  induction srcs as [| s srcs IH]; intros e f Hv; simpl.
  - split; [tauto | intros [? | (? & [] & _)]; assumption].
  - rewrite IH by (now rewrite has_addSource).
    rewrite eSays_addSource by assumption. split.
    + intros [[? | ?] | (src & ? & ?)]; eauto 6.
    + intros [? | (src & [-> | ?] & ?)]; eauto 6.
Qed.

Lemma has_ensureVersion version e :
  JSMap.has version (versions (ensureVersion version e)) = true.
Proof.
  unfold ensureVersion. destruct (JSMap.has version (versions e)) eqn:E; simpl.
  - exact E.
  - now rewrite map_has_set, keqb_refl.
Qed.

Lemma eSays_mergeVersions vs : forall e f,
  eSays (mergeVersions e vs) f <-> eSays e f \/ gives vs f.
Proof.
  induction vs as [| [version srcs] vs IH]; intros e f.
  - unfold mergeVersions. simpl. split; [tauto | intros [? | Hg]; [assumption|]].
    destruct f; simpl in Hg; firstorder.
  - rewrite mergeVersions_cons, IH.
    rewrite eSays_mergeSources by apply has_ensureVersion.
    rewrite eSays_ensureVersion.
    destruct f as [v | v s | s]; simpl; split.
    + intros [[[? | [= ->]] | (src & _ & [[= ] | [= ]])] | (ss & ?)]; eauto.
    + intros [? | (ss & [[= -> ->] | ?])]; eauto.
    + intros [[[? | [= ]] | (src & ? & [[= -> ->] | [= ]])] | (ss & ? & ?)]; eauto 7.
    + intros [? | (ss & [[= -> ->] | ?] & ?)]; eauto 8.
    + intros [[[? | [= ]] | (src & ? & [[= ] | [= ->]])] | (v & ss & ? & ?)]; eauto 8.
    + intros [? | (v & ss & [[= -> ->] | ?] & ?)]; eauto 8.
Qed.

Lemma get_upsert name f reg n :
  JSMap.get n (upsert name f reg) =
  if keqb n name then Some (f (entryOf reg name)) else JSMap.get n reg.
Proof.
  unfold upsert, entryOf. destruct (JSMap.has name reg) eqn:E; cbn [negb].
  - apply map_has_get in E as [e He]. rewrite He, map_get_set.
    reflexivity.
  - apply map_has_false in E. rewrite map_get_set_eq, E, !map_get_set.
    destruct (keqb n name); reflexivity.
Qed.

Lemma entryOf_upsert name f reg n :
  entryOf (upsert name f reg) n =
  if keqb n name then f (entryOf reg name) else entryOf reg n.
Proof.
  unfold entryOf at 1. rewrite get_upsert. destruct (keqb n name); reflexivity.
Qed.

Lemma knows_upsert name f reg n :
  knows (upsert name f reg) n <-> knows reg n \/ n = name.
Proof.
  unfold knows, JSMap.has. rewrite get_upsert. keq n name.
  - split; [auto | reflexivity].
  - split; [tauto | intros [? | ?]; [assumption | contradiction]].
Qed.

Lemma upsert_NoDup name f reg :
  NoDup (JSMap.keys reg) -> NoDup (JSMap.keys (upsert name f reg)).
Proof.
  intros Hnd. unfold upsert.
  destruct (JSMap.get name _); [apply map_set_NoDup|];
    destruct (negb (JSMap.has name reg)); auto using map_set_NoDup.
Qed.

(** *** [addRecord] *)

Lemma knows_addRecord name version src reg n :
  knows (addRecord name version src reg) n <-> knows reg n \/ n = name.
Proof. rewrite addRecord_upsert. apply knows_upsert. Qed.

Lemma says_addRecord name version src reg n f :
  says (addRecord name version src reg) n f <->
  says reg n f \/ (n = name /\ recordGives version src f).
Proof.
  rewrite addRecord_upsert. unfold says. rewrite entryOf_upsert. keq n name.
  - rewrite eSays_addSource by apply has_ensureVersion.
    rewrite eSays_ensureVersion.
    destruct f as [v | v s | s]; simpl; split.
    + intros [[? | [= ->]] | [[= ] | [= ]]]; auto.
    + intros [? | [_ ->]]; auto.
    + intros [[? | [= ]] | [[= -> ->] | [= ]]]; auto.
    + intros [? | [_ [-> ->]]]; auto.
    + intros [[? | [= ]] | [[= ] | [= ->]]]; auto.
    + intros [? | [_ ->]]; auto.
  - split; [tauto | intros [? | [? _]]; [assumption | contradiction]].
Qed.

(** *** [mergeInto] *)

Lemma knows_mergeInto sc : forall all n,
  knows (mergeInto all sc) n <-> knows all n \/ exists e, In (n, e) sc.
Proof.
  induction sc as [| [name pkgData] sc IH]; intros all n.
  - simpl. split; [tauto | intros [? | (? & [])]; assumption].
  - rewrite mergeInto_cons, IH, knows_upsert. simpl. split.
    + intros [[? | ->] | (e & ?)]; eauto.
    + intros [? | (e & [[= -> ->] | ?])]; eauto.
Qed.

Lemma says_mergeInto sc : forall all n f,
  says (mergeInto all sc) n f <->
  says all n f \/ exists e, In (n, e) sc /\ gives (versions e) f.
Proof.
  induction sc as [| [name pkgData] sc IH]; intros all n f.
  - simpl. split; [tauto | intros [? | (? & [] & _)]; assumption].
  - rewrite mergeInto_cons, IH. unfold says at 1. rewrite entryOf_upsert.
    keq n name; cbn [In].
    + rewrite eSays_mergeVersions. fold (says all name f). split.
      * intros [[? | ?] | (e & ? & ?)]; eauto 6.
      * intros [? | (e & [[= ->] | ?] & ?)]; eauto 6.
    + fold (says all n f). split.
      * intros [? | (e & ? & ?)]; eauto 6.
      * intros [? | (e & [[= ? ?] | ?] & ?)]; [auto | congruence | eauto 6].
Qed.

(** *** Folding [mergeInto] over the partial registries *)

Lemma knows_fold_mergeInto ps : forall acc n,
  knows (fold_left mergeInto ps acc) n <->
  knows acc n \/ exists p e, In p ps /\ In (n, e) p.
Proof.
  induction ps as [| p ps IH]; intros acc n; simpl.
  - split; [tauto | intros [? | (? & ? & [] & _)]; assumption].
  - rewrite IH, knows_mergeInto. split.
    + intros [[? | (e & ?)] | (q & e & ? & ?)]; eauto 7.
    + intros [? | (q & e & [-> | ?] & ?)]; eauto 7.
Qed.

Lemma says_fold_mergeInto ps : forall acc n f,
  says (fold_left mergeInto ps acc) n f <->
  says acc n f \/ exists p e, In p ps /\ In (n, e) p /\ gives (versions e) f.
Proof.
  induction ps as [| p ps IH]; intros acc n f; simpl.
  - split; [tauto | intros [? | (? & ? & [] & _)]; assumption].
  - rewrite IH, says_mergeInto. split.
    + intros [[? | (e & ? & ?)] | (q & e & ? & ? & ?)]; eauto 9.
    + intros [? | (q & e & [-> | ?] & ? & ?)]; eauto 9.
Qed.

(** *** Registries with the same content *)

Lemma sameEntry_says e1 e2 :
  (forall f, eSays e1 f <-> eSays e2 f) -> sameEntry e1 e2.
Proof.
  intros Hs. split.
  - intros v. pose proof (Hs (FVersion v)) as Hv. simpl in Hv. unfold JSMap.has in Hv.
    destruct (JSMap.get v (versions e1)) as [s1|] eqn:E1,
             (JSMap.get v (versions e2)) as [s2|] eqn:E2;
      try (destruct Hv as [Hv1 Hv2]; (now discriminate Hv1) || (now discriminate Hv2)); [| exact I].
    intros x. pose proof (Hs (FReport v x)) as Hx. simpl in Hx.
    rewrite E1, E2 in Hx. split; intros Hin.
    + destruct (proj1 Hx (ex_intro _ s1 (conj eq_refl Hin))) as (? & [= <-] & ?). assumption.
    + destruct (proj2 Hx (ex_intro _ s2 (conj eq_refl Hin))) as (? & [= <-] & ?). assumption.
  - intros x. exact (Hs (FCite x)).
Qed.

Lemma sameRegistry_says r1 r2 :
  (forall n, knows r1 n <-> knows r2 n) ->
  (forall n f, says r1 n f <-> says r2 n f) ->
  sameRegistry r1 r2.
Proof.
  intros Hk Hs n. specialize (Hk n). pose proof (Hs n) as Hn.
  unfold knows, JSMap.has, says, entryOf in *.
  destruct (JSMap.get n r1) as [e1|], (JSMap.get n r2) as [e2|];
    try (destruct Hk as [Hk1 Hk2]; (now discriminate Hk1) || (now discriminate Hk2)); [| exact I].
  now apply sameEntry_says.
Qed.

(** *** The lists built are proper maps and sets *)

Lemma properEntry_empty : properEntry emptyEntry.
Proof. repeat split; simpl; try constructor. intros v ss []. Qed.

Lemma properEntry_ensureVersion version e :
  properEntry e -> properEntry (ensureVersion version e).
Proof.
  intros (Hk & Hv & Hs). unfold ensureVersion.
  destruct (negb (JSMap.has version (versions e))); [| repeat split; assumption].
  repeat split; simpl; [now apply map_set_NoDup | | assumption].
  intros v ss Hin. apply map_set_In in Hin as [[_ ->] | Hin]; [constructor | eauto].
Qed.

Lemma properEntry_addSource version e src :
  properEntry e -> properEntry (addSource version e src).
Proof.
  intros (Hk & Hv & Hs). unfold addSource.
  repeat split; simpl; [| | now apply set_add_NoDup].
  - destruct (JSMap.get version (versions e)); [now apply map_set_NoDup | assumption].
  - intros v ss. destruct (JSMap.get version (versions e)) as [s0|] eqn:E; [| apply Hv].
    intros Hin. apply map_set_In in Hin as [[_ ->] | Hin]; [| eauto].
    apply set_add_NoDup. apply map_get_In in E. eauto.
Qed.

Lemma properEntry_mergeVersions vs : forall e,
  properEntry e -> properEntry (mergeVersions e vs).
Proof.
  induction vs as [| [version srcs] vs IH]; intros e He; [exact He|].
  rewrite mergeVersions_cons. apply IH.
  generalize (properEntry_ensureVersion version He).
  generalize (ensureVersion version e) as e0.
  induction srcs as [| src srcs IHs]; intros e0 He0; simpl; [exact He0|].
  apply IHs. now apply properEntry_addSource.
Qed.

Lemma properRegistry_upsert name f reg :
  (forall e, properEntry e -> properEntry (f e)) ->
  properRegistry reg -> properRegistry (upsert name f reg).
Proof.
  intros Hf [Hk He]. split; [now apply upsert_NoDup|].
  intros n e Hin. unfold upsert in Hin.
  assert (forall n e,
            In (n, e) (if negb (JSMap.has name reg)
                       then JSMap.set name emptyEntry reg else reg) ->
            properEntry e) as He'.
  { intros n0 e0. destruct (negb (JSMap.has name reg)); [| apply He].
    intros H0. apply map_set_In in H0 as [[_ ->] | H0];
      [apply properEntry_empty | eauto]. }
  destruct (JSMap.get name _) as [e0|] eqn:E; [| eauto].
  apply map_set_In in Hin as [[_ ->] | Hin]; [| eauto].
  apply Hf. apply map_get_In in E. eauto.
Qed.

Lemma properRegistry_addRecord name version src reg :
  properRegistry reg -> properRegistry (addRecord name version src reg).
Proof.
  rewrite addRecord_upsert. apply properRegistry_upsert.
  intros e He. now apply properEntry_addSource, properEntry_ensureVersion.
Qed.

Lemma properRegistry_mergeInto sc : forall all,
  properRegistry all -> properRegistry (mergeInto all sc).
Proof.
  induction sc as [| [name pkgData] sc IH]; intros all Hall; [exact Hall|].
  rewrite mergeInto_cons. apply IH. apply properRegistry_upsert; [| exact Hall].
  intros e. apply properEntry_mergeVersions.
Qed.

Lemma properRegistry_empty : properRegistry [].
Proof. split; [constructor | intros n e []]. Qed.

(** Whatever the sources deliver, the merged registry is a proper map
    of proper entries. *)
Lemma properRegistry_fetchAll feeds :
  properRegistry (fetchAllCompromisedPackages feeds).
Proof.
  unfold fetchAllCompromisedPackages. generalize properRegistry_empty.
  generalize (@nil (key * entry)) as acc.
  induction feeds as [| [n f] feeds IH]; intros acc Hacc; simpl; [exact Hacc|].
  apply IH. unfold fetchStep. simpl. destruct f as [| parsed]; [exact Hacc|].
  destruct (parseCompromisedList parsed n); [| exact Hacc].
  now apply properRegistry_mergeInto.
Qed.

Lemma sameMap_refl {V} (R : V -> V -> Prop) m :
  (forall x, R x x) -> sameMap R m m.
Proof. intros HR k. destruct (JSMap.get k m); auto. Qed.

Lemma sameMap_sym {V} (R : V -> V -> Prop) m1 m2 :
  (forall x y, R x y -> R y x) -> sameMap R m1 m2 -> sameMap R m2 m1.
Proof.
  intros HR H12 k. specialize (H12 k).
  destruct (JSMap.get k m1), (JSMap.get k m2); auto.
Qed.

Lemma sameMap_trans {V} (R : V -> V -> Prop) m1 m2 m3 :
  (forall x y z, R x y -> R y z -> R x z) ->
  sameMap R m1 m2 -> sameMap R m2 m3 -> sameMap R m1 m3.
Proof.
  intros HR H12 H23 k. specialize (H12 k). specialize (H23 k).
  destruct (JSMap.get k m1), (JSMap.get k m2), (JSMap.get k m3);
    try contradiction; eauto.
Qed.

Lemma sameSet_refl a : sameSet a a.
Proof. intros x. tauto. Qed.

Lemma sameSet_sym a b : sameSet a b -> sameSet b a.
Proof. intros H x. now rewrite (H x). Qed.

Lemma sameSet_trans a b c : sameSet a b -> sameSet b c -> sameSet a c.
Proof. intros H1 H2 x. now rewrite (H1 x), (H2 x). Qed.

Lemma sameEntry_refl e : sameEntry e e.
Proof. split; [apply sameMap_refl|]; apply sameSet_refl. Qed.

Lemma sameEntry_sym e1 e2 : sameEntry e1 e2 -> sameEntry e2 e1.
Proof.
  intros [Hv Hs]. split; [apply sameMap_sym with (2 := Hv)|]; auto using sameSet_sym.
Qed.

Lemma sameEntry_trans e1 e2 e3 :
  sameEntry e1 e2 -> sameEntry e2 e3 -> sameEntry e1 e3.
Proof.
  intros [Hv1 Hs1] [Hv2 Hs2]. split.
  - apply sameMap_trans with (2 := Hv1) (3 := Hv2). apply sameSet_trans.
  - eapply sameSet_trans; eassumption.
Qed.

(** Having the same content is an equivalence on registries. *)
Lemma sameRegistry_equivalence :
  (forall r, sameRegistry r r)
  /\ (forall r1 r2, sameRegistry r1 r2 -> sameRegistry r2 r1)
  /\ (forall r1 r2 r3, sameRegistry r1 r2 -> sameRegistry r2 r3 -> sameRegistry r1 r3).
Proof.
  repeat split.
  - intros r. apply sameMap_refl, sameEntry_refl.
  - intros r1 r2. apply sameMap_sym, sameEntry_sym.
  - intros r1 r2 r3. apply sameMap_trans, sameEntry_trans.
Qed.

Lemma merge_permutation (ps1 ps2 : list registry) :
  Permutation ps1 ps2 ->
  sameRegistry (fold_left mergeInto ps1 []) (fold_left mergeInto ps2 []).
Proof.
  intros Hperm. apply sameRegistry_says.
  - intros n. rewrite !knows_fold_mergeInto. split;
      (intros [? | (p & e & Hp & ?)]; [auto | right; exists p, e; split; [| assumption]]).
    + now apply (Permutation_in _ Hperm).
    + now apply (Permutation_in _ (Permutation_sym Hperm)).
  - intros n f. rewrite !says_fold_mergeInto. split;
      (intros [? | (p & e & Hp & ?)]; [auto | right; exists p, e; split; [| assumption]]).
    + now apply (Permutation_in _ Hperm).
    + now apply (Permutation_in _ (Permutation_sym Hperm)).
Qed.

(** [fetchAllCompromisedPackages] is the merge of the partial registries
    of its sources, in source order. *)
Lemma fetchAll_merges feeds : forall acc,
  fold_left fetchStep feeds acc = fold_left mergeInto (flat_map partialOf feeds) acc.
Proof.
  induction feeds as [| [n f] feeds IH]; intros acc; simpl; [reflexivity|].
  rewrite fold_left_app, IH. f_equal.
  unfold fetchStep, partialOf. simpl.
  destruct f as [| parsed]; [reflexivity|].
  destruct (parseCompromisedList parsed n); reflexivity.
Qed.

(* ================================================================== *)
(** * Facts about the walk of the installation tree *)

Lemma Deep_here Q n : Deep Q n -> Q n.
Proof. intros []; assumption. Qed.

Lemma Deep_intro (Q : node -> Prop) :
  (forall c, Q (File c)) ->
  (forall l es, Forall (fun p => Deep Q (snd p)) es -> Q (Dir l es)) ->
  forall n, Deep Q n.
Proof.
  intros HF HD. induction n as [c | l es IH] using node_induction.
  - constructor. apply HF.
  - constructor; [apply HD|]; assumption.
Qed.

Lemma withChild_ind {A} (R : A -> Prop) name (k : node -> A) d es (Q : node -> Prop) :
  Forall (fun p => Q (snd p)) es ->
  R d -> (forall c, Q c -> R (k c)) -> R (withChild name k d es).
Proof.
  intros Hes Hd Hk. induction Hes as [| [n c] rest Hc _ IH]; simpl; [assumption|].
  destruct (String.eqb n name); [apply Hk; exact Hc | exact IH].
Qed.

Lemma withChild_child {A} name (k : node -> A) d es :
  withChild name k d es =
  match child name es with Some c => k c | None => d end.
Proof.
  induction es as [| [n c] rest IH]; simpl; [reflexivity|].
  destruct (String.eqb n name); [reflexivity | exact IH].
Qed.

Section WalkInvariant.
(** Any property of the accumulator that survives [scanned.set] on a
    name not yet present survives the whole walk. *)
Variable P : scannedMap -> Prop.
Hypothesis P_set : forall m name inf,
  JSMap.has name m = false -> P m -> P (JSMap.set name inf m).

Lemma visitPackage_invariant name p pkgEntries m :
  Forall (fun e => Deep (keptByWalk P) (snd e)) pkgEntries ->
  P m -> P (visitPackage readNodeModules name p pkgEntries m).
Proof.
  intros Hes Hm. unfold visitPackage.
  destruct (existsSync _); simpl; [| assumption].
  destruct (JSMap.has name m) eqn:E; simpl; [assumption|].
  destruct (readManifest _) as [pkg|]; simpl; [| assumption].
  destruct (prop pkg "version") as [v|]; simpl; [| assumption].
  eapply withChild_ind with (Q := Deep (keptByWalk P)); [exact Hes | |].
  - now apply P_set.
  - intros c Hc. apply (Deep_here Hc). now apply P_set.
Qed.

Lemma scanScoped_invariant scopeName scopePath es : forall m,
  Forall (fun e => Deep (keptByWalk P) (snd e)) es ->
  P m -> P (scanScoped readNodeModules scopeName scopePath es m).
Proof.
  induction es as [| [n c] rest IH]; intros m Hes Hm; simpl; [assumption|].
  inversion Hes as [| ? ? Hc Hrest]; subst. simpl in Hc.
  destruct c as [? | l sub]; [now apply IH|].
  apply IH; [assumption|]. apply visitPackage_invariant; [| assumption].
  now inversion Hc.
Qed.

Lemma scanEntries_invariant p es : forall m,
  Forall (fun e => Deep (keptByWalk P) (snd e)) es ->
  P m -> P (scanEntries readNodeModules p es m).
Proof.
  induction es as [| [n c] rest IH]; intros m Hes Hm; simpl; [assumption|].
  inversion Hes as [| ? ? Hc Hrest]; subst. simpl in Hc.
  destruct c as [? | l sub]; [now apply IH|].
  assert (Forall (fun e => Deep (keptByWalk P) (snd e)) sub) as Hsub by now inversion Hc.
  destruct (startsWith "@" n).
  - destruct l; [| assumption].
    apply IH; [assumption|]. now apply scanScoped_invariant.
  - apply IH; [assumption|]. now apply visitPackage_invariant.
Qed.

Lemma readNodeModules_deep : forall t, Deep (keptByWalk P) t.
Proof.
  apply Deep_intro.
  - intros c p m Hm. exact Hm.
  - intros l es Hes p m Hm. destruct l; simpl; [| exact Hm].
    now apply scanEntries_invariant.
Qed.

Lemma readNodeModules_invariant t p m : P m -> P (readNodeModules t p m).
Proof. apply (Deep_here (readNodeModules_deep t)). Qed.

Lemma visitPackage_invariant' name p pkgEntries m :
  P m -> P (visitPackage readNodeModules name p pkgEntries m).
Proof.
  apply visitPackage_invariant. apply Forall_forall. intros e _.
  apply readNodeModules_deep.
Qed.

Lemma scanEntries_invariant' p es m :
  P m -> P (scanEntries readNodeModules p es m).
Proof.
  apply scanEntries_invariant. apply Forall_forall. intros e _.
  apply readNodeModules_deep.
Qed.

Lemma getAllInstalledPackages_invariant target p m :
  P m -> P (getAllInstalledPackages target p m).
Proof. destruct target; [apply readNodeModules_invariant | trivial]. Qed.
End WalkInvariant.

(** The three instances used below. *)
Lemma walk_keeps_records (scanned0 : scannedMap) :
  forall m name inf,
    JSMap.has name m = false ->
    (forall k v, JSMap.get k scanned0 = Some v -> JSMap.get k m = Some v) ->
    (forall k v, JSMap.get k scanned0 = Some v ->
                 JSMap.get k (JSMap.set name inf m) = Some v).
Proof.
  intros m name inf Hfresh Hm k v Hk. rewrite map_get_set. keq k name.
  - apply Hm in Hk. apply map_has_false in Hfresh. congruence.
  - now apply Hm.
Qed.

Lemma walk_extends (scanned0 : scannedMap) :
  forall m name (inf : info),
    JSMap.has name m = false ->
    (exists added, m = scanned0 ++ added) ->
    (exists added, JSMap.set name inf m = scanned0 ++ added).
Proof.
  intros m name inf Hfresh [added ->]. rewrite map_set_fresh by assumption.
  exists (added ++ [(name, inf)]). now rewrite app_assoc.
Qed.

Lemma walk_distinct_names :
  forall (m : scannedMap) name (inf : info),
    JSMap.has name m = false ->
    NoDup (JSMap.keys m) -> NoDup (JSMap.keys (JSMap.set name inf m)).
Proof. intros. now apply map_set_NoDup. Qed.

(* ================================================================== *)
(** * Facts about the string primitives *)

Lemma nonEmpty_true s : nonEmpty s = true <-> s <> "".
Proof.
  unfold nonEmpty. destruct (String.eqb_spec s ""); simpl; split; congruence.
Qed.

Lemma nonEmpty_false s : nonEmpty s = false <-> s = "".
Proof.
  unfold nonEmpty. destruct (String.eqb_spec s ""); simpl; split; congruence.
Qed.

Lemma trimStart_empty s : trimStart s = "" <-> blank s = true.
Proof.
  unfold blank. induction s as [| c s IH]; simpl; [tauto|].
  destruct (isWhite c); simpl; [exact IH | split; discriminate].
Qed.

Lemma trimEnd_empty s : trimEnd s = "" <-> blank s = true.
Proof.
  unfold blank. induction s as [| c s IH]; simpl; [tauto|].
  destruct (trimEnd s) eqn:E.
  - destruct (isWhite c); simpl; [tauto | split; discriminate].
  - split; [discriminate|]. intros Hb. apply andb_true_iff in Hb as [_ Hb].
    apply IH in Hb. discriminate.
Qed.

Lemma blank_trimStart s : blank (trimStart s) = blank s.
Proof.
  unfold blank. induction s as [| c s IH]; simpl; [reflexivity|].
  destruct (isWhite c) eqn:E; simpl; [exact IH | now rewrite E].
Qed.

Lemma trim_empty s : trim s = "" <-> blank s = true.
Proof. unfold trim. now rewrite trimEnd_empty, blank_trimStart. Qed.

Lemma trim_nonEmpty s : nonEmpty (trim s) = negb (blank s).
Proof.
  destruct (blank s) eqn:E; simpl.
  - apply nonEmpty_false. now apply trim_empty.
  - apply nonEmpty_true. rewrite trim_empty. congruence.
Qed.

Lemma trimStart_head s c r : trimStart s = String c r -> isWhite c = false.
Proof.
  induction s as [| c0 s IH]; simpl; [discriminate|].
  destruct (isWhite c0) eqn:E; [exact IH | congruence].
Qed.

Lemma trimEnd_head s c r :
  trimEnd s = String c r -> exists r0, s = String c r0.
Proof.
  destruct s as [| c0 s]; simpl; [discriminate|].
  destruct (trimEnd s); [destruct (isWhite c0)|]; intros [= <- <-] || discriminate; eauto.
Qed.

(** A trimmed string starts with ink. *)
Lemma trim_head s c r : trim s = String c r -> isWhite c = false.
Proof.
  unfold trim. intros E. apply trimEnd_head in E as [r0 E].
  now apply trimStart_head in E.
Qed.

Lemma trimEnd_idem s : trimEnd (trimEnd s) = trimEnd s.
Proof.
  induction s as [| c s IH]; simpl; [reflexivity|].
  destruct (trimEnd s) eqn:E.
  - destruct (isWhite c) eqn:W; simpl; [reflexivity | now rewrite W].
  - simpl. simpl in IH. now rewrite IH.
Qed.

Lemma trimEnd_trim s : trimEnd (trim s) = trim s.
Proof. apply trimEnd_idem. Qed.

Lemma append_snoc a c v :
  ((a ++ String c "") ++ v)%string = (a ++ String c v)%string.
Proof. induction a as [| c0 a IH]; simpl; [reflexivity | now rewrite IH]. Qed.

(** Whatever follows a position of a right-trimmed string holds ink. *)
Lemma trimEnd_fixed_suffix a : forall v,
  trimEnd (a ++ v)%string = (a ++ v)%string -> v <> "" -> blank v = false.
Proof.
  induction a as [| c a IH]; intros v Hfix Hv; simpl in Hfix.
  - destruct (blank v) eqn:E; [| reflexivity].
    apply trimEnd_empty in E. congruence.
  - destruct (trimEnd (a ++ v)%string) eqn:E.
    + destruct (isWhite c); [discriminate|]. injection Hfix as Hfix.
      destruct a; simpl in Hfix; congruence.
    + injection Hfix as Hfix. apply IH; [| assumption]. congruence.
Qed.

Lemma breakAtSeparator_sound s : forall n v,
  breakAtSeparator s = Some (n, v) ->
  exists sep, s = (n ++ String sep v)%string /\ isSeparator sep = true
              /\ allChars (fun c => negb (isSeparator c)) n = true.
Proof.
  induction s as [| c s IH]; intros n v; simpl; [discriminate|].
  destruct (isSeparator c) eqn:E.
  - intros [= <- <-]. exists c. auto.
  - destruct (breakAtSeparator s) as [[n0 v0]|]; [| discriminate].
    intros [= <- <-]. destruct (IH _ _ eq_refl) as (sep & -> & Hsep & Hn).
    exists sep. simpl. rewrite E. auto.
Qed.

Lemma breakAtSeparator_complete n : forall sep v,
  isSeparator sep = true ->
  allChars (fun c => negb (isSeparator c)) n = true ->
  breakAtSeparator (n ++ String sep v)%string = Some (n, v).
Proof.
  induction n as [| c n IH]; intros sep v Hsep Hn; simpl.
  - now rewrite Hsep.
  - simpl in Hn. apply andb_true_iff in Hn as [Hc Hn].
    apply negb_true_iff in Hc. rewrite Hc. now rewrite IH.
Qed.

(** [matchLine] computes the match of [/^([^:@]+)[:@](.+)$/]: a
    non-empty run of characters other than [:] and [@], one of the two
    separators, and a non-empty run of characters other than line
    terminators, covering the whole line. *)
Lemma matchLine_regex line n v :
  matchLine line = Some (n, v) <->
  exists sep,
    line = (n ++ String sep v)%string
    /\ n <> "" /\ allChars (fun c => negb (isSeparator c)) n = true
    /\ isSeparator sep = true
    /\ v <> "" /\ allChars (fun c => negb (isLineTerminator c)) v = true.
Proof.
  unfold matchLine. split.
  - destruct (breakAtSeparator line) as [[n0 v0]|] eqn:E; [| discriminate].
    destruct (nonEmpty n0 && nonEmpty v0 && _) eqn:C; [| discriminate].
    intros [= <- <-]. apply andb_true_iff in C as [C Hv].
    apply andb_true_iff in C as [Hn0 Hv0].
    apply nonEmpty_true in Hn0, Hv0.
    apply breakAtSeparator_sound in E as (sep & -> & Hsep & Hn).
    exists sep. auto 7.
  - intros (sep & -> & Hn0 & Hn & Hsep & Hv0 & Hv).
    rewrite breakAtSeparator_complete by assumption.
    apply nonEmpty_true in Hn0, Hv0. now rewrite Hn0, Hv0, Hv.
Qed.

(** On a trimmed line both capture groups hold ink, so the trimmed
    name and the trimmed version are non-empty. *)
Lemma matchLine_trimmed raw n v :
  matchLine (trim raw) = Some (n, v) ->
  nonEmpty (trim n) = true /\ nonEmpty (trim v) = true.
Proof.
  intros Hm. apply matchLine_regex in Hm as (sep & E & Hn0 & _ & _ & Hv0 & _).
  rewrite !trim_nonEmpty. split; apply negb_true_iff.
  - destruct n as [| c n]; [congruence|]. simpl in E.
    apply trim_head in E. unfold blank. simpl. now rewrite E.
  - apply trimEnd_fixed_suffix with (a := (n ++ String sep "")%string).
    + pose proof (trimEnd_trim raw) as Hfix. rewrite E in Hfix.
      rewrite append_snoc. exact Hfix.
    + assumption.
Qed.

(* ================================================================== *)
(** * Facts about [parseCompromisedList] *)

Lemma filter_nonEmpty_head l name rest :
  filter nonEmpty l = name :: rest -> nonEmpty name = true.
Proof.
  intros E. assert (In name (filter nonEmpty l)) as Hin by (rewrite E; now left).
  now apply filter_In in Hin.
Qed.

Lemma filter_nonEmpty_second l name version rest :
  filter nonEmpty l = name :: version :: rest -> nonEmpty version = true.
Proof.
  intros E.
  assert (In version (filter nonEmpty l)) as Hin by (rewrite E; right; now left).
  now apply filter_In in Hin.
Qed.

Lemma parseLine_lineRecord src reg line :
  parseLine src reg line =
  match lineRecord line with
  | Some (n, v) => addRecord (KStr n) (KStr v) src reg
  | None => reg
  end.
Proof.
  unfold parseLine, lineRecord.
  destruct (negb (nonEmpty (trim line)) || _ || _); [reflexivity|].
  destruct (includes "|" (trim line)).
  - destruct (filter nonEmpty _) as [| name [| version rest]] eqn:E; try reflexivity.
    rewrite (filter_nonEmpty_head _ E), (filter_nonEmpty_second _ E). simpl.
    destruct (negb (String.eqb name "Package") && _); reflexivity.
  - destruct (matchLine (trim line)) as [[n v]|]; reflexivity.
Qed.

Lemma lineRecord_nonEmpty line n v :
  lineRecord line = Some (n, v) -> n <> "" /\ v <> "".
Proof.
  unfold lineRecord.
  destruct (negb (nonEmpty (trim line)) || _ || _); [discriminate|].
  destruct (includes "|" (trim line)).
  - destruct (filter nonEmpty _) as [| name [| version rest]] eqn:E; try discriminate.
    destruct (negb (String.eqb name "Package") && _); [| discriminate].
    intros [= <- <-]. split; apply nonEmpty_true.
    + exact (filter_nonEmpty_head _ E).
    + exact (filter_nonEmpty_second _ E).
  - destruct (matchLine (trim line)) as [[n0 v0]|] eqn:E; [| discriminate].
    intros [= <- <-]. apply matchLine_trimmed in E as [Hn Hv].
    split; now apply nonEmpty_true.
Qed.

Lemma knows_parseLines src lines : forall reg k,
  knows (fold_left (parseLine src) lines reg) k <->
  knows reg k \/
  exists line n v, In line lines /\ lineRecord line = Some (n, v) /\ k = KStr n.
Proof.
  induction lines as [| l lines IH]; intros reg k; simpl.
  - split; [tauto | intros [? | (? & ? & ? & [] & _)]; assumption].
  - rewrite IH, parseLine_lineRecord. destruct (lineRecord l) as [[n0 v0]|] eqn:E.
    + rewrite knows_addRecord. split.
      * intros [[? | ->] | (line & n & v & ? & ? & ?)]; eauto 9.
      * intros [? | (line & n & v & [<- | ?] & Hr & ->)]; [auto | | eauto 9].
        rewrite E in Hr. injection Hr as <- <-. auto.
    + split.
      * intros [? | (line & n & v & ? & ? & ?)]; eauto 9.
      * intros [? | (line & n & v & [<- | ?] & Hr & ->)]; [auto | congruence | eauto 9].
Qed.

Lemma says_parseLines src lines : forall reg k f,
  says (fold_left (parseLine src) lines reg) k f <->
  says reg k f \/
  exists line n v, In line lines /\ lineRecord line = Some (n, v)
                   /\ k = KStr n /\ recordGives (KStr v) src f.
Proof.
  induction lines as [| l lines IH]; intros reg k f; simpl.
  - split; [tauto | intros [? | (? & ? & ? & [] & _)]; assumption].
  - rewrite IH, parseLine_lineRecord. destruct (lineRecord l) as [[n0 v0]|] eqn:E.
    + rewrite says_addRecord. split.
      * intros [[? | [-> ?]] | (line & n & v & ? & ? & ? & ?)]; eauto 11.
      * intros [? | (line & n & v & [<- | ?] & Hr & -> & ?)]; [auto | | eauto 11].
        rewrite E in Hr. injection Hr as <- <-. auto.
    + split.
      * intros [? | (line & n & v & ? & ? & ? & ?)]; eauto 11.
      * intros [? | (line & n & v & [<- | ?] & Hr & -> & ?)];
          [auto | congruence | eauto 11].
Qed.

Lemma parseLines_barren src lines reg :
  (forall line, In line lines -> lineRecord line = None) ->
  fold_left (parseLine src) lines reg = reg.
Proof.
  revert reg. induction lines as [| l lines IH]; intros reg Hb; simpl; [reflexivity|].
  rewrite parseLine_lineRecord, (Hb l) by now left.
  apply IH. intros line Hin. apply Hb. now right.
Qed.

Lemma says_empty k f : ~ says [] k f.
Proof. unfold says, entryOf. simpl. apply eSays_emptyEntry. Qed.

Lemma knows_empty k : ~ knows [] k.
Proof. unfold knows, JSMap.has. simpl. discriminate. Qed.

Lemma parseRecord_recordFields first second src reg pkg :
  parseRecord first second src reg pkg =
  match recordFields first second pkg with
  | Ok (name, version) => Ok (addRecord (toKey name) (toKey version) src reg)
  | Throw => Throw
  end.
Proof.
  unfold parseRecord, recordFields, bind.
  destruct (prop pkg first) as [a|]; [| reflexivity].
  destruct (if truthy a then Ok a else prop pkg second) as [name|]; [| reflexivity].
  destruct (prop pkg "version"); reflexivity.
Qed.

Lemma recordFields_total first second pkg :
  isObjectCoercible pkg = true ->
  exists name version, recordFields first second pkg = Ok (name, version).
Proof.
  unfold recordFields, bind, prop.
  destruct pkg; try discriminate; intros _; simpl; eauto;
    destruct (field first fields) as [a|]; simpl;
    try destruct (truthy a); destruct (field second fields);
    destruct (field "version" fields); eauto.
Qed.

Lemma forEach_parseRecord_total first second src items : forall reg,
  forallb isObjectCoercible items = true ->
  exists reg', forEach (parseRecord first second src) items reg = Ok reg'.
Proof.
  induction items as [| pkg items IH]; intros reg Hall; simpl; [eauto|].
  apply andb_true_iff in Hall as [Hp Hall].
  rewrite parseRecord_recordFields.
  destruct (recordFields_total first second pkg Hp) as (name & version & ->).
  simpl. now apply IH.
Qed.

Lemma says_parseRecords first second src items : forall reg reg' k f,
  forEach (parseRecord first second src) items reg = Ok reg' ->
  says reg' k f <->
  says reg k f \/
  exists pkg name version,
    In pkg items /\ recordFields first second pkg = Ok (name, version)
    /\ k = toKey name /\ recordGives (toKey version) src f.
Proof.
  induction items as [| p items IH]; intros reg reg' k f; simpl.
  - intros [= <-]. split; [tauto | intros [? | (? & ? & ? & [] & _)]; assumption].
  - rewrite parseRecord_recordFields.
    destruct (recordFields first second p) as [[name0 version0]|] eqn:E;
      simpl; [| discriminate].
    intros Hrest. rewrite (IH _ _ k f Hrest), says_addRecord. split.
    + intros [[? | [-> ?]] | (pkg & n & v & ? & ? & ? & ?)]; eauto 11.
    + intros [? | (pkg & n & v & [<- | ?] & Hr & -> & ?)]; [auto | | eauto 11].
      rewrite E in Hr. injection Hr as <- <-. auto.
Qed.

(* ================================================================== *)
(** * The classifier *)

Lemma classify_counts reg pkg res :
  let r := classify reg res pkg in
  List.length (compromised r) + List.length (suspicious r) + safe r
  = S (List.length (compromised res) + List.length (suspicious res) + safe res)
  /\ totalScanned r = totalScanned res.
Proof.
  destruct pkg as [name inf]. unfold classify.
  destruct (JSMap.get (KStr name) reg) as [e|]; [| simpl; lia].
  destruct (JSMap.get (toKey (version inf)) (versions e)); simpl;
    rewrite length_app; simpl; lia.
Qed.

Lemma classify_fold_counts reg pkgs : forall res,
  let r := fold_left (classify reg) pkgs res in
  List.length (compromised r) + List.length (suspicious r) + safe r
  = List.length (compromised res) + List.length (suspicious res) + safe res
    + List.length pkgs
  /\ totalScanned r = totalScanned res.
Proof.
  induction pkgs as [| pkg pkgs IH]; intros res; simpl; [lia|].
  destruct (IH (classify reg res pkg)) as [IH1 IH2].
  destruct (classify_counts reg pkg res) as [H1 H2]. simpl in *. lia.
Qed.

Lemma classify_keeps reg pkg res x :
  (In x (compromised res) -> In x (compromised (classify reg res pkg)))
  /\ (In x (suspicious res) -> In x (suspicious (classify reg res pkg))).
Proof.
  destruct pkg as [name inf]. unfold classify.
  destruct (JSMap.get (KStr name) reg) as [e|]; [| simpl; tauto].
  destruct (JSMap.get (toKey (version inf)) (versions e)); simpl;
    rewrite ?in_app_iff; tauto.
Qed.

Lemma classify_fold_keeps reg pkgs : forall res x,
  (In x (compromised res) -> In x (compromised (fold_left (classify reg) pkgs res)))
  /\ (In x (suspicious res) -> In x (suspicious (fold_left (classify reg) pkgs res))).
Proof.
  induction pkgs as [| pkg pkgs IH]; intros res x; simpl; [tauto|].
  destruct (IH (classify reg res pkg) x) as [IH1 IH2].
  destruct (classify_keeps reg pkg res x) as [H1 H2]. tauto.
Qed.

Lemma classify_names reg pkgs : forall res,
  let r := fold_left (classify reg) pkgs res in
  map Finding.name (compromised r)
  = map Finding.name (compromised res) ++ map fst (ofVerdict reg Compromised pkgs)
  /\ map Finding.name (suspicious r)
     = map Finding.name (suspicious res) ++ map fst (ofVerdict reg Suspicious pkgs)
  /\ safe r = safe res + List.length (ofVerdict reg Safe pkgs).
Proof.
  induction pkgs as [| [name inf] pkgs IH]; intros res.
  - simpl. rewrite !app_nil_r. auto.
  - cbn [fold_left].
    destruct (IH (classify reg res (name, inf))) as (IHc & IHs & IHn).
    cbv zeta in *. rewrite IHc, IHs, IHn. clear IH IHc IHs IHn.
    unfold ofVerdict. cbn [filter]. unfold verdictOf, classify, JSMap.has.
    cbn [fst snd].
    destruct (JSMap.get (KStr name) reg) as [e|]; simpl.
    + destruct (JSMap.get (toKey (version inf)) (versions e)); simpl;
        rewrite ?map_app, <- ?app_assoc; simpl; repeat split; auto; lia.
    + repeat split; auto; lia.
Qed.

Lemma ofVerdict_name reg v (allPackages : scannedMap) name :
  NoDup (JSMap.keys allPackages) ->
  forall inf, In (name, inf) allPackages ->
  In name (map fst (ofVerdict reg v allPackages)) <-> verdictOf reg (name, inf) = v.
Proof.
  intros Hnd inf Hin. unfold ofVerdict. rewrite in_map_iff. split.
  - intros ([n i] & Hn & Hf). simpl in Hn. subst n.
    apply filter_In in Hf as [Hi Hv].
    assert (i = inf) as ->.
    { apply (map_In_get _ _ _ Hnd) in Hi. apply (map_In_get _ _ _ Hnd) in Hin.
      congruence. }
    destruct (verdictOf reg (name, inf)), v; simpl in Hv; congruence.
  - intros Hv. exists (name, inf). split; [reflexivity|].
    apply filter_In. split; [assumption|]. rewrite Hv. destruct v; reflexivity.
Qed.

(** C2. For every registry and every installed-package map the
    classifier puts each installed package in exactly one of the three
    categories: the number of Compromised results plus the number of
    Suspicious results plus the safe count is the number of installed
    packages scanned ([totalScanned], the size of the map), both for
    the classification loop on an arbitrary map and for
    [scanAllPackages] on an arbitrary installation tree; the
    Compromised results are the packages the registry lists at their
    installed version, the Suspicious results those it lists at other
    versions only, the safe count counts those it does not list; and
    in what [scanAllPackages] returns every installed name is in the
    one list its category names and in no other. *)
Theorem C2_classification_partitions (compromisedList : registry) :
  (forall allPackages : scannedMap,
     let r := classifyAll allPackages compromisedList in
     List.length (compromised r) + List.length (suspicious r) + safe r
     = totalScanned r
     /\ totalScanned r = JSMap.size allPackages
     /\ map Finding.name (compromised r)
        = map fst (ofVerdict compromisedList Compromised allPackages)
     /\ map Finding.name (suspicious r)
        = map fst (ofVerdict compromisedList Suspicious allPackages)
     /\ safe r = List.length (ofVerdict compromisedList Safe allPackages))
  /\ (forall (project : node) (projectRoot : string),
        let allPackages :=
          getAllInstalledPackages (resolve project "node_modules")
            (join projectRoot "node_modules") [] in
        let r := scanAllPackages project projectRoot compromisedList in
        List.length (compromised r) + List.length (suspicious r) + safe r
        = totalScanned r
        /\ forall name inf,
             In (name, inf) allPackages ->
             match verdictOf compromisedList (name, inf) with
             | Compromised =>
                 In name (map Finding.name (compromised r))
                 /\ ~ In name (map Finding.name (suspicious r))
             | Suspicious =>
                 ~ In name (map Finding.name (compromised r))
                 /\ In name (map Finding.name (suspicious r))
             | Safe =>
                 ~ In name (map Finding.name (compromised r))
                 /\ ~ In name (map Finding.name (suspicious r))
             end).
Proof.
  assert (forall allPackages : scannedMap,
     let r := classifyAll allPackages compromisedList in
     List.length (compromised r) + List.length (suspicious r) + safe r
     = totalScanned r
     /\ totalScanned r = JSMap.size allPackages
     /\ map Finding.name (compromised r)
        = map fst (ofVerdict compromisedList Compromised allPackages)
     /\ map Finding.name (suspicious r)
        = map fst (ofVerdict compromisedList Suspicious allPackages)
     /\ safe r = List.length (ofVerdict compromisedList Safe allPackages)) as Hloop.
  { intros allPackages. unfold classifyAll.
    destruct (classify_fold_counts compromisedList allPackages
                (mkResults [] [] 0 (JSMap.size allPackages))) as [H1 H2].
    destruct (classify_names compromisedList allPackages
                (mkResults [] [] 0 (JSMap.size allPackages))) as (H3 & H4 & H5).
    simpl in *. unfold JSMap.size in *. repeat split; try assumption; lia. }
  split; [exact Hloop|].
  intros project projectRoot allPackages r. subst r.
  change (scanAllPackages project projectRoot compromisedList)
    with (classifyAll allPackages compromisedList).
  destruct (Hloop allPackages) as (Hsum & _ & Hc & Hs & _).
  split; [exact Hsum|].
  intros name inf Hin. rewrite Hc, Hs.
  assert (NoDup (JSMap.keys allPackages)) as Hnd.
  { apply (getAllInstalledPackages_invariant (fun m => NoDup (JSMap.keys m))).
    - apply walk_distinct_names.
    - constructor. }
  pose proof (@ofVerdict_name compromisedList Compromised _ name Hnd inf Hin) as HC.
  pose proof (@ofVerdict_name compromisedList Suspicious _ name Hnd inf Hin) as HS.
  destruct (verdictOf compromisedList (name, inf)); split;
    rewrite ?HC, ?HS; congruence.
Qed.

Lemma C2_witness :
  let r :=
    scanAllPackages (Dir true [("node_modules", versionlessFoo)]) "root"
      [(KStr "foo", mkEntry [(KStr "1.0.0", ["feedX"])] ["feedX"])] in
  ~ In "foo" (map Finding.name (compromised r))
  /\ In "foo" (map Finding.name (suspicious r)).
Proof.
  apply (proj2 (proj2 (C2_classification_partitions
                         [(KStr "foo", mkEntry [(KStr "1.0.0", ["feedX"])] ["feedX"])])
                  (Dir true [("node_modules", versionlessFoo)]) "root")
           "foo" (mkInfo JUndefined "root/node_modules/foo")).
  simpl. auto.
Defined.

(** C3. For every installed package whose name is found in the
    registry: when the entry's version map holds the installed version,
    the classifier emits a Compromised result carrying all known-bad
    versions of that name and the source set of the matched version;
    when it does not, the classifier emits a Suspicious result carrying
    all known-bad versions and the entry's overall source set. *)
Theorem C3_registry_hit_verdict (allPackages : scannedMap)
  (compromisedList : registry) (name : string) (inf : info) (e : entry) :
  In (name, inf) allPackages ->
  JSMap.get (KStr name) compromisedList = Some e ->
  let r := classifyAll allPackages compromisedList in
  (forall srcs,
     JSMap.get (toKey (version inf)) (versions e) = Some srcs ->
     In (Finding.mk name (version inf) (JSMap.keys (versions e)) srcs
           (Some (sources e)) (path inf))
        (compromised r))
  /\ (JSMap.get (toKey (version inf)) (versions e) = None ->
      In (Finding.mk name (version inf) (JSMap.keys (versions e)) (sources e)
            None (path inf))
         (suspicious r)).
Proof.
  intros Hin He. unfold classifyAll.
  generalize (mkResults [] [] 0 (JSMap.size allPackages)) as res.
  induction allPackages as [| pkg pkgs IH]; intros res; [destruct Hin|].
  simpl. destruct Hin as [-> | Hin]; [| now apply IH].
  split.
  - intros srcs Hs. apply classify_fold_keeps.
    unfold classify. rewrite He, Hs. simpl. apply in_app_iff. right. now left.
  - intros Hs. apply classify_fold_keeps.
    unfold classify. rewrite He, Hs. simpl. apply in_app_iff. right. now left.
Qed.

Lemma C3_witness :
  In (Finding.mk "foo" (JStr "1.0.0") [KStr "1.0.0"] ["feedX"] (Some ["feedX"]) "/a/foo")
     (compromised
        (classifyAll
           [("foo", mkInfo (JStr "1.0.0") "/a/foo");
            ("bar", mkInfo (JStr "2.0.0") "/b/bar");
            ("baz", mkInfo (JStr "3.0.0") "/c/baz")]
           [(KStr "foo", mkEntry [(KStr "1.0.0", ["feedX"])] ["feedX"]);
            (KStr "bar", mkEntry [(KStr "1.0.0", ["feedY"])] ["feedY"])]))
  /\ In (Finding.mk "bar" (JStr "2.0.0") [KStr "1.0.0"] ["feedY"] None "/b/bar")
        (suspicious
           (classifyAll
              [("foo", mkInfo (JStr "1.0.0") "/a/foo");
               ("bar", mkInfo (JStr "2.0.0") "/b/bar");
               ("baz", mkInfo (JStr "3.0.0") "/c/baz")]
              [(KStr "foo", mkEntry [(KStr "1.0.0", ["feedX"])] ["feedX"]);
               (KStr "bar", mkEntry [(KStr "1.0.0", ["feedY"])] ["feedY"])])).
Proof.
  split.
  - apply (proj1 (@C3_registry_hit_verdict
                    [("foo", mkInfo (JStr "1.0.0") "/a/foo");
                     ("bar", mkInfo (JStr "2.0.0") "/b/bar");
                     ("baz", mkInfo (JStr "3.0.0") "/c/baz")]
                    [(KStr "foo", mkEntry [(KStr "1.0.0", ["feedX"])] ["feedX"]);
                     (KStr "bar", mkEntry [(KStr "1.0.0", ["feedY"])] ["feedY"])]
                    "foo" (mkInfo (JStr "1.0.0") "/a/foo")
                    (mkEntry [(KStr "1.0.0", ["feedX"])] ["feedX"])
                    (or_introl eq_refl) eq_refl)).
    reflexivity.
  - apply (proj2 (@C3_registry_hit_verdict
                    [("foo", mkInfo (JStr "1.0.0") "/a/foo");
                     ("bar", mkInfo (JStr "2.0.0") "/b/bar");
                     ("baz", mkInfo (JStr "3.0.0") "/c/baz")]
                    [(KStr "foo", mkEntry [(KStr "1.0.0", ["feedX"])] ["feedX"]);
                     (KStr "bar", mkEntry [(KStr "1.0.0", ["feedY"])] ["feedY"])]
                    "bar" (mkInfo (JStr "2.0.0") "/b/bar")
                    (mkEntry [(KStr "1.0.0", ["feedY"])] ["feedY"])
                    (or_intror (or_introl eq_refl)) eq_refl)).
    reflexivity.
Defined.

(* ================================================================== *)
(** * The installation enumerator *)

Lemma visitPackage_known rec name p pkgEntries (scanned : scannedMap) :
  JSMap.has name scanned = true ->
  visitPackage rec name p pkgEntries scanned = scanned.
Proof.
  intros Hk. unfold visitPackage. rewrite Hk.
  now rewrite andb_false_r.
Qed.


(** C1, as stated, fails: on the tree holding [foo] 1.0.0 and, nested
    inside it, [foo] 0.9.0 the enumerator returns a single record, so
    no two records with distinct install paths exist. *)
Lemma C1_counterexample :
  let found := getAllInstalledPackages (Some nestedFoo) "root/node_modules" [] in
  found = [("foo", mkInfo (JStr "1.0.0") "root/node_modules/foo")]
  /\ ~ (exists r1 r2, In r1 found /\ In r2 found
                      /\ path (snd r1) <> path (snd r2)).
Proof.
  split; [reflexivity|].
  intros (r1 & r2 & [<- | []] & [<- | []] & Hne). now apply Hne.
Qed.

(** C1, amended. The enumerator records one InstalledPackage per
    distinct package name, keyed by the name: no two records of the
    returned map share a name, and two records found under one name are
    the same record.  On the tree holding [foo] 1.0.0 and, nested inside
    it, [foo] 0.9.0 it yields the single record of the outer copy. *)
Theorem C1_one_record_per_name (target : option node) (nodeModulesPath : string) :
  let found := getAllInstalledPackages target nodeModulesPath [] in
  NoDup (JSMap.keys found)
  /\ (forall name i1 i2, In (name, i1) found -> In (name, i2) found -> i1 = i2)
  /\ getAllInstalledPackages (Some nestedFoo) "root/node_modules" []
     = [("foo", mkInfo (JStr "1.0.0") "root/node_modules/foo")].
Proof.
  assert (NoDup (JSMap.keys (getAllInstalledPackages target nodeModulesPath [])))
    as Hnd.
  { apply (getAllInstalledPackages_invariant (fun m => NoDup (JSMap.keys m))).
    - apply walk_distinct_names.
    - constructor. }
  split; [exact Hnd | split; [| reflexivity]].
  intros name i1 i2 H1 H2.
  apply (map_In_get _ _ _ Hnd) in H1. apply (map_In_get _ _ _ Hnd) in H2.
  congruence.
Qed.

Lemma C1_witness :
  mkInfo (JStr "1.0.0") "root/node_modules/foo"
  = mkInfo (JStr "1.0.0") "root/node_modules/foo".
Proof.
  apply (proj1 (proj2 (C1_one_record_per_name (Some nestedFoo) "root/node_modules"))
           "foo").
  - left. reflexivity.
  - left. reflexivity.
Defined.

Lemma scanEntries_app rec p pre post : forall m,
  scopesListable pre = true ->
  scanEntries rec p (pre ++ post) m = scanEntries rec p post (scanEntries rec p pre m).
Proof.
  induction pre as [| [n c] pre IH]; intros m Hl; simpl; [reflexivity|].
  simpl in Hl. apply andb_true_iff in Hl as [Hc Hl].
  destruct c as [? | l sub]; [now apply IH|].
  destruct (startsWith "@" n).
  - destruct l; [now apply IH | discriminate].
  - now apply IH.
Qed.

Lemma visitPackage_records name p pkgEntries manifest v (scanned : scannedMap) :
  JSMap.has name scanned = false ->
  child "package.json" pkgEntries = Some (File (Some manifest)) ->
  prop manifest "version" = Ok v ->
  JSMap.get name (visitPackage readNodeModules name p pkgEntries scanned)
  = Some (mkInfo v p).
Proof.
  intros Hfresh Hm Hv. unfold visitPackage. rewrite Hm, Hfresh. simpl.
  rewrite Hv. simpl. rewrite withChild_child.
  destruct (child "node_modules" pkgEntries) as [nested|].
  - apply (readNodeModules_invariant
             (fun m => forall k i, JSMap.get k (JSMap.set name (mkInfo v p) scanned) = Some i
                                   -> JSMap.get k m = Some i)).
    + apply walk_keeps_records.
    + auto.
    + apply map_get_set_eq.
  - apply map_get_set_eq.
Qed.

(** C9, as stated, fails: a package whose manifest is the JSON object
    [{"name": "foo"}] (it parses, and has no version) is not excluded;
    it is recorded with the version [undefined]. *)
Lemma C9_counterexample :
  let found := getAllInstalledPackages (Some versionlessFoo) "root/node_modules" [] in
  resolve versionlessFoo "foo"
  = Some (Dir true [("package.json", File (Some (JObj 0 [("name", JStr "foo")])))])
  /\ field "version" [("name", JStr "foo")] = None
  /\ JSMap.has "foo" found = true
  /\ found = [("foo", mkInfo JUndefined "root/node_modules/foo");
              ("bar", mkInfo (JStr "2.0.0") "root/node_modules/bar")].
Proof. repeat split. Qed.

(** C9, amended. A package directory whose manifest parses to an
    object without a [version] field is kept in the installed-package
    set: unless its name is already recorded it is recorded with the
    version [undefined] at its install path; and the walk goes on with
    the entries listed after it.  The last part states the first for
    the body shared by the two loops, hence for scoped packages too. *)
Theorem C9_versionless_package_recorded (nodeModulesPath : string)
  (pre post : list (string * node)) (name : string) (listable : bool)
  (pkgEntries : list (string * node)) (ref : nat)
  (fields : list (string * jsval)) (scanned : scannedMap) :
  scopesListable pre = true ->
  startsWith "@" name = false ->
  child "package.json" pkgEntries = Some (File (Some (JObj ref fields))) ->
  field "version" fields = None ->
  let before := scanEntries readNodeModules nodeModulesPath pre scanned in
  let after :=
    visitPackage readNodeModules name (join nodeModulesPath name) pkgEntries before in
  let found :=
    getAllInstalledPackages
      (Some (Dir true (pre ++ (name, Dir listable pkgEntries) :: post)))
      nodeModulesPath scanned in
  found = scanEntries readNodeModules nodeModulesPath post after
  /\ JSMap.has name found = true
  /\ (JSMap.has name before = false ->
      JSMap.get name found = Some (mkInfo JUndefined (join nodeModulesPath name)))
  /\ (forall packageName packagePath (scanned' : scannedMap),
        JSMap.has packageName scanned' = false ->
        JSMap.get packageName
          (visitPackage readNodeModules packageName packagePath pkgEntries scanned')
        = Some (mkInfo JUndefined packagePath)).
Proof.
  intros Hpre Hname Hmanifest Hversion before after found.
  assert (found = scanEntries readNodeModules nodeModulesPath post after) as Hfound.
  { unfold found. simpl. rewrite scanEntries_app by assumption.
    simpl. now rewrite Hname. }
  assert (prop (JObj ref fields) "version" = Ok JUndefined) as Hprop.
  { simpl. now rewrite Hversion. }
  assert (forall i, JSMap.get name after = Some i -> JSMap.get name found = Some i)
    as Hkeep.
  { intros i Hi. rewrite Hfound.
    apply (scanEntries_invariant'
             (fun m => forall k v, JSMap.get k after = Some v -> JSMap.get k m = Some v));
      [apply walk_keeps_records | auto | exact Hi]. }
  assert (JSMap.has name before = false ->
          JSMap.get name after = Some (mkInfo JUndefined (join nodeModulesPath name)))
    as Hrec.
  { intros Hfresh. unfold after.
    now apply visitPackage_records with (manifest := JObj ref fields). }
  split; [exact Hfound | split; [| split]].
  - destruct (JSMap.has name before) eqn:E.
    + apply map_has_get in E as [i Hi]. apply map_has_get. exists i.
      apply Hkeep. unfold after. rewrite visitPackage_known; [exact Hi|].
      apply map_has_get. eauto.
    + apply map_has_get. eexists. apply Hkeep. now apply Hrec.
  - intros Hfresh. apply Hkeep. now apply Hrec.
  - intros packageName packagePath scanned' Hfresh.
    now apply visitPackage_records with (manifest := JObj ref fields).
Qed.

Lemma C9_witness :
  JSMap.get "foo"
    (getAllInstalledPackages (Some versionlessFoo) "root/node_modules" [])
  = Some (mkInfo JUndefined "root/node_modules/foo").
Proof.
  apply (proj1 (proj2 (proj2
           (@C9_versionless_package_recorded "root/node_modules" []
              [("bar", Dir true [("package.json", manifestOf "bar" "2.0.0")])]
              "foo" true
              [("package.json", File (Some (JObj 0 [("name", JStr "foo")])))]
              0 [("name", JStr "foo")] []
              eq_refl eq_refl eq_refl eq_refl)))).
  reflexivity.
Defined.

(* ================================================================== *)
(** * The registry merger *)

(** C4. The merge is independent of order: folding the merge step of
    [fetchAllCompromisedPackages] over two sequences of partial
    registries that are permutations of each other yields registries
    with the same identifiers, the same version maps and the same
    source sets (the insertion order inside the maps and sets is the
    only thing that may differ); so does [fetchAllCompromisedPackages]
    on two permutations of its sources.  Two partial registries that
    report one package version from two different feeds merge into one
    entry whose version carries both sources. *)
Theorem C4_merge_order_independent (ps1 ps2 : list registry)
  (feeds1 feeds2 : list (string * fetched))
  (name version : key) (feedA feedB : string) :
  Permutation ps1 ps2 ->
  Permutation feeds1 feeds2 ->
  feedA <> feedB ->
  sameRegistry (fold_left mergeInto ps1 []) (fold_left mergeInto ps2 [])
  /\ sameRegistry (fetchAllCompromisedPackages feeds1)
                  (fetchAllCompromisedPackages feeds2)
  /\ fold_left mergeInto
       [[(name, mkEntry [(version, [feedA])] [feedA])];
        [(name, mkEntry [(version, [feedB])] [feedB])]] []
     = [(name, mkEntry [(version, [feedA; feedB])] [feedA; feedB])].
Proof.
  intros Hperm Hfeeds Hdiff. split; [| split].
  - now apply merge_permutation.
  - unfold fetchAllCompromisedPackages. rewrite !fetchAll_merges.
    apply merge_permutation. now apply Permutation_flat_map.
  - assert (keqb feedB feedA = false) as Hne by (apply keqb_neq; congruence).
    repeat (progress (unfold JSMap.has, JSSet.add, JSSet.has; cbn -[keqb];
                      rewrite ?keqb_refl, ?Hne)).
    reflexivity.
Qed.

Lemma C4_witness :
  sameRegistry
    (fold_left mergeInto
       [[(KStr "pkgA", mkEntry [(KStr "1.0.0", ["feedA"])] ["feedA"])];
        [(KStr "pkgB", mkEntry [(KStr "2.0.0", ["feedB"])] ["feedB"])]] [])
    (fold_left mergeInto
       [[(KStr "pkgB", mkEntry [(KStr "2.0.0", ["feedB"])] ["feedB"])];
        [(KStr "pkgA", mkEntry [(KStr "1.0.0", ["feedA"])] ["feedA"])]] [])
  /\ sameRegistry
       (fetchAllCompromisedPackages
          [("feedA", Parsed (JStr "pkgA@1.0.0")); ("feedB", Parsed (JStr "pkgA | 1.0.0"))])
       (fetchAllCompromisedPackages
          [("feedB", Parsed (JStr "pkgA | 1.0.0")); ("feedA", Parsed (JStr "pkgA@1.0.0"))])
  /\ fold_left mergeInto
       [[(KStr "pkgA", mkEntry [(KStr "1.0.0", ["feedA"])] ["feedA"])];
        [(KStr "pkgA", mkEntry [(KStr "1.0.0", ["feedB"])] ["feedB"])]] []
     = [(KStr "pkgA", mkEntry [(KStr "1.0.0", ["feedA"; "feedB"])] ["feedA"; "feedB"])].
Proof.
  apply (@C4_merge_order_independent
           [[(KStr "pkgA", mkEntry [(KStr "1.0.0", ["feedA"])] ["feedA"])];
            [(KStr "pkgB", mkEntry [(KStr "2.0.0", ["feedB"])] ["feedB"])]]
           [[(KStr "pkgB", mkEntry [(KStr "2.0.0", ["feedB"])] ["feedB"])];
            [(KStr "pkgA", mkEntry [(KStr "1.0.0", ["feedA"])] ["feedA"])]]
           [("feedA", Parsed (JStr "pkgA@1.0.0")); ("feedB", Parsed (JStr "pkgA | 1.0.0"))]
           [("feedB", Parsed (JStr "pkgA | 1.0.0")); ("feedA", Parsed (JStr "pkgA@1.0.0"))]
           (KStr "pkgA") (KStr "1.0.0") "feedA" "feedB").
  - apply perm_swap.
  - apply perm_swap.
  - discriminate.
Defined.

(* ================================================================== *)
(** * Feeds that contribute nothing *)

Lemma parse_unrecognized doc src :
  recognizedShape doc = false ->
  parseCompromisedList doc src = Ok [] \/ parseCompromisedList doc src = Throw.
Proof.
  intros Hshape.
  destruct doc as [| | b | n | s | r items | r fields]; simpl in *;
    try discriminate; auto.
  destruct (field "packages" fields) as [[]|]; simpl in *;
    try discriminate; auto.
  - destruct b; auto.
  - destruct (negb (n =? 0)%Z); auto.
  - destruct (negb (s =? "")%string); auto.
Qed.

(** *** Text without any separator has no row *)


Lemma allChars_split p sep s :
  allChars p s = true -> forall line, In line (split sep s) -> allChars p line = true.
Proof.
  induction s as [| c s IH]; simpl; intros Hs line Hin.
  - destruct Hin as [<- | []]. reflexivity.
  - apply andb_true_iff in Hs as [Hc Hs]. specialize (IH Hs).
    destruct (Ascii.eqb c sep).
    + destruct Hin as [<- | Hin]; [reflexivity | now apply IH].
    + destruct (split sep s) as [| h t] eqn:E.
      * destruct Hin as [<- | []]. simpl. now rewrite Hc.
      * destruct Hin as [<- | Hin].
        -- simpl. rewrite Hc. apply IH. now left.
        -- apply IH. now right.
Qed.

Lemma allChars_trimStart p s : allChars p s = true -> allChars p (trimStart s) = true.
Proof.
  induction s as [| c s IH]; simpl; [trivial|]. intros Hs.
  destruct (isWhite c); [| exact Hs].
  apply andb_true_iff in Hs as [_ Hs]. now apply IH.
Qed.

Lemma allChars_trimEnd p s : allChars p s = true -> allChars p (trimEnd s) = true.
Proof.
  induction s as [| c s IH]; simpl; [trivial|]. intros Hs.
  apply andb_true_iff in Hs as [Hc Hs]. specialize (IH Hs).
  destruct (trimEnd s).
  - destruct (isWhite c); simpl; [reflexivity | now rewrite Hc].
  - simpl in *. now rewrite Hc, IH.
Qed.

Lemma plain_no_pipe s : allChars plainChar s = true -> includes "|" s = false.
Proof.
  induction s as [| c s IH]; simpl; [trivial|]. intros Hs.
  apply andb_true_iff in Hs as [Hc Hs]. unfold plainChar in Hc.
  apply andb_true_iff in Hc as [_ Hc]. apply negb_true_iff in Hc.
  rewrite Hc. now apply IH.
Qed.

Lemma plain_no_separator s : allChars plainChar s = true -> breakAtSeparator s = None.
Proof.
  induction s as [| c s IH]; simpl; [trivial|]. intros Hs.
  apply andb_true_iff in Hs as [Hc Hs]. unfold plainChar in Hc.
  apply andb_true_iff in Hc as [Hc _]. apply negb_true_iff in Hc.
  rewrite Hc. now rewrite IH.
Qed.

(** A text in which [:], [@] and the pipe do not occur has no line
    that stands for a record. *)
Lemma plain_text_rowless text line :
  allChars plainChar text = true -> In line (split "010" text) -> lineRecord line = None.
Proof.
  intros Hplain Hin.
  assert (allChars plainChar (trim line) = true) as Ht.
  { apply allChars_trimEnd, allChars_trimStart.
    now apply (allChars_split _ "010" _ Hplain). }
  unfold lineRecord.
  destruct (negb (nonEmpty (trim line)) || _ || _); [reflexivity|].
  rewrite (plain_no_pipe _ Ht). unfold matchLine.
  now rewrite (plain_no_separator _ Ht).
Qed.

(* ================================================================== *)
(** * Text feeds, line by line *)

Lemma lineRecord_spec line name version :
  lineRecord line = Some (name, version) <->
  dataLine (trim line)
  /\ (tableRow (trim line) name version \/ patternRow (trim line) name version).
Proof.
  unfold lineRecord, dataLine, tableRow, patternRow.
  set (t := trim line).
  destruct (nonEmpty t) eqn:Ht; simpl.
  2:{ apply nonEmpty_false in Ht. split; [discriminate | tauto]. }
  apply nonEmpty_true in Ht.
  destruct (startsWith "#" t); simpl.
  1:{ split; [discriminate | intros [(_ & ? & _) _]; discriminate]. }
  destruct (startsWith "|" t); simpl.
  1:{ split; [discriminate | intros [(_ & _ & ?) _]; discriminate]. }
  destruct (includes "|" t).
  - destruct (filter nonEmpty (map trim (split "|" t))) as [| c1 [| c2 rest]] eqn:E.
    + split; [discriminate|].
      intros [_ [(_ & ? & ? & _) | (? & _)]]; discriminate.
    + split; [discriminate|].
      intros [_ [(_ & ? & ? & _) | (? & _)]]; discriminate.
    + destruct (String.eqb_spec c1 "Package") as [-> | N1]; simpl.
      * split; [discriminate|].
        intros [_ [(_ & ? & [= <- <- <-] & ? & _) | (? & _)]];
          [congruence | discriminate].
      * destruct (String.eqb_spec c2 "Version") as [-> | N2]; simpl.
        -- split; [discriminate|].
           intros [_ [(_ & ? & [= <- <- <-] & _ & ?) | (? & _)]];
             [congruence | discriminate].
        -- split.
           ++ intros [= <- <-]. repeat split; auto. left. split; [reflexivity|].
              exists rest. auto.
           ++ intros [_ [(_ & ? & [= <- <- <-] & _) | (? & _)]];
                [reflexivity | discriminate].
  - split.
    + destruct (matchLine t) as [[n v]|] eqn:E; [| discriminate].
      intros [= <- <-]. repeat split; auto. right. split; [reflexivity|].
      exists n, v. auto.
    + intros [_ [(? & _) | (_ & n & v & -> & -> & ->)]];
        [discriminate | reflexivity].
Qed.

(** C6, as stated, fails: the markdown row [| foo | 1.0.0 |] is not
    blank, is not a comment, contains pipes, its non-empty trimmed
    cells are [foo] and [1.0.0] and the first is not [Package]; yet the
    reader skips it, as it skips every line that starts with a pipe.
    So does it skip [foo | Version], whose first cell is not
    [Package]. *)
Lemma C6_counterexample :
  let line := "| foo | 1.0.0 |" in
  trim line <> ""
  /\ startsWith "#" (trim line) = false
  /\ includes "|" (trim line) = true
  /\ filter nonEmpty (map trim (split "|" (trim line))) = ["foo"; "1.0.0"]
  /\ "foo" <> "Package"
  /\ parseCompromisedList (JStr line) "Tenable (MD)" = Ok []
  /\ parseCompromisedList (JStr "foo | Version") "Tenable (MD)" = Ok [].
Proof. repeat split; discriminate. Qed.

(** C6, amended. In a text feed the registry reports [version] for
    [name] exactly when some line, once trimmed, is not blank, starts
    neither with [#] nor with a pipe, and either contains a pipe and,
    split on pipes with each cell trimmed and the empty cells dropped,
    has [name] and [version] as its first two cells, [name] not being
    [Package] and [version] not being [Version]; or contains no pipe
    and matches the name, separator ([:] or [@]), version pattern,
    [name] and [version] being the two groups, trimmed. *)
Theorem C6_text_feed_rows (text sourceName : string) :
  exists reg,
    parseCompromisedList (JStr text) sourceName = Ok reg
    /\ forall name version,
         says reg (KStr name) (FReport (KStr version) sourceName) <->
         exists line,
           In line (split "010" text)
           /\ dataLine (trim line)
           /\ (tableRow (trim line) name version
               \/ patternRow (trim line) name version).
Proof.
  eexists. split; [reflexivity|]. intros name version.
  rewrite says_parseLines. split.
  - intros [Hs | (line & n & v & Hin & Hr & [= ->] & [= ->] & _)].
    + now apply says_empty in Hs.
    + exists line. split; [assumption|]. now apply lineRecord_spec.
  - intros (line & Hin & Hd & Hrow). right. exists line, name, version.
    repeat split; try assumption. apply lineRecord_spec. auto.
Qed.

(* ================================================================== *)
(** * Feeds that contribute nothing, and feeds that should *)

(** C7, as stated, fails.  The body [error: bad gateway] is not JSON,
    so [JSON.parse] throws on it and [parsed] is the text itself; its
    one line matches the name, separator, version pattern, and the
    merged registry gets an entry [error] with the version
    [bad gateway].  So does a JSON body cut off after its first line:
    the entry is named by the quoted key up to the colon. *)
Lemma C7_counterexample :
  fetchAllCompromisedPackages [("Tenable (JSON)", Parsed (JStr "error: bad gateway"))]
  = [(KStr "error", mkEntry [(KStr "bad gateway", ["Tenable (JSON)"])] ["Tenable (JSON)"])]
  /\ fetchAllCompromisedPackages [("GenSec HQ", Parsed (JStr truncatedBody))]
     = [(KStr ("{" ++ String "034" "packages" ++ String "034" ""),
         mkEntry [(KStr "[", ["GenSec HQ"])] ["GenSec HQ"])].
Proof. split; reflexivity. Qed.

Lemma rowless_lines text :
  (forall line name version,
     In line (split "010" text) ->
     ~ (dataLine (trim line)
        /\ (tableRow (trim line) name version \/ patternRow (trim line) name version)))
  <-> forall line, In line (split "010" text) -> lineRecord line = None.
Proof.
  split.
  - intros Hno line Hin. destruct (lineRecord line) as [[n v]|] eqn:E; [| reflexivity].
    exfalso. apply (Hno line n v Hin). now apply lineRecord_spec.
  - intros Hnone line name version Hin Hrow. apply lineRecord_spec in Hrow.
    rewrite (Hnone line Hin) in Hrow. discriminate.
Qed.

(** C7, amended. A document of none of the recognised shapes ([null]
    included) is parsed to the empty registry or makes the parser
    throw.  A text document, which is what a body that fails
    [JSON.parse] is read as, is parsed to the empty registry exactly
    when none of its lines is a row (a line that, once trimmed, is not
    blank, starts neither with [#] nor with a pipe, and is a table row
    or matches the name, separator, version pattern); so it is for
    empty text and for any text in which [:], [@] and the pipe do not
    occur; and a text that has a row does contribute an entry under
    the name of that row.  Whenever parsing yields the empty registry
    or throws, the merged registry is left as it was and the
    remaining feeds are processed as if the feed had not been
    there. *)
Theorem C7_feed_without_rows_contributes_nothing (sourceName : string) :
  (forall doc,
     recognizedShape doc = false ->
     parseCompromisedList doc sourceName = Ok []
     \/ parseCompromisedList doc sourceName = Throw)
  /\ (forall text,
        parseCompromisedList (JStr text) sourceName = Ok [] <->
        forall line name version,
          In line (split "010" text) ->
          ~ (dataLine (trim line)
             /\ (tableRow (trim line) name version
                 \/ patternRow (trim line) name version)))
  /\ (forall text,
        allChars plainChar text = true ->
        parseCompromisedList (JStr text) sourceName = Ok [])
  /\ (forall text line name version allCompromised,
        In line (split "010" text) ->
        dataLine (trim line) ->
        tableRow (trim line) name version \/ patternRow (trim line) name version ->
        knows (fetchStep allCompromised (sourceName, Parsed (JStr text))) (KStr name))
  /\ (forall doc pre post,
        parseCompromisedList doc sourceName = Ok []
        \/ parseCompromisedList doc sourceName = Throw ->
        (forall allCompromised,
           fetchStep allCompromised (sourceName, Parsed doc) = allCompromised)
        /\ fetchAllCompromisedPackages (pre ++ (sourceName, Parsed doc) :: post)
           = fetchAllCompromisedPackages (pre ++ post)).
Proof.
  split; [intros doc; apply parse_unrecognized|].
  split; [| split; [| split]].
  - intros text. rewrite rowless_lines. simpl. split.
    + intros [= Hreg] line Hin.
      destruct (lineRecord line) as [[n v]|] eqn:E; [| reflexivity].
      exfalso. apply (@knows_empty (KStr n)). rewrite <- Hreg.
      apply knows_parseLines. right. exists line, n, v. auto.
    + intros Hnone. now rewrite parseLines_barren.
  - intros text Hplain. simpl. rewrite parseLines_barren; [reflexivity|].
    intros line Hin. now apply plain_text_rowless with (text := text).
  - intros text line name version allCompromised Hin Hd Hrow.
    unfold fetchStep. cbn [snd fst parseCompromisedList].
    apply knows_mergeInto. right.
    assert (knows (fold_left (parseLine sourceName) (split "010" text) []) (KStr name))
      as Hk.
    { apply knows_parseLines. right. exists line, name, version.
      repeat split; try assumption. apply lineRecord_spec. auto. }
    apply map_has_get in Hk as [e He]. exists e. now apply map_get_In.
  - intros doc pre post Hp.
    assert (forall allCompromised,
              fetchStep allCompromised (sourceName, Parsed doc) = allCompromised)
      as Hstep.
    { intros allCompromised. unfold fetchStep. cbn [snd fst].
      destruct Hp as [-> | ->]; reflexivity. }
    split; [exact Hstep|].
    unfold fetchAllCompromisedPackages. rewrite !fold_left_app. simpl.
    now rewrite Hstep.
Qed.

Lemma C7_witness :
  fetchAllCompromisedPackages
    [("GenSec HQ", Parsed (JStr "acme@1.0.0"));
     ("Tenable (JSON)", Parsed JNull);
     ("Cobenian", Parsed (JStr "acme@1.0.1"))]
  = fetchAllCompromisedPackages
      [("GenSec HQ", Parsed (JStr "acme@1.0.0"));
       ("Cobenian", Parsed (JStr "acme@1.0.1"))]
  /\ fetchAllCompromisedPackages
       [("GenSec HQ", Parsed (JStr "<html>Service unavailable</html>"));
        ("Cobenian", Parsed (JStr "acme@1.0.1"))]
     = fetchAllCompromisedPackages [("Cobenian", Parsed (JStr "acme@1.0.1"))].
Proof.
  split.
  - apply (proj2
             (proj2 (proj2 (proj2 (proj2
                (C7_feed_without_rows_contributes_nothing "Tenable (JSON)"))))
                JNull
                [("GenSec HQ", Parsed (JStr "acme@1.0.0"))]
                [("Cobenian", Parsed (JStr "acme@1.0.1"))]
                (proj1 (C7_feed_without_rows_contributes_nothing "Tenable (JSON)")
                   JNull eq_refl))).
  - apply (proj2
             (proj2 (proj2 (proj2 (proj2
                (C7_feed_without_rows_contributes_nothing "GenSec HQ"))))
                (JStr "<html>Service unavailable</html>")
                []
                [("Cobenian", Parsed (JStr "acme@1.0.1"))]
                (or_introl
                   (proj1 (proj2 (proj2 (C7_feed_without_rows_contributes_nothing
                                           "GenSec HQ")))
                      "<html>Service unavailable</html>" eq_refl)))).
Defined.

(* ================================================================== *)
(** * Records without a version or without a name *)

Lemma forEach_parseRecord_fields first second src items : forall reg reg' pkg,
  forEach (parseRecord first second src) items reg = Ok reg' ->
  In pkg items ->
  exists name version, recordFields first second pkg = Ok (name, version).
Proof.
  induction items as [| p items IH]; intros reg reg' pkg Hrun Hin; [destruct Hin|].
  simpl in Hrun. rewrite parseRecord_recordFields in Hrun.
  destruct (recordFields first second p) as [[name version]|] eqn:E;
    simpl in Hrun; [| discriminate].
  destruct Hin as [<- | Hin]; [eauto | eapply IH; eassumption].
Qed.

Lemma parseRecords_keep_all first second src items reg pkg :
  forEach (parseRecord first second src) items [] = Ok reg ->
  In pkg items ->
  exists name version,
    recordFields first second pkg = Ok (name, version)
    /\ says reg (toKey name) (FReport (toKey version) src).
Proof.
  intros Hrun Hin.
  destruct (forEach_parseRecord_fields _ _ _ _ _ _ Hrun Hin) as (name & version & Hf).
  exists name, version. split; [assumption|].
  apply (says_parseRecords _ _ _ _ _ (toKey name) (FReport (toKey version) src) Hrun).
  right. exists pkg, name, version. simpl. auto.
Qed.

Lemma forEach_throws {A S : Type} (f : S -> A -> outcome S) pre x post :
  (forall s, f s x = Throw) ->
  forall s, forEach f (pre ++ x :: post) s = Throw.
Proof.
  intros Hx. induction pre as [| y pre IH]; intros s; simpl.
  - now rewrite Hx.
  - destruct (f s y); simpl; [apply IH | reflexivity].
Qed.

Lemma parseRecord_throws first second src reg x :
  isObjectCoercible x = false -> parseRecord first second src reg x = Throw.
Proof. destruct x; simpl; try discriminate; reflexivity. Qed.

Lemma forallb_coercible items :
  forallb isObjectCoercible items = false <->
  exists x, In x items /\ isObjectCoercible x = false.
Proof.
  induction items as [| y items IH]; simpl.
  - split; [discriminate | intros (? & [] & _)].
  - rewrite andb_false_iff, IH. split.
    + intros [Hy | (x & Hx & Hc)]; eauto.
    + intros (x & [-> | Hx] & Hc); eauto.
Qed.

Lemma parseRecords_throw first second src items :
  forEach (parseRecord first second src) items [] = Throw <->
  exists x, In x items /\ isObjectCoercible x = false.
Proof.
  split.
  - intros Hrun. apply forallb_coercible.
    destruct (forallb isObjectCoercible items) eqn:E; [| reflexivity].
    destruct (@forEach_parseRecord_total first second src items [] E) as [reg Hreg].
    congruence.
  - intros (x & Hin & Hc). apply in_split in Hin as (pre & post & ->).
    apply forEach_throws. intros s. now apply parseRecord_throws.
Qed.

(** C8, as stated, fails on structured feeds: the record
    [{"package": "x"}], which has no version, is not dropped but filed
    under the version [undefined]; the record
    [{"name": "", "version": "1"}] is filed under the empty name.  The
    older reader files the former under the key [x@undefined]. *)
Lemma C8_counterexample :
  parseCompromisedList (JArr 0 [JObj 1 [("package", JStr "x")]]) "Tenable (JSON)"
  = Ok [(KStr "x", mkEntry [(KUndefined, ["Tenable (JSON)"])] ["Tenable (JSON)"])]
  /\ parseCompromisedList
       (JArr 0 [JObj 1 [("name", JStr ""); ("version", JStr "1")]]) "Tenable (JSON)"
     = Ok [(KStr "", mkEntry [(KStr "1", ["Tenable (JSON)"])] ["Tenable (JSON)"])]
  /\ CheckPackages.parseCompromisedList (JArr 0 [JObj 1 [("package", JStr "x")]])
     = Ok [("x@undefined",
            CheckPackages.mk (JStr "x") JUndefined (JStr "critical") (JStr "tenable"))].
Proof. repeat split. Qed.

(** C8, amended. In a text feed every record kept has a non-empty
    name and a non-empty version: a line that lacks either yields no
    record.  A structured feed (an array of records, or an object
    whose [packages] is one) is read without an exception when its
    array holds neither [null] nor [undefined], and throws, filing
    nothing, when it holds one.  Whenever it is read without an
    exception no record is dropped: every record of the array is filed
    under the key of its name field ([package || name], resp.
    [name || package]) and the key of its [version] field, whatever
    they are, [undefined] included. *)
Theorem C8_which_records_are_kept (sourceName : string) :
  (forall text,
     exists reg,
       parseCompromisedList (JStr text) sourceName = Ok reg
       /\ (forall k, knows reg k -> exists n, k = KStr n /\ n <> "")
       /\ (forall k v, says reg k (FVersion v) -> exists s, v = KStr s /\ s <> ""))
  /\ (forall ref items,
        forallb isObjectCoercible items = true ->
        exists reg, parseCompromisedList (JArr ref items) sourceName = Ok reg)
  /\ (forall ref fields ref' items,
        field "packages" fields = Some (JArr ref' items) ->
        forallb isObjectCoercible items = true ->
        exists reg, parseCompromisedList (JObj ref fields) sourceName = Ok reg)
  /\ (forall ref items reg pkg,
        parseCompromisedList (JArr ref items) sourceName = Ok reg ->
        In pkg items ->
        exists name version,
          recordFields "package" "name" pkg = Ok (name, version)
          /\ says reg (toKey name) (FReport (toKey version) sourceName))
  /\ (forall ref fields ref' items reg pkg,
        field "packages" fields = Some (JArr ref' items) ->
        parseCompromisedList (JObj ref fields) sourceName = Ok reg ->
        In pkg items ->
        exists name version,
          recordFields "name" "package" pkg = Ok (name, version)
          /\ says reg (toKey name) (FReport (toKey version) sourceName))
  /\ (forall ref items,
        forallb isObjectCoercible items = false ->
        parseCompromisedList (JArr ref items) sourceName = Throw)
  /\ (forall ref fields ref' items,
        field "packages" fields = Some (JArr ref' items) ->
        forallb isObjectCoercible items = false ->
        parseCompromisedList (JObj ref fields) sourceName = Throw).
Proof.
  split; [| split; [| split; [| split; [| split; [| split]]]]].
  - intros text. eexists. split; [reflexivity | split].
    + intros k Hk. apply knows_parseLines in Hk as [Hk | (line & n & v & _ & Hr & ->)].
      * now apply knows_empty in Hk.
      * apply lineRecord_nonEmpty in Hr as [Hn _]. eauto.
    + intros k v Hs.
      apply says_parseLines in Hs as [Hs | (line & n & s & _ & Hr & _ & Hg)].
      * now apply says_empty in Hs.
      * simpl in Hg. apply lineRecord_nonEmpty in Hr as [_ Hv]. eauto.
  - intros ref items Hall. simpl. now apply forEach_parseRecord_total.
  - intros ref fields ref' items Hp Hall. simpl. rewrite Hp. simpl.
    now apply forEach_parseRecord_total.
  - intros ref items reg pkg Hrun Hin. simpl in Hrun.
    now apply parseRecords_keep_all with (items := items).
  - intros ref fields ref' items reg pkg Hp Hrun Hin.
    simpl in Hrun. rewrite Hp in Hrun. simpl in Hrun.
    now apply parseRecords_keep_all with (items := items).
  - intros ref items Hbad. simpl.
    apply parseRecords_throw. now apply forallb_coercible.
  - intros ref fields ref' items Hp Hbad. simpl. rewrite Hp. simpl.
    apply parseRecords_throw. now apply forallb_coercible.
Qed.

Lemma C8_witness :
  exists name version,
    recordFields "package" "name" (JObj 1 [("package", JStr "x")]) = Ok (name, version)
    /\ says [(KStr "x", mkEntry [(KUndefined, ["Tenable (JSON)"])] ["Tenable (JSON)"])]
         (toKey name) (FReport (toKey version) "Tenable (JSON)").
Proof.
  apply (proj1 (proj2 (proj2 (proj2 (C8_which_records_are_kept "Tenable (JSON)"))))
           0 [JObj 1 [("package", JStr "x")]]
           [(KStr "x", mkEntry [(KUndefined, ["Tenable (JSON)"])] ["Tenable (JSON)"])]
           (JObj 1 [("package", JStr "x")])
           eq_refl (or_introl eq_refl)).
Defined.

(* ================================================================== *)
(** * Combined identifiers *)

Lemma matchLine_scoped rest : matchLine (String "@" rest) = None.
Proof. reflexivity. Qed.

(** What the pattern does on an unscoped identifier. *)
Lemma matchLine_unscoped name version :
  name <> "" -> allChars (fun c => negb (isSeparator c)) name = true ->
  version <> "" -> allChars (fun c => negb (isLineTerminator c)) version = true ->
  matchLine (name ++ "@" ++ version)%string = Some (name, version).
Proof.
  intros Hn0 Hn Hv0 Hv. apply matchLine_regex. exists "@"%char.
  repeat split; assumption || reflexivity.
Qed.

(** C5 on the code: the scoped identifier [@scope/name@1.0.0].  The
    line pattern matches no line that starts with [@], so the text
    reader files nothing for it; the older reader, which splits on
    every [@], files it under the empty name with [scope/name] as its
    version.  Neither yields the namespace [@scope], the name [name]
    and the version [1.0.0].  On an unscoped [name@version] the pattern
    does cut at the [@]. *)
Theorem C5_scoped_identifier_lost :
  (forall rest, matchLine (String "@" rest) = None)
  /\ parseCompromisedList (JStr "@scope/name@1.0.0") "Cobenian" = Ok []
  /\ CheckPackages.parseCompromisedList
       (JObj 0 [("compromisedPackages", JArr 1 [JStr "@scope/name@1.0.0"])])
     = Ok [("@scope/name@1.0.0",
            CheckPackages.mk (JStr "") (JStr "scope/name") (JStr "high") (JStr "list"))]
  /\ (forall name version,
        name <> "" -> allChars (fun c => negb (isSeparator c)) name = true ->
        version <> "" ->
        allChars (fun c => negb (isLineTerminator c)) version = true ->
        matchLine (name ++ "@" ++ version)%string = Some (name, version))
  /\ parseCompromisedList (JStr "name@1.0.0") "Cobenian"
     = Ok [(KStr "name", mkEntry [(KStr "1.0.0", ["Cobenian"])] ["Cobenian"])].
Proof.
  split; [exact matchLine_scoped|].
  split; [reflexivity|]. split; [reflexivity|].
  split; [exact matchLine_unscoped | reflexivity].
Qed.


(* ================================================================== *)
(** * [check-packages.js]: flattening the dependency tree *)

Lemma DeepJ_here Q v : DeepJ Q v -> Q v.
Proof. intros []; assumption. Qed.

Lemma DeepJ_intro (Q : jsval -> Prop) :
  (forall v, isArray v = false -> (forall r fs, v <> JObj r fs) -> Q v) ->
  (forall r items, Forall (DeepJ Q) items -> Q (JArr r items)) ->
  (forall r fields, Forall (fun f => DeepJ Q (snd f)) fields -> Q (JObj r fields)) ->
  forall v, DeepJ Q v.
Proof.
  intros HL HA HO.
  induction v as [| | b | n | s | r items IH | r fields IH] using jsval_induction;
    try (apply DeepJ_leaf; [reflexivity | discriminate | apply HL; [reflexivity | discriminate]]).
  - apply DeepJ_arr; [apply HA|]; assumption.
  - apply DeepJ_obj; [apply HO|]; assumption.
Qed.

Lemma withField_ind {A} (R : A -> Prop) name (k : jsval -> A) d fields
  (Q : jsval -> Prop) :
  Forall (fun f => Q (snd f)) fields ->
  R d -> (forall v, Q v -> R (k v)) -> R (withField name k d fields).
Proof.
  intros Hfs Hd Hk. induction Hfs as [| [n v] rest Hv _ IH]; simpl; [assumption|].
  destruct (String.eqb n name); [apply Hk; exact Hv | exact IH].
Qed.

Section FlattenInvariant.
(** Any property of the accumulator that survives the one [result.set]
    of the loop survives the whole flattening. *)
Variable P : installedMap -> Prop.
Hypothesis P_set : forall m name v vs p,
  truthy v = true -> CheckPackages.toString v = Ok vs -> P m ->
  P (JSMap.set (name ++ "@" ++ vs)%string
       (Installed.mk name v (jsOr p (JStr "unknown"))) m).

Lemma visitDependency_invariant name info m r :
  DeepJ (keptByFlatten P) info ->
  P m -> visitDependency flattenDependencies name info m = Ok r -> P r.
Proof.
  intros Hinfo Hm. unfold visitDependency.
  destruct (prop info "version") as [v|]; simpl; [| discriminate].
  assert (forall m1,
            (if truthy v
             then vs <- CheckPackages.toString v ;;
                  p <- prop info "path" ;;
                  Ok (JSMap.set (name ++ "@" ++ vs)%string
                        (Installed.mk name v (jsOr p (JStr "unknown"))) m)
             else Ok m) = Ok m1 -> P m1) as Hstep.
  { intros m1. destruct (truthy v) eqn:Tv; [| now intros [= <-]].
    destruct (CheckPackages.toString v) as [vs|] eqn:Sv; simpl; [| discriminate].
    destruct (prop info "path") as [p|]; simpl; [| discriminate].
    intros [= <-]. now apply P_set. }
  destruct (if truthy v then _ else _) as [m1|]; simpl; [| discriminate].
  specialize (Hstep m1 eq_refl).
  destruct info as [| | b | n | s | r0 items | r0 fields];
    try (now intros [= <-]).
  assert (Forall (fun f => DeepJ (keptByFlatten P) (snd f)) fields) as Hfields.
  { inversion Hinfo as [| ? ? _ Hfs | ? _ Ho _]; [assumption|].
    exfalso. eapply Ho. reflexivity. }
  apply withField_ind with (Q := DeepJ (keptByFlatten P)); [exact Hfields | |].
  - now intros [= <-].
  - intros d Hd. destruct (truthy d); [| now intros [= <-]].
    apply (DeepJ_here Hd). exact Hstep.
Qed.

Lemma flattenFields_invariant fields : forall m r,
  Forall (fun f => DeepJ (keptByFlatten P) (snd f)) fields ->
  P m -> flattenFields flattenDependencies fields m = Ok r -> P r.
Proof.
  induction fields as [| [name info] rest IH]; intros m r Hfs Hm; simpl.
  - now intros [= <-].
  - inversion Hfs as [| ? ? Hinfo Hrest]; subst. simpl in Hinfo.
    destruct (visitDependency flattenDependencies name info m) as [m1|] eqn:E;
      simpl; [| discriminate].
    apply IH; [assumption|]. eapply visitDependency_invariant; eassumption.
Qed.

Lemma flattenItems_invariant items : forall i m r,
  Forall (DeepJ (keptByFlatten P)) items ->
  P m -> flattenItems flattenDependencies items i m = Ok r -> P r.
Proof.
  induction items as [| info rest IH]; intros i m r His Hm; simpl.
  - now intros [= <-].
  - inversion His as [| ? ? Hinfo Hrest]; subst.
    destruct (visitDependency flattenDependencies (indexName i) info m) as [m1|] eqn:E;
      simpl; [| discriminate].
    apply IH; [assumption|]. eapply visitDependency_invariant; eassumption.
Qed.

Lemma flattenDependencies_deep : forall deps, DeepJ (keptByFlatten P) deps.
Proof.
  apply DeepJ_intro.
  - intros v Ha Ho m r Hm. destruct v; simpl; try (now intros [= <-]).
    + destruct (negb b); now intros [= <-].
    + destruct (negb (negb (n =? 0)%Z)); now intros [= <-].
    + destruct (negb (negb (s =? "")%string)); now intros [= <-].
    + discriminate.
    + exfalso. eapply Ho. reflexivity.
  - intros r0 items His m r Hm. simpl. now apply flattenItems_invariant.
  - intros r0 fields Hfs m r Hm. simpl. now apply flattenFields_invariant.
Qed.

Lemma flattenDependencies_invariant deps m r :
  P m -> flattenDependencies deps m = Ok r -> P r.
Proof. apply (DeepJ_here (flattenDependencies_deep deps)). Qed.
End FlattenInvariant.


Lemma truthy_jsOr_unknown p : truthy (jsOr p (JStr "unknown")) = true.
Proof. unfold jsOr. destruct (truthy p) eqn:E; [exact E | reflexivity]. Qed.

(** X1. [flattenDependencies] only records packages that have a
    version: when the records of the accumulator are well formed
    (truthy version, key spelled [name@version], truthy path) and the
    flattening returns, so are all records of the result, whatever the
    shape of the dependency tree; and every key of the accumulator is
    still a key of the result. *)
Theorem flatten_records_have_versions (deps : jsval) (result r : installedMap) :
  (forall key pkg, In (key, pkg) result -> flattened key pkg) ->
  flattenDependencies deps result = Ok r ->
  (forall key pkg, In (key, pkg) r -> flattened key pkg)
  /\ (forall key, JSMap.has key result = true -> JSMap.has key r = true).
Proof.
  intros Hacc Hrun. split.
  - apply (flattenDependencies_invariant
             (fun m => forall key pkg, In (key, pkg) m -> flattened key pkg))
      with (deps := deps) (m := result); try assumption.
    intros m name v vs p Tv Sv Hm key pkg Hin.
    apply map_set_In in Hin as [[-> ->] | Hin]; [| now apply Hm].
    repeat split; simpl; [assumption | apply truthy_jsOr_unknown |].
    exists vs. auto.
  - intros key Hkey.
    apply (flattenDependencies_invariant (fun m => JSMap.has key m = true))
      with (deps := deps) (m := result); try assumption.
    intros m name v vs p _ _ Hm. rewrite map_has_set, Hm. apply orb_true_r.
Qed.

Lemma flatten_records_have_versions_witness :
  flattened "b@2" (Installed.mk "b" (JNum 2) (JStr "unknown")).
Proof.
  refine (proj1 (@flatten_records_have_versions
                  (JObj 0 [("a", JObj 1 [("version", JStr "1.0"); ("path", JStr "/g/a");
                                         ("dependencies",
                                          JObj 2 [("b", JObj 3 [("version", JNum 2)]);
                                                  ("c", JObj 4 [("path", JStr "/g/c")])])])])
                  []
                  [("a@1.0", Installed.mk "a" (JStr "1.0") (JStr "/g/a"));
                   ("b@2", Installed.mk "b" (JNum 2) (JStr "unknown"))]
                  (fun key pkg (H : In (key, pkg) []) => match H with end)
                  eq_refl)
            "b@2"%string (Installed.mk "b" (JNum 2) (JStr "unknown")) _).
  right. left. reflexivity.
Defined.

(* ================================================================== *)
(** * [check-packages.js]: the exact-match check *)

Lemma checkForCompromised_fold compromisedList installed : forall found,
  fold_left (checkOne compromisedList) installed found
  = found ++
    flat_map (fun e => match JSMap.get (fst e) compromisedList with
                       | Some info => [hitOf info (snd e)]
                       | None => []
                       end) installed.
Proof.
  induction installed as [| [key pkg] rest IH]; intros found; simpl.
  - now rewrite app_nil_r.
  - rewrite IH. unfold JSMap.has.
    destruct (JSMap.get key compromisedList) as [info|]; simpl.
    + now rewrite <- app_assoc.
    + reflexivity.
Qed.

(** X2. [checkForCompromised] reports exactly the installed packages
    whose [name@version] key is a key of the compromised list: a hit
    is reported if and only if it combines an installed entry with the
    list entry of the same key (name, version, severity and source
    from the list, path from the installation); there are as many hits
    as installed entries with a listed key; and nothing is reported if
    and only if no installed key is listed. *)
Theorem checkForCompromised_exact (installedPackages : installedMap)
  (compromisedList : list (string * CheckPackages.record)) :
  let found := checkForCompromised installedPackages compromisedList in
  (forall hit,
     In hit found <->
     exists key pkg info,
       In (key, pkg) installedPackages
       /\ JSMap.get key compromisedList = Some info
       /\ hit = hitOf info pkg)
  /\ List.length found
     = List.length (filter (fun e => JSMap.has (fst e) compromisedList) installedPackages)
  /\ (found = [] <->
      forall key pkg, In (key, pkg) installedPackages ->
                      JSMap.has key compromisedList = false).
Proof.
  cbv zeta. unfold checkForCompromised. rewrite checkForCompromised_fold. simpl.
  split; [| split].
  - intros hit. rewrite in_flat_map. split.
    + intros ([key pkg] & Hin & Hhit). simpl in Hhit.
      destruct (JSMap.get key compromisedList) as [info|] eqn:E; [| destruct Hhit].
      destruct Hhit as [<- | []]. eauto 6.
    + intros (key & pkg & info & Hin & Hget & ->). exists (key, pkg).
      split; [assumption|]. simpl. rewrite Hget. now left.
  - induction installedPackages as [| [key pkg] rest IH]; simpl; [reflexivity|].
    unfold JSMap.has at 1. rewrite length_app, IH.
    destruct (JSMap.get key compromisedList); reflexivity.
  - induction installedPackages as [| [key pkg] rest IH]; simpl.
    + split; [intros _ ? ? [] | reflexivity].
    + unfold JSMap.has. destruct (JSMap.get key compromisedList) as [info|] eqn:E; simpl.
      * split; [discriminate|]. intros Hno.
        specialize (Hno key pkg (or_introl eq_refl)). rewrite E in Hno. discriminate.
      * rewrite IH. split.
        -- intros Hno k p [[= <- <-] | Hin]; [now rewrite E | now apply (Hno k p)].
        -- intros Hno k p Hin. apply (Hno k p). now right.
Qed.


(* ================================================================== *)
(** * [check-packages.js]: the older list reader *)

Lemma forEach_ext {A S} (f f' : S -> A -> outcome S) items :
  (forall s x, f s x = f' s x) -> forall s, forEach f items s = forEach f' items s.
Proof.
  intros Hext. induction items as [| x rest IH]; intros s; simpl; [reflexivity|].
  rewrite Hext. destruct (f' s x); simpl; [apply IH | reflexivity].
Qed.

Section ForEachSet.
Context {A V : Type}.
Variable g : A -> outcome (string * V).

Lemma forEach_set_sound items : forall m0 m k v,
  forEach (setStep g) items m0 = Ok m ->
  JSMap.get k m = Some v ->
  JSMap.get k m0 = Some v \/ exists x, In x items /\ g x = Ok (k, v).
Proof.
  induction items as [| x rest IH]; intros m0 m k v; simpl.
  - intros [= <-]. auto.
  - unfold setStep at 1. destruct (g x) as [[k0 v0]|] eqn:E; simpl; [| discriminate].
    intros Hrun Hget. destruct (IH _ _ _ _ Hrun Hget) as [H0 | (y & Hy & Hg)].
    + rewrite map_get_set in H0. keq k k0.
      * injection H0 as <-. right. exists x. auto.
      * auto.
    + right. exists y. auto.
Qed.

Lemma forEach_set_keeps items : forall m0 m k v,
  forEach (setStep g) items m0 = Ok m ->
  (forall q v', In q items -> g q <> Ok (k, v')) ->
  JSMap.get k m0 = Some v -> JSMap.get k m = Some v.
Proof.
  induction items as [| x rest IH]; intros m0 m k v; simpl.
  - now intros [= <-].
  - unfold setStep at 1. destruct (g x) as [[k0 v0]|] eqn:E; simpl; [| discriminate].
    intros Hrun Hno Hget. apply (IH _ _ _ _ Hrun).
    + intros q v' Hq. apply Hno. now right.
    + rewrite map_get_set. keq k k0; [| assumption].
      exfalso. apply (Hno x v0); [now left | assumption].
Qed.

Lemma forEach_set_last pre x post : forall m0 m k v,
  forEach (setStep g) (pre ++ x :: post) m0 = Ok m ->
  g x = Ok (k, v) ->
  (forall q v', In q post -> g q <> Ok (k, v')) ->
  JSMap.get k m = Some v.
Proof.
  induction pre as [| y pre IH]; intros m0 m k v; simpl.
  - unfold setStep at 1. intros Hrun Hg Hno. rewrite Hg in Hrun. simpl in Hrun.
    eapply forEach_set_keeps; [exact Hrun | exact Hno | apply map_get_set_eq].
  - unfold setStep at 1. destruct (g y) as [[k0 v0]|]; simpl; [| discriminate].
    apply IH.
Qed.

Lemma forEach_set_total items : forall m0,
  (forall x, In x items -> exists kr, g x = Ok kr) ->
  exists m, forEach (setStep g) items m0 = Ok m.
Proof.
  induction items as [| x rest IH]; intros m0 Hall; simpl; [eauto|].
  destruct (Hall x (or_introl eq_refl)) as [kr Hkr]. unfold setStep at 1.
  rewrite Hkr. simpl. apply IH. intros y Hy. apply Hall. now right.
Qed.
End ForEachSet.

Lemma oldParse_array ref items :
  CheckPackages.parseCompromisedList (JArr ref items)
  = forEach (setStep tenableRecord) items [].
Proof.
  simpl. apply forEach_ext. intros m pkg. unfold setStep, tenableRecord, bind.
  destruct (prop pkg "package") as [n|]; [| reflexivity].
  destruct (prop pkg "version") as [v|]; [| reflexivity].
  destruct (CheckPackages.toString n); [| reflexivity].
  destruct (CheckPackages.toString v); reflexivity.
Qed.

Lemma oldParse_packages ref fields ref' items :
  field "packages" fields = Some (JArr ref' items) ->
  CheckPackages.parseCompromisedList (JObj ref fields)
  = forEach (setStep gensecRecord) items [].
Proof.
  intros Hp. unfold CheckPackages.parseCompromisedList. simpl. rewrite Hp. simpl.
  apply forEach_ext. intros m pkg. unfold setStep, gensecRecord, bind.
  destruct (prop pkg "name") as [n|]; [| reflexivity].
  destruct (prop pkg "version") as [v|]; [| reflexivity].
  destruct (CheckPackages.toString n); [| reflexivity].
  destruct (CheckPackages.toString v); [| reflexivity].
  destruct (prop pkg "severity"); [| reflexivity].
  destruct (prop pkg "source"); reflexivity.
Qed.

(** X3. The older reader keeps one object per [name@version] key, and
    of several records with the same key the last one wins: for a bare
    array, and for an object whose [packages] is an array, a record of
    the array whose key no later record has determines what the
    returned map holds under that key (with [severity] defaulting to
    [high] and [source] to [unknown] in the second case); and whatever
    the map holds under a key is what some record of the array
    becomes. *)
Theorem old_reader_last_record_wins :
  (forall ref pre pkg post m key rec,
     CheckPackages.parseCompromisedList (JArr ref (pre ++ pkg :: post)) = Ok m ->
     tenableRecord pkg = Ok (key, rec) ->
     (forall q rec', In q post -> tenableRecord q <> Ok (key, rec')) ->
     JSMap.get key m = Some rec)
  /\ (forall ref items m key rec,
        CheckPackages.parseCompromisedList (JArr ref items) = Ok m ->
        JSMap.get key m = Some rec ->
        exists pkg, In pkg items /\ tenableRecord pkg = Ok (key, rec))
  /\ (forall ref fields ref' pre pkg post m key rec,
        field "packages" fields = Some (JArr ref' (pre ++ pkg :: post)) ->
        CheckPackages.parseCompromisedList (JObj ref fields) = Ok m ->
        gensecRecord pkg = Ok (key, rec) ->
        (forall q rec', In q post -> gensecRecord q <> Ok (key, rec')) ->
        JSMap.get key m = Some rec)
  /\ (forall ref fields ref' items m key rec,
        field "packages" fields = Some (JArr ref' items) ->
        CheckPackages.parseCompromisedList (JObj ref fields) = Ok m ->
        JSMap.get key m = Some rec ->
        exists pkg, In pkg items /\ gensecRecord pkg = Ok (key, rec)).
Proof.
  split; [| split; [| split]].
  - intros ref pre pkg post m key rec Hrun. rewrite oldParse_array in Hrun.
    intros Hg Hno. eapply forEach_set_last; eassumption.
  - intros ref items m key rec Hrun Hget. rewrite oldParse_array in Hrun.
    destruct (@forEach_set_sound _ _ _ _ _ _ _ _ Hrun Hget) as [H0 | H];
      [discriminate | exact H].
  - intros ref fields ref' pre pkg post m key rec Hp Hrun.
    rewrite (@oldParse_packages ref fields _ _ Hp) in Hrun.
    intros Hg Hno. eapply forEach_set_last; eassumption.
  - intros ref fields ref' items m key rec Hp Hrun Hget.
    rewrite (@oldParse_packages ref fields _ _ Hp) in Hrun.
    destruct (@forEach_set_sound _ _ _ _ _ _ _ _ Hrun Hget) as [H0 | H];
      [discriminate | exact H].
Qed.

Lemma old_reader_last_record_wins_witness :
  JSMap.get "a@1"
    [("a@1", CheckPackages.mk (JStr "a") (JStr "1") (JStr "low") (JStr "unknown"))]
  = Some (CheckPackages.mk (JStr "a") (JStr "1") (JStr "low") (JStr "unknown")).
Proof.
  apply (proj1 (proj2 (proj2 old_reader_last_record_wins))
           0 [("packages",
               JArr 1 [JObj 2 [("name", JStr "a"); ("version", JStr "1")];
                       JObj 3 [("name", JStr "a"); ("version", JStr "1");
                               ("severity", JStr "low")]])]
           1 [JObj 2 [("name", JStr "a"); ("version", JStr "1")]]
           (JObj 3 [("name", JStr "a"); ("version", JStr "1"); ("severity", JStr "low")])
           []).
  - reflexivity.
  - reflexivity.
  - reflexivity.
  - intros q rec' [].
Defined.


Lemma forEach_set_has {A V} (g : A -> outcome (string * V)) items : forall m0 m k,
  forEach (setStep g) items m0 = Ok m ->
  JSMap.has k m0 = true -> JSMap.has k m = true.
Proof.
  induction items as [| x rest IH]; intros m0 m k; simpl.
  - now intros [= <-].
  - unfold setStep at 1. destruct (g x) as [[k0 v0]|]; simpl; [| discriminate].
    intros Hrun Hk. apply (IH _ _ _ Hrun). rewrite map_has_set, Hk. apply orb_true_r.
Qed.

Lemma forEach_set_present {A V} (g : A -> outcome (string * V)) items : forall m0 m k v x,
  forEach (setStep g) items m0 = Ok m ->
  In x items -> g x = Ok (k, v) -> JSMap.has k m = true.
Proof.
  induction items as [| y rest IH]; intros m0 m k v x Hrun Hin Hg; [destruct Hin|].
  simpl in Hrun. unfold setStep at 1 in Hrun.
  destruct (g y) as [[k0 v0]|] eqn:E; simpl in Hrun; [| discriminate].
  destruct Hin as [-> | Hin].
  - rewrite Hg in E. injection E as <- <-.
    eapply forEach_set_has; [exact Hrun|]. now rewrite map_has_set, keqb_refl.
  - eapply IH; eassumption.
Qed.

Lemma split_plain sep s :
  allChars (fun c => negb (Ascii.eqb c sep)) s = true -> split sep s = [s].
Proof.
  induction s as [| c s IH]; simpl; [reflexivity|]. intros Hs.
  apply andb_true_iff in Hs as [Hc Hs]. apply negb_true_iff in Hc.
  rewrite Hc, (IH Hs). reflexivity.
Qed.

Lemma split_cut sep n rest :
  allChars (fun c => negb (Ascii.eqb c sep)) n = true ->
  split sep (n ++ String sep rest)%string = n :: split sep rest.
Proof.
  induction n as [| c n IH]; simpl.
  - intros _. now rewrite Ascii.eqb_refl.
  - intros Hn. apply andb_true_iff in Hn as [Hc Hn]. apply negb_true_iff in Hc.
    rewrite Hc, (IH Hn). reflexivity.
Qed.

Lemma splitIdentifier_unscoped n v :
  noAt n = true -> noAt v = true ->
  CheckPackages.splitIdentifier (JStr (n ++ "@" ++ v))
  = Ok ((n ++ "@" ++ v)%string, JStr n, JStr v).
Proof.
  intros Hn Hv. unfold CheckPackages.splitIdentifier. simpl.
  unfold noAt in *. rewrite split_cut by assumption.
  rewrite split_plain by assumption. reflexivity.
Qed.

Lemma listedRecord_key pkgStr k rec :
  listedRecord pkgStr = Ok (k, rec) ->
  pkgStr = JStr k /\ listedRecord (JStr k) = Ok (k, rec).
Proof.
  intros H. destruct pkgStr; try discriminate.
  unfold listedRecord in H. simpl in H. injection H as <- <-.
  split; reflexivity.
Qed.

Lemma oldParse_listed ref fields ref' items :
  field "packages" fields = None ->
  field "compromisedPackages" fields = Some (JArr ref' items) ->
  CheckPackages.parseCompromisedList (JObj ref fields)
  = forEach (setStep listedRecord) items [].
Proof.
  intros Hp Hc. unfold CheckPackages.parseCompromisedList. simpl.
  rewrite Hp, Hc. simpl. apply forEach_ext. intros m pkgStr.
  unfold setStep, listedRecord, bind.
  destruct (CheckPackages.splitIdentifier pkgStr) as [[[k n] v]|]; reflexivity.
Qed.

(** X4. The older reader on a plain list of identifiers
    ([data.compromisedPackages]): when every element is a string the
    list is read without an exception; the keys of the returned map
    are exactly the listed strings; and an unscoped [name@version], in
    which neither part contains an [@], is filed under itself with
    that name and that version. *)
Theorem old_reader_identifier_list (ref : nat) (fields : list (string * jsval))
  (ref' : nat) (ids : list string) :
  field "packages" fields = None ->
  field "compromisedPackages" fields = Some (JArr ref' (map JStr ids)) ->
  exists m,
    CheckPackages.parseCompromisedList (JObj ref fields) = Ok m
    /\ (forall k, JSMap.has k m = true <-> In k ids)
    /\ (forall n v,
          noAt n = true -> noAt v = true -> In (n ++ "@" ++ v)%string ids ->
          JSMap.get (n ++ "@" ++ v)%string m
          = Some (CheckPackages.mk (JStr n) (JStr v) (JStr "high") (JStr "list"))).
Proof.
  intros Hp Hc. rewrite (@oldParse_listed ref fields _ _ Hp Hc).
  destruct (@forEach_set_total _ _ listedRecord (map JStr ids) []) as [m Hm].
  { intros x Hx. apply in_map_iff in Hx as (s & <- & _). eexists. reflexivity. }
  exists m. split; [exact Hm|].
  assert (forall k, JSMap.has k m = true <-> In k ids) as Hkeys.
  { intros k. split.
    - intros Hk. apply map_has_get in Hk as [rec Hrec].
      destruct (@forEach_set_sound _ _ _ _ _ _ _ _ Hm Hrec) as [H0 | (x & Hx & Hg)];
        [discriminate|].
      apply listedRecord_key in Hg as [-> _].
      apply in_map_iff in Hx as (s & [= ->] & Hs). exact Hs.
    - intros Hk. eapply forEach_set_present;
        [exact Hm | apply in_map; exact Hk | reflexivity]. }
  split; [exact Hkeys|].
  intros n v Hn Hv Hin. apply Hkeys in Hin. apply map_has_get in Hin as [rec Hrec].
  rewrite Hrec. f_equal.
  destruct (@forEach_set_sound _ _ _ _ _ _ _ _ Hm Hrec) as [H0 | (x & Hx & Hg)];
    [discriminate|].
  apply listedRecord_key in Hg as [_ Hg]. unfold listedRecord in Hg.
  rewrite splitIdentifier_unscoped in Hg by assumption. simpl in Hg. congruence.
Qed.

Lemma old_reader_identifier_list_witness :
  exists m,
    CheckPackages.parseCompromisedList
      (JObj 0 [("compromisedPackages", JArr 1 (map JStr ["left-pad@1.3.0"; "foo@2.0.0"]))])
    = Ok m
    /\ (forall k, JSMap.has k m = true <-> In k ["left-pad@1.3.0"; "foo@2.0.0"])
    /\ (forall n v,
          noAt n = true -> noAt v = true ->
          In (n ++ "@" ++ v)%string ["left-pad@1.3.0"; "foo@2.0.0"] ->
          JSMap.get (n ++ "@" ++ v)%string m
          = Some (CheckPackages.mk (JStr n) (JStr v) (JStr "high") (JStr "list"))).
Proof.
  apply (@old_reader_identifier_list 0
           [("compromisedPackages", JArr 1 (map JStr ["left-pad@1.3.0"; "foo@2.0.0"]))]
           1 ["left-pad@1.3.0"; "foo@2.0.0"] eq_refl eq_refl).
Defined.


(* ================================================================== *)
(** * Provenance in the registries *)

Lemma map_set_set {K V} `{EqKey K} (k : K) (v v0 : V) m :
  JSMap.set k v (JSMap.set k v0 m) = JSMap.set k v m.
Proof.
  induction m as [| [k1 v1] m IH]; simpl.
  - now rewrite keqb_refl.
  - keq k k1; simpl.
    + now rewrite keqb_refl.
    + rewrite (proj2 (keqb_neq k k1) E). now rewrite IH.
Qed.

Lemma map_set_nonempty {K V} `{EqKey K} (k : K) (v : V) m : JSMap.set k v m <> [].
Proof. destruct m as [| [k1 v1] m]; simpl; [| destruct (keqb k k1)]; discriminate. Qed.

Lemma upsert_In name f reg n e :
  In (n, e) (upsert name f reg) ->
  (n = name /\ e = f (entryOf reg name)) \/ In (n, e) reg.
Proof.
  unfold upsert, entryOf. destruct (JSMap.has name reg) eqn:E; cbn [negb].
  - apply map_has_get in E as [e0 He0]. rewrite He0. apply map_set_In.
  - apply map_has_false in E. rewrite map_get_set_eq, E, map_set_set.
    apply map_set_In.
Qed.

Lemma entryOf_cases reg name :
  entryOf reg name = emptyEntry \/ In (name, entryOf reg name) reg.
Proof.
  unfold entryOf. destruct (JSMap.get name reg) eqn:E; [right | now left].
  now apply map_get_In.
Qed.

Lemma touch_versions version e src :
  versions (addSource version (ensureVersion version e) src)
  = JSMap.set version
      (JSSet.add src (match JSMap.get version (versions e) with
                      | Some s => s
                      | None => []
                      end))
      (versions e).
Proof.
  unfold addSource, ensureVersion, JSMap.has.
  destruct (JSMap.get version (versions e)) as [s|] eqn:E; simpl.
  - now rewrite E.
  - now rewrite map_get_set_eq, map_set_set.
Qed.

Lemma touch_sources version e src :
  sources (addSource version (ensureVersion version e) src) = JSSet.add src (sources e).
Proof.
  unfold addSource, ensureVersion.
  destruct (negb (JSMap.has version (versions e))); reflexivity.
Qed.

Lemma set_add_own (src : string) :
  JSSet.add src [] = [src] /\ JSSet.add src [src] = [src].
Proof.
  unfold JSSet.add, JSSet.has. cbn [existsb].
  rewrite (@keqb_refl string _ src). now split.
Qed.

Lemma ownEntry_touch src version e :
  e = emptyEntry \/ ownEntry src e ->
  ownEntry src (addSource version (ensureVersion version e) src).
Proof.
  intros He. destruct (set_add_own src) as [Hnil Hown].
  assert (sources e = [] \/ sources e = [src]) as Hs.
  { destruct He as [-> | (Hs & _)]; auto. }
  assert (forall v ss, In (v, ss) (versions e) -> ss = [src]) as Hv.
  { destruct He as [-> | (_ & _ & Hv)]; [intros v ss [] | exact Hv]. }
  repeat split.
  - rewrite touch_sources. destruct Hs as [-> | ->]; assumption.
  - rewrite touch_versions. apply map_set_nonempty.
  - intros v ss. rewrite touch_versions. intros Hin.
    apply map_set_In in Hin as [[_ ->] | Hin]; [| eauto].
    destruct (JSMap.get version (versions e)) as [s|] eqn:E; [| exact Hnil].
    apply map_get_In in E. now rewrite (Hv _ _ E).
Qed.

Lemma own_addRecord src name version reg :
  (forall n e, In (n, e) reg -> ownEntry src e) ->
  forall n e, In (n, e) (addRecord name version src reg) -> ownEntry src e.
Proof.
  intros Hreg n e. rewrite addRecord_upsert. intros Hin.
  apply upsert_In in Hin as [[_ ->] | Hin]; [| eauto].
  apply ownEntry_touch. destruct (entryOf_cases reg name) as [-> | Hin]; eauto.
Qed.

Lemma parse_invariant (P : registry -> Prop) doc src reg :
  P [] ->
  (forall name version r, P r -> P (addRecord name version src r)) ->
  parseCompromisedList doc src = Ok reg -> P reg.
Proof.
  intros Hnil Hadd.
  assert (forall first second items r r',
            P r -> forEach (parseRecord first second src) items r = Ok r' -> P r')
    as Hrecords.
  { intros first second items. induction items as [| pkg items IH]; intros r r' Hr; simpl.
    - now intros [= <-].
    - rewrite parseRecord_recordFields.
      destruct (recordFields first second pkg) as [[name version]|]; simpl;
        [| discriminate].
      apply IH. now apply Hadd. }
  destruct doc as [| | b | n | s | r items | r fields]; simpl;
    try (now intros [= <-]); try discriminate.
  - intros [= <-]. generalize (split "010" s) as lines. generalize Hnil.
    generalize (@nil (key * entry)) as acc.
    intros acc Hacc lines. revert acc Hacc.
    induction lines as [| l lines IH]; intros acc Hacc; simpl; [exact Hacc|].
    apply IH. rewrite parseLine_lineRecord.
    destruct (lineRecord l) as [[n v]|]; [now apply Hadd | exact Hacc].
  - now apply Hrecords.
  - destruct (field "packages" fields) as [p|]; simpl; [| now intros [= <-]].
    destruct p; simpl; try (now intros [= <-]).
    + destruct b; now intros [= <-].
    + destruct (negb (n =? 0)%Z); now intros [= <-].
    + destruct (negb (s =? "")%string); now intros [= <-].
    + now apply Hrecords.
Qed.

Lemma own_parse doc src reg :
  parseCompromisedList doc src = Ok reg ->
  forall n e, In (n, e) reg -> ownEntry src e.
Proof.
  intros Hrun.
  apply (@parse_invariant (fun r => forall n e, In (n, e) r -> ownEntry src e)
           doc src reg); [intros n e [] | | exact Hrun].
  intros name version r Hr. now apply own_addRecord.
Qed.

(** X5. A partial registry cites its own feed and nothing else:
    whatever document [parseCompromisedList] reads for the source
    [sourceName], every entry it returns has [[sourceName]] as its
    overall source set, has at least one version, and has
    [[sourceName]] as the source set of each of its versions; a record
    repeated in the feed adds nothing. *)
Theorem partial_registry_cites_own_feed (doc : jsval) (sourceName : string)
  (reg : registry) :
  parseCompromisedList doc sourceName = Ok reg ->
  forall name e,
    In (name, e) reg ->
    sources e = [sourceName]
    /\ versions e <> []
    /\ forall version ss, In (version, ss) (versions e) -> ss = [sourceName].
Proof.
  intros Hrun.
  apply (@parse_invariant
           (fun r => forall n e, In (n, e) r -> ownEntry sourceName e)
           doc sourceName reg); [intros n e [] | | exact Hrun].
  intros name version r Hr. now apply own_addRecord.
Qed.

Lemma partial_registry_cites_own_feed_witness :
  sources (mkEntry [(KStr "1.0.0", ["Cobenian"]); (KStr "1.0.1", ["Cobenian"])]
             ["Cobenian"])
  = ["Cobenian"]
  /\ versions (mkEntry [(KStr "1.0.0", ["Cobenian"]); (KStr "1.0.1", ["Cobenian"])]
                ["Cobenian"])
     <> []
  /\ forall version ss,
       In (version, ss)
          (versions (mkEntry [(KStr "1.0.0", ["Cobenian"]); (KStr "1.0.1", ["Cobenian"])]
                       ["Cobenian"])) ->
       ss = ["Cobenian"].
Proof.
  apply (@partial_registry_cites_own_feed
           (JStr "foo@1.0.0
foo:1.0.1
foo@1.0.0") "Cobenian"
           [(KStr "foo", mkEntry [(KStr "1.0.0", ["Cobenian"]); (KStr "1.0.1", ["Cobenian"])]
                           ["Cobenian"])]
           eq_refl (KStr "foo")).
  left. reflexivity.
Defined.

Lemma proper_parse doc src reg :
  parseCompromisedList doc src = Ok reg -> properRegistry reg.
Proof.
  apply parse_invariant; [apply properRegistry_empty|].
  intros name version r. apply properRegistry_addRecord.
Qed.

Lemma proper_reports p n v s :
  properRegistry p ->
  says p n (FReport v s) <->
  exists e ss, In (n, e) p /\ In (v, ss) (versions e) /\ In s ss.
Proof.
  intros [Hk He]. unfold says, entryOf. simpl. split.
  - destruct (JSMap.get n p) as [e|] eqn:E; [| intros (ss & [=] & _)].
    intros (ss & Hg & Hs). exists e, ss.
    split; [now apply map_get_In | split; [now apply map_get_In | assumption]].
  - intros (e & ss & Hn & Hv & Hs). rewrite (map_In_get _ _ _ Hk Hn).
    exists ss. split; [| assumption].
    destruct (He _ _ Hn) as (Hvk & _). now apply map_In_get.
Qed.

Lemma partials_of_feeds feeds p :
  In p (flat_map partialOf feeds) <->
  exists src doc, In (src, Parsed doc) feeds /\ parseCompromisedList doc src = Ok p.
Proof.
  rewrite in_flat_map. split.
  - intros ([src f] & Hin & Hp). unfold partialOf in Hp. simpl in Hp.
    destruct f as [| doc]; [destruct Hp|].
    destruct (parseCompromisedList doc src) as [q|] eqn:E; [| destruct Hp].
    destruct Hp as [<- | []]. eauto.
  - intros (src & doc & Hin & Hp). exists (src, Parsed doc). split; [assumption|].
    unfold partialOf. simpl. rewrite Hp. now left.
Qed.

Lemma merged_knows feeds name :
  knows (fetchAllCompromisedPackages feeds) name <->
  exists src doc p,
    In (src, Parsed doc) feeds /\ parseCompromisedList doc src = Ok p /\ knows p name.
Proof.
  unfold fetchAllCompromisedPackages. rewrite fetchAll_merges.
  rewrite knows_fold_mergeInto. split.
  - intros [H0 | (p & e & Hp & Hin)]; [now apply knows_empty in H0|].
    apply partials_of_feeds in Hp as (src & doc & Hfeed & Hparse).
    exists src, doc, p. repeat split; try assumption.
    unfold knows. eapply map_In_has; eassumption.
  - intros (src & doc & p & Hfeed & Hparse & Hk). right.
    apply map_has_get in Hk as [e He]. exists p, e.
    split; [apply partials_of_feeds; eauto | now apply map_get_In].
Qed.

Lemma merged_reports feeds name v src :
  says (fetchAllCompromisedPackages feeds) name (FReport v src) <->
  exists doc p,
    In (src, Parsed doc) feeds /\ parseCompromisedList doc src = Ok p
    /\ says p name (FReport v src).
Proof.
  unfold fetchAllCompromisedPackages. rewrite fetchAll_merges.
  rewrite says_fold_mergeInto. split.
  - intros [H0 | (p & e & Hp & Hin & Hg)]; [now apply says_empty in H0|].
    simpl in Hg. destruct Hg as (ss & Hv & Hs).
    apply partials_of_feeds in Hp as (src' & doc & Hfeed & Hparse).
    destruct (own_parse _ _ Hparse _ _ Hin) as (_ & _ & Hown).
    pose proof (Hown _ _ Hv) as Hss. subst ss. destruct Hs as [<- | []].
    exists doc, p. repeat split; try assumption.
    apply proper_reports; [eapply proper_parse; eassumption|].
    exists e, [src']. repeat split; try assumption. now left.
  - intros (doc & p & Hfeed & Hparse & Hs). right.
    apply proper_reports in Hs; [| eapply proper_parse; eassumption].
    destruct Hs as (e & ss & Hn & Hv & Hs). exists p, e.
    split; [apply partials_of_feeds; eauto|]. split; [assumption|].
    simpl. eauto.
Qed.

(** X6. The merged registry is the union of what the feeds report,
    nothing lost and nothing invented: it knows a name exactly when
    the partial registry of some fetched and parsed source knows it,
    and it records that source [src] reported version [v] of a name
    exactly when the source called [src] was fetched and parsed and its
    own partial registry reports [v] for that name. *)
Theorem merged_registry_is_union (feeds : list (string * fetched)) (name : key) :
  (knows (fetchAllCompromisedPackages feeds) name <->
   exists src doc p,
     In (src, Parsed doc) feeds /\ parseCompromisedList doc src = Ok p /\ knows p name)
  /\ (forall v src,
        says (fetchAllCompromisedPackages feeds) name (FReport v src) <->
        exists doc p,
          In (src, Parsed doc) feeds /\ parseCompromisedList doc src = Ok p
          /\ says p name (FReport v src)).
Proof. split; [apply merged_knows | intros v src; apply merged_reports]. Qed.


Lemma merged_fact feeds name f :
  says (fetchAllCompromisedPackages feeds) name f <->
  exists p e, In p (flat_map partialOf feeds) /\ In (name, e) p /\ gives (versions e) f.
Proof.
  unfold fetchAllCompromisedPackages. rewrite fetchAll_merges.
  rewrite says_fold_mergeInto. split; [| auto].
  intros [H0 | H]; [now apply says_empty in H0 | exact H].
Qed.

Lemma merged_known_version feeds name :
  knows (fetchAllCompromisedPackages feeds) name ->
  exists v, says (fetchAllCompromisedPackages feeds) name (FVersion v).
Proof.
  unfold fetchAllCompromisedPackages at 1. rewrite fetchAll_merges.
  rewrite knows_fold_mergeInto.
  intros [H0 | (p & e & Hp & Hin)]; [now apply knows_empty in H0|].
  pose proof Hp as Hq. apply partials_of_feeds in Hq as (src & doc & _ & Hparse).
  destruct (own_parse _ _ Hparse _ _ Hin) as (_ & Hne & _).
  destruct (versions e) as [| [v ss] vs] eqn:E; [now destruct Hne|].
  exists v. apply merged_fact. exists p, e. repeat split; try assumption.
  simpl. exists ss. rewrite E. now left.
Qed.

Lemma merged_version_reported feeds name v :
  says (fetchAllCompromisedPackages feeds) name (FVersion v) ->
  exists src, says (fetchAllCompromisedPackages feeds) name (FReport v src).
Proof.
  rewrite merged_fact. intros (p & e & Hp & Hin & Hg).
  simpl in Hg. destruct Hg as (ss & Hv).
  pose proof Hp as Hq. apply partials_of_feeds in Hq as (src & doc & _ & Hparse).
  destruct (own_parse _ _ Hparse _ _ Hin) as (_ & _ & Hown).
  exists src. apply merged_fact. exists p, e. repeat split; try assumption.
  simpl. exists ss. split; [assumption|]. rewrite (Hown _ _ Hv). now left.
Qed.

Lemma merged_cite feeds name src :
  says (fetchAllCompromisedPackages feeds) name (FCite src) <->
  exists v, says (fetchAllCompromisedPackages feeds) name (FReport v src).
Proof.
  rewrite merged_fact. split.
  - intros (p & e & Hp & Hin & Hg). simpl in Hg. destruct Hg as (v & ss & Hv & Hs).
    exists v. apply merged_fact. exists p, e. repeat split; try assumption.
    simpl. eauto.
  - intros (v & Hr). apply merged_fact in Hr as (p & e & Hp & Hin & Hg).
    simpl in Hg. destruct Hg as (ss & Hv & Hs).
    exists p, e. repeat split; try assumption. simpl. eauto.
Qed.

(** X7. The merged registry is consistent: a name it knows has at
    least one version; every version it lists for a name was reported
    by at least one source; the overall source set of a name holds
    exactly the sources that reported some version of it; and every
    source it cites is the label of a feed that was fetched. *)
Theorem merged_registry_consistent (feeds : list (string * fetched)) (name : key) :
  knows (fetchAllCompromisedPackages feeds) name ->
  let all := fetchAllCompromisedPackages feeds in
  (exists v, says all name (FVersion v))
  /\ (forall v, says all name (FVersion v) -> exists src, says all name (FReport v src))
  /\ (forall src, says all name (FCite src) <-> exists v, says all name (FReport v src))
  /\ (forall src, says all name (FCite src) -> exists doc, In (src, Parsed doc) feeds).
Proof.
  intros Hk all. subst all. split; [now apply merged_known_version|].
  split; [intros v; apply merged_version_reported|].
  split; [intros src; apply merged_cite|].
  intros src Hc. apply merged_cite in Hc as (v & Hr).
  apply merged_reports in Hr as (doc & p & Hfeed & _). eauto.
Qed.

Lemma merged_registry_consistent_witness :
  let all :=
    fetchAllCompromisedPackages
      [("GenSec HQ", Parsed (JStr "foo@1.0.0")); ("Cobenian", FetchFailed);
       ("Tenable (JSON)", Parsed (JStr "foo:1.0.1"))] in
  (exists v, says all (KStr "foo") (FVersion v))
  /\ (forall v, says all (KStr "foo") (FVersion v) ->
                exists src, says all (KStr "foo") (FReport v src))
  /\ (forall src, says all (KStr "foo") (FCite src) <->
                  exists v, says all (KStr "foo") (FReport v src))
  /\ (forall src, says all (KStr "foo") (FCite src) ->
                  exists doc,
                    In (src, Parsed doc)
                       [("GenSec HQ", Parsed (JStr "foo@1.0.0")); ("Cobenian", FetchFailed);
                        ("Tenable (JSON)", Parsed (JStr "foo:1.0.1"))]).
Proof.
  apply (@merged_registry_consistent
           [("GenSec HQ", Parsed (JStr "foo@1.0.0")); ("Cobenian", FetchFailed);
            ("Tenable (JSON)", Parsed (JStr "foo:1.0.1"))]
           (KStr "foo")).
  reflexivity.
Defined.

(* ================================================================== *)
(** * What the classifier reports *)

Lemma classify_sound reg pkg res f :
  (In f (compromised (classify reg res pkg)) ->
   In f (compromised res) \/ compromisedFinding reg [pkg] f)
  /\ (In f (suspicious (classify reg res pkg)) ->
      In f (suspicious res) \/ suspiciousFinding reg [pkg] f).
Proof.
  destruct pkg as [name inf]. unfold classify.
  destruct (JSMap.get (KStr name) reg) as [e|] eqn:He; [| simpl; tauto].
  destruct (JSMap.get (toKey (version inf)) (versions e)) as [srcs|] eqn:Hv; simpl;
    rewrite ?in_app_iff; split; try tauto.
  - intros [? | [<- | []]]; [now left | right].
    exists inf, e, srcs. simpl. repeat split; try assumption. now left.
  - intros [? | [<- | []]]; [now left | right].
    exists inf, e. simpl. repeat split; try assumption. now left.
Qed.

Lemma compromisedFinding_mono reg pkgs pkgs' f :
  incl pkgs pkgs' -> compromisedFinding reg pkgs f -> compromisedFinding reg pkgs' f.
Proof. intros Hi (inf & e & srcs & Hin & H). exists inf, e, srcs. split; auto. Qed.

Lemma suspiciousFinding_mono reg pkgs pkgs' f :
  incl pkgs pkgs' -> suspiciousFinding reg pkgs f -> suspiciousFinding reg pkgs' f.
Proof. intros Hi (inf & e & Hin & H). exists inf, e. split; auto. Qed.

Lemma classify_fold_sound reg pkgs : forall res f,
  (In f (compromised (fold_left (classify reg) pkgs res)) ->
   In f (compromised res) \/ compromisedFinding reg pkgs f)
  /\ (In f (suspicious (fold_left (classify reg) pkgs res)) ->
      In f (suspicious res) \/ suspiciousFinding reg pkgs f).
Proof.
  induction pkgs as [| pkg pkgs IH]; intros res f; simpl; [tauto|].
  destruct (IH (classify reg res pkg) f) as [IH1 IH2].
  destruct (classify_sound reg pkg res f) as [H1 H2].
  split.
  - intros H. apply IH1 in H as [H | H].
    + apply H1 in H as [H | H]; [now left | right].
      eapply compromisedFinding_mono; [| exact H]. intros x [<- | []]. now left.
    + right. eapply compromisedFinding_mono; [| exact H]. intros x Hx. now right.
  - intros H. apply IH2 in H as [H | H].
    + apply H2 in H as [H | H]; [now left | right].
      eapply suspiciousFinding_mono; [| exact H]. intros x [<- | []]. now left.
    + right. eapply suspiciousFinding_mono; [| exact H]. intros x Hx. now right.
Qed.

Lemma classify_fold_complete reg pkgs : forall res f,
  (compromisedFinding reg pkgs f -> In f (compromised (fold_left (classify reg) pkgs res)))
  /\ (suspiciousFinding reg pkgs f -> In f (suspicious (fold_left (classify reg) pkgs res))).
Proof.
  induction pkgs as [| pkg pkgs IH]; intros res f.
  - split; [intros (? & ? & ? & [] & _) | intros (? & ? & [] & _)].
  - simpl. destruct (IH (classify reg res pkg) f) as [IH1 IH2]. split.
    + intros (inf & e & srcs & [-> | Hin] & He & Hv & Hf).
      * apply classify_fold_keeps. unfold classify. rewrite He, Hv. simpl.
        apply in_app_iff. right. left. now symmetry.
      * apply IH1. exists inf, e, srcs. auto.
    + intros (inf & e & [-> | Hin] & He & Hv & Hf).
      * apply classify_fold_keeps. unfold classify. rewrite He, Hv. simpl.
        apply in_app_iff. right. left. now symmetry.
      * apply IH2. exists inf, e. auto.
Qed.

(** X8. The classifier reports nothing but what it should: the
    Compromised findings of a scan are exactly the findings of the
    installed packages that the registry lists at their installed
    version, the Suspicious findings exactly those of the installed
    packages listed at other versions only; each finding carries the
    name, the installed version and the path of an installed package,
    so no finding is made up and no path or version is mixed up between
    packages. *)
Theorem classifier_reports_exactly (allPackages : scannedMap)
  (compromisedList : registry) (f : Finding.t) :
  let r := classifyAll allPackages compromisedList in
  (In f (compromised r) <-> compromisedFinding compromisedList allPackages f)
  /\ (In f (suspicious r) <-> suspiciousFinding compromisedList allPackages f).
Proof.
  intros r. subst r. unfold classifyAll.
  destruct (classify_fold_sound compromisedList allPackages
              (mkResults [] [] 0 (JSMap.size allPackages)) f) as [S1 S2].
  destruct (classify_fold_complete compromisedList allPackages
              (mkResults [] [] 0 (JSMap.size allPackages)) f) as [K1 K2].
  split; split; auto.
  - intros H. apply S1 in H as [[] | H]. exact H.
  - intros H. apply S2 in H as [[] | H]. exact H.
Qed.

Lemma get_says_report (reg : registry) name e v src :
  JSMap.get name reg = Some e ->
  says reg name (FReport v src) <->
  exists ss, JSMap.get v (versions e) = Some ss /\ In src ss.
Proof. intros He. unfold says, entryOf. rewrite He. reflexivity. Qed.

Lemma says_version_In (p : registry) name v :
  says p name (FVersion v) ->
  exists e, In (name, e) p /\ gives (versions e) (FVersion v).
Proof.
  unfold says, entryOf. destruct (JSMap.get name p) as [e|] eqn:E; simpl.
  - intros Hh. apply map_has_get in Hh as [ss Hss]. exists e.
    split; [now apply map_get_In | exists ss; now apply map_get_In].
  - discriminate.
Qed.

(** X9. Every finding of a scan against the merged registry traces
    back to the feeds.  The source list of a Compromised finding is not
    empty and holds exactly the labels of the fetched feeds whose own
    records list the package at the installed version.  The source list
    of a Suspicious finding is not empty and holds exactly the labels
    of the fetched feeds that list the package at some version, and no
    fetched feed lists it at the installed version. *)
Theorem finding_sources_trace_to_feeds (feeds : list (string * fetched))
  (allPackages : scannedMap) (f : Finding.t) :
  let r := classifyAll allPackages (fetchAllCompromisedPackages feeds) in
  let name := KStr (Finding.name f) in
  let installed := toKey (Finding.installedVersion f) in
  (In f (compromised r) ->
   Finding.sources f <> []
   /\ forall src,
        In src (Finding.sources f) <->
        exists doc p,
          In (src, Parsed doc) feeds /\ parseCompromisedList doc src = Ok p
          /\ says p name (FReport installed src))
  /\ (In f (suspicious r) ->
      Finding.sources f <> []
      /\ (forall src,
            In src (Finding.sources f) <->
            exists v doc p,
              In (src, Parsed doc) feeds /\ parseCompromisedList doc src = Ok p
              /\ says p name (FReport v src))
      /\ forall src doc p,
           In (src, Parsed doc) feeds -> parseCompromisedList doc src = Ok p ->
           ~ says p name (FVersion installed)).
Proof.
  intros r name installed. subst r name installed. unfold classifyAll.
  set (all := fetchAllCompromisedPackages feeds).
  destruct (classify_fold_sound all allPackages
              (mkResults [] [] 0 (JSMap.size allPackages)) f) as [S1 S2].
  split.
  - intros H. apply S1 in H as [[] | (inf & e & srcs & _ & He & Hv & Hf)].
    pose proof (f_equal Finding.sources Hf) as Es.
    pose proof (f_equal Finding.installedVersion Hf) as Ei.
    cbn [Finding.sources Finding.installedVersion] in Es, Ei. rewrite Es, Ei.
    assert (forall src, In src srcs <->
                        says all (KStr (Finding.name f)) (FReport (toKey (version inf)) src))
      as Hsrc.
    { intros src. rewrite (@get_says_report all _ e _ src He). rewrite Hv. split.
      - intros Hs. eauto.
      - intros (ss & [= <-] & Hs). exact Hs. }
    split.
    + assert (says all (KStr (Finding.name f)) (FVersion (toKey (version inf)))) as Hver.
      { unfold says, entryOf. rewrite He. simpl. unfold JSMap.has. now rewrite Hv. }
      apply merged_version_reported in Hver as (src & Hr).
      apply Hsrc in Hr. intros ->. destruct Hr.
    + intros src. rewrite Hsrc. apply merged_reports.
  - intros H. apply S2 in H as [[] | (inf & e & _ & He & Hv & Hf)].
    pose proof (f_equal Finding.sources Hf) as Es.
    pose proof (f_equal Finding.installedVersion Hf) as Ei.
    cbn [Finding.sources Finding.installedVersion] in Es, Ei. rewrite Es, Ei.
    assert (forall src, In src (sources e) <->
                        says all (KStr (Finding.name f)) (FCite src)) as Hsrc.
    { intros src. unfold says, entryOf. rewrite He. reflexivity. }
    split; [| split].
    + assert (knows all (KStr (Finding.name f))) as Hk.
      { unfold knows, JSMap.has. now rewrite He. }
      apply merged_known_version in Hk as (v & Hver).
      apply merged_version_reported in Hver as (src & Hr).
      assert (In src (sources e)) as Hin.
      { apply Hsrc. apply merged_cite. eauto. }
      intros E. rewrite E in Hin. destruct Hin.
    + intros src. rewrite Hsrc. unfold all. rewrite merged_cite. split.
      * intros (v & Hr). apply merged_reports in Hr as (doc & p & ?). eauto.
      * intros (v & doc & p & Hr). exists v. apply merged_reports. eauto.
    + intros src doc p Hfeed Hparse Hver.
      apply says_version_In in Hver as (e' & Hin & Hg).
      assert (says all (KStr (Finding.name f)) (FVersion (toKey (version inf)))) as Hall.
      { apply merged_fact. exists p, e'. split; [| auto].
        apply partials_of_feeds. eauto. }
      unfold says, entryOf in Hall. rewrite He in Hall. simpl in Hall.
      unfold JSMap.has in Hall. now rewrite Hv in Hall.
Qed.

Lemma finding_sources_trace_to_feeds_witness :
  Finding.sources
    (Finding.mk "foo" (JStr "1.0.0") [KStr "1.0.0"; KStr "1.0.1"] ["GenSec HQ"]
       (Some ["GenSec HQ"; "Cobenian"]) "root/node_modules/foo")
  <> [].
Proof.
  apply (proj1 (@finding_sources_trace_to_feeds
                  [("GenSec HQ", Parsed (JStr "foo@1.0.0"));
                   ("Cobenian", Parsed (JStr "foo:1.0.1"))]
                  [("foo", mkInfo (JStr "1.0.0") "root/node_modules/foo")]
                  (Finding.mk "foo" (JStr "1.0.0") [KStr "1.0.0"; KStr "1.0.1"]
                     ["GenSec HQ"] (Some ["GenSec HQ"; "Cobenian"])
                     "root/node_modules/foo"))).
  left. reflexivity.
Defined.

Lemma merge_nothing ps : forall acc,
  (forall p, In p ps -> p = []) -> fold_left mergeInto ps acc = acc.
Proof.
  induction ps as [| p ps IH]; intros acc Hps; simpl; [reflexivity|].
  rewrite (Hps p (or_introl eq_refl)). simpl. apply IH.
  intros q Hq. apply Hps. now right.
Qed.

Lemma classify_nothing_listed pkgs : forall res,
  fold_left (classify []) pkgs res
  = mkResults (compromised res) (suspicious res) (safe res + List.length pkgs)
      (totalScanned res).
Proof.
  induction pkgs as [| [name inf] pkgs IH]; intros res; simpl.
  - rewrite Nat.add_0_r. now destruct res.
  - rewrite IH. simpl. f_equal. lia.
Qed.

(** X10. When no source yields a record (every fetch failed, or the
    document threw in the parser, or it parsed to nothing) the merged
    registry is empty and the scan reports nothing: no Compromised and
    no Suspicious finding, and every installed package counted as
    safe, whatever is installed. *)
Theorem no_records_no_findings (feeds : list (string * fetched)) (project : node)
  (projectRoot : string) :
  (forall src doc p,
     In (src, Parsed doc) feeds -> parseCompromisedList doc src = Ok p -> p = []) ->
  let installed :=
    getAllInstalledPackages (resolve project "node_modules")
      (join projectRoot "node_modules") [] in
  fetchAllCompromisedPackages feeds = []
  /\ scanAllPackages project projectRoot (fetchAllCompromisedPackages feeds)
     = mkResults [] [] (JSMap.size installed) (JSMap.size installed).
Proof.
  intros Hnone installed.
  assert (fetchAllCompromisedPackages feeds = []) as ->.
  { unfold fetchAllCompromisedPackages. rewrite fetchAll_merges.
    apply merge_nothing. intros p Hp.
    apply partials_of_feeds in Hp as (src & doc & Hfeed & Hparse). eauto. }
  split; [reflexivity|].
  unfold scanAllPackages, classifyAll. fold installed.
  rewrite classify_nothing_listed. reflexivity.
Qed.

Lemma no_records_no_findings_witness :
  fetchAllCompromisedPackages
    [("GenSec HQ", FetchFailed); ("Tenable (JSON)", Parsed JNull);
     ("Cobenian", Parsed (JStr "<html>Service unavailable</html>"))] = []
  /\ scanAllPackages (Dir true [("node_modules", nestedFoo)]) "root"
       (fetchAllCompromisedPackages
          [("GenSec HQ", FetchFailed); ("Tenable (JSON)", Parsed JNull);
           ("Cobenian", Parsed (JStr "<html>Service unavailable</html>"))])
     = mkResults [] [] 1 1.
Proof.
  apply (@no_records_no_findings
           [("GenSec HQ", FetchFailed); ("Tenable (JSON)", Parsed JNull);
            ("Cobenian", Parsed (JStr "<html>Service unavailable</html>"))]
           (Dir true [("node_modules", nestedFoo)]) "root").
  intros src doc p [[=] | [[= <- <-] | [[= <- <-] | []]]].
  - discriminate.
  - intros [= <-]. reflexivity.
Defined.


(* ================================================================== *)
(** * The records of the walk and the tree *)

Lemma child_In name es c : child name es = Some c -> In (name, c) es.
Proof.
  induction es as [| [n0 c0] es IH]; simpl; [discriminate|].
  destruct (String.eqb_spec n0 name) as [-> | _].
  - intros [= ->]. now left.
  - intros H. right. now apply IH.
Qed.

Lemma site_incl es es' p n v path :
  incl es es' -> site (Dir true es) p n v path -> site (Dir true es') p n v path.
Proof.
  intros Hi Hs. inversion Hs; subst.
  - eapply site_regular; eauto.
  - eapply site_scoped; eauto.
  - eapply site_below; eauto.
  - eapply site_below_scoped; eauto.
Qed.

Lemma visitPackage_sound name pp pk m n i :
  Forall (fun e => Deep recordsAreSites (snd e)) pk ->
  In (n, i) (visitPackage readNodeModules name pp pk m) ->
  In (n, i) m \/ fromPackage name pp pk n i.
Proof.
  intros Hpk. unfold visitPackage.
  destruct (existsSync _ && negb _) eqn:E; [| now left].
  apply andb_true_iff in E as [_ Hfresh]. apply negb_true_iff in Hfresh.
  destruct (readManifest _) as [pkg|] eqn:Hm; simpl; [| now left].
  destruct (prop pkg "version") as [v|] eqn:Hv; simpl; [| now left].
  rewrite withChild_child, map_set_fresh by assumption.
  assert (declares pk v) as Hd by (exists pkg; auto).
  assert (In (n, i) (m ++ [(name, mkInfo v pp)]) ->
          In (n, i) m \/ fromPackage name pp pk n i) as Hnew.
  { intros Hin. apply in_app_iff in Hin as [Hin | [[= <- <-] | []]]; [now left|].
    right. left. simpl. auto. }
  destruct (child "node_modules" pk) as [t|] eqn:Hc; [| exact Hnew].
  intros Hin.
  assert (Deep recordsAreSites t) as Ht.
  { apply child_In in Hc. rewrite Forall_forall in Hpk. exact (Hpk _ Hc). }
  apply (Deep_here Ht) in Hin as [Hin | Hs]; [now apply Hnew|].
  right. right. exists v, t. auto.
Qed.

Lemma scanScoped_sound sc sp n i sub : forall m,
  Forall (fun e => Deep recordsAreSites (snd e)) sub ->
  In (n, i) (scanScoped readNodeModules sc sp sub m) ->
  In (n, i) m
  \/ exists pn l pk,
       In (pn, Dir l pk) sub /\ fromPackage (sc ++ "/" ++ pn) (join sp pn) pk n i.
Proof.
  induction sub as [| [pn c] rest IH]; intros m Hsub; simpl; [now left|].
  inversion Hsub as [| ? ? Hc Hrest]; subst. simpl in Hc.
  destruct c as [? | l pk].
  - intros Hin. apply IH in Hin as [Hin | (pn' & l' & pk' & Hin & Hf)]; [now left | | assumption].
    right. exists pn', l', pk'. auto.
  - intros Hin. apply IH in Hin as [Hin | (pn' & l' & pk' & Hin & Hf)]; [| | assumption].
    + apply visitPackage_sound in Hin as [Hin | Hf]; [now left | | now inversion Hc].
      right. exists pn, l, pk. auto.
    + right. exists pn', l', pk'. auto.
Qed.

Lemma scanEntries_sound p n i es : forall m,
  Forall (fun e => Deep recordsAreSites (snd e)) es ->
  In (n, i) (scanEntries readNodeModules p es m) ->
  In (n, i) m \/ site (Dir true es) p n (version i) (path i).
Proof.
  induction es as [| [name c] rest IH]; intros m Hes; simpl; [now left|].
  inversion Hes as [| ? ? Hc Hrest]; subst. simpl in Hc.
  assert (forall m',
            In (n, i) (scanEntries readNodeModules p rest m') ->
            In (n, i) m' \/ site (Dir true ((name, c) :: rest)) p n (version i) (path i))
    as Hrest'.
  { intros m' Hin. apply IH in Hin as [Hin | Hs]; [now left | | assumption].
    right. eapply site_incl; [| exact Hs]. intros x Hx. now right. }
  destruct c as [? | l sub]; [exact (Hrest' m)|].
  assert (Forall (fun e => Deep recordsAreSites (snd e)) sub) as Hsub by now inversion Hc.
  destruct (startsWith "@" name) eqn:Hat.
  - destruct l; [| now left].
    intros Hin. apply Hrest' in Hin as [Hin | Hs]; [| now right].
    apply scanScoped_sound in Hin as [Hin | (pn & l & pk & Hpn & Hf)];
      [now left | | assumption].
    right. destruct Hf as [(-> & Hp & Hd) | (v0 & t & Hd & Hc' & Hs)].
    + rewrite Hp. eapply site_scoped; eauto. now left.
    + eapply site_below_scoped; eauto. now left.
  - intros Hin. apply Hrest' in Hin as [Hin | Hs]; [| now right].
    apply visitPackage_sound in Hin as [Hin | Hf]; [now left | | assumption].
    right. destruct Hf as [(-> & Hp & Hd) | (v0 & t & Hd & Hc' & Hs)].
    + rewrite Hp. eapply site_regular; eauto. now left.
    + eapply site_below; eauto. now left.
Qed.

Lemma readNodeModules_sound : forall t, Deep recordsAreSites t.
Proof.
  apply Deep_intro.
  - intros c p m n i Hin. now left.
  - intros l es Hes p m n i. destruct l; simpl; [| now left].
    now apply scanEntries_sound.
Qed.

Lemma walk_sound target p scanned n i :
  In (n, i) (getAllInstalledPackages target p scanned) ->
  In (n, i) scanned \/ exists t, target = Some t /\ site t p n (version i) (path i).
Proof.
  destruct target as [t|]; simpl; [| now left].
  intros Hin. apply (Deep_here (readNodeModules_sound t)) in Hin as [Hin | Hs]; eauto.
Qed.

(** X11. The enumerator records no phantom package: every record of
    the map it returns was in the accumulator already or belongs to a
    package directory of the tree: a directory entry of a listed
    [node_modules] (or of a listable scope directory in it), reached
    from the root through nested [node_modules] of package directories
    that have a readable manifest; the recorded version is what the
    manifest of that directory declares, the recorded path is the path
    of that directory, and the name is the directory's name (prefixed by
    the scope). *)
Theorem enumerator_records_are_real (target : option node) (nodeModulesPath : string)
  (scanned : scannedMap) (name : string) (inf : info) :
  In (name, inf) (getAllInstalledPackages target nodeModulesPath scanned) ->
  In (name, inf) scanned
  \/ exists t,
       target = Some t /\ site t nodeModulesPath name (version inf) (path inf).
Proof.
  destruct target as [t|]; simpl; [| now left].
  intros Hin.
  apply (Deep_here (readNodeModules_sound t)) in Hin as [Hin | Hs]; [now left|].
  right. exists t. split; [reflexivity | exact Hs].
Qed.

Lemma enumerator_records_are_real_witness :
  In ("foo", mkInfo (JStr "1.0.0") "root/node_modules/foo") []
  \/ exists t,
       Some nestedFoo = Some t
       /\ site t "root/node_modules" "foo" (JStr "1.0.0") "root/node_modules/foo".
Proof.
  apply (@enumerator_records_are_real (Some nestedFoo) "root/node_modules" []
           "foo" (mkInfo (JStr "1.0.0") "root/node_modules/foo")).
  left. reflexivity.
Defined.

Lemma append_assoc (a b c : string) : ((a ++ b) ++ c)%string = (a ++ b ++ c)%string.
Proof. induction a as [| x a IH]; simpl; [reflexivity | now rewrite IH]. Qed.

Lemma site_path t p n v pth :
  site t p n v pth -> exists mid, pth = (p ++ mid ++ "/" ++ n)%string.
Proof.
  induction 1 as [es p n l pk v _ _ _
                 | es p sc sub n l pk v _ _ _ _
                 | es p n l pk v0 t name v pth _ _ _ _ _ IH
                 | es p sc sub n l pk v0 t name v pth _ _ _ _ _ _ IH].
  - exists ""%string. reflexivity.
  - exists ""%string. unfold join. now rewrite !append_assoc.
  - destruct IH as [mid ->]. exists ("/" ++ n ++ "/node_modules" ++ mid)%string.
    unfold join. now rewrite !append_assoc.
  - destruct IH as [mid ->].
    exists ("/" ++ sc ++ "/" ++ n ++ "/node_modules" ++ mid)%string.
    unfold join. now rewrite !append_assoc.
Qed.

(** X12. Every record the enumerator adds has a path that lies below
    the [node_modules] directory it was asked to scan and ends with a
    slash followed by the recorded name: the path is the scanned
    directory, then possibly a chain of package directories and nested
    [node_modules], then the name (scope included). *)
Theorem recorded_path_ends_with_name (target : option node) (nodeModulesPath : string)
  (scanned : scannedMap) (name : string) (inf : info) :
  In (name, inf) (getAllInstalledPackages target nodeModulesPath scanned) ->
  In (name, inf) scanned
  \/ exists mid, path inf = (nodeModulesPath ++ mid ++ "/" ++ name)%string.
Proof.
  intros Hin. apply walk_sound in Hin as [Hin | (t & _ & Hs)]; [now left | right].
  eapply site_path; eassumption.
Qed.

Lemma recorded_path_ends_with_name_witness :
  In ("@acme/tool", mkInfo (JStr "2.0.0") "root/node_modules/@acme/tool") []
  \/ exists mid,
       "root/node_modules/@acme/tool"%string
       = ("root/node_modules" ++ mid ++ "/" ++ "@acme/tool")%string.
Proof.
  apply (@recorded_path_ends_with_name
           (Some (Dir true
                    [("@acme", Dir true
                                 [("tool", Dir true
                                             [("package.json",
                                               manifestOf "@acme/tool" "2.0.0")])])]))
           "root/node_modules" [] "@acme/tool"
           (mkInfo (JStr "2.0.0") "root/node_modules/@acme/tool")).
  left. reflexivity.
Defined.

(* ================================================================== *)
(** * What the walk reaches, and what it skips *)

Lemma walk_has_mono (name : string) :
  forall (m : scannedMap) name' (inf : info),
    JSMap.has name' m = false ->
    JSMap.has name m = true -> JSMap.has name (JSMap.set name' inf m) = true.
Proof. intros m name' inf _ Hm. rewrite map_has_set, Hm. apply orb_true_r. Qed.

Lemma visitPackage_declared name p pk v (m : scannedMap) :
  declares pk v ->
  JSMap.has name (visitPackage readNodeModules name p pk m) = true.
Proof.
  intros (pkg & Hm & Hv). destruct (JSMap.has name m) eqn:E.
  - now rewrite visitPackage_known.
  - assert (child "package.json" pk = Some (File (Some pkg))) as Hc.
    { destruct (child "package.json" pk) as [[[x|] | ? ?] |]; try discriminate.
      now injection Hm as ->. }
    unfold JSMap.has. now rewrite (@visitPackage_records name p pk pkg v m E Hc Hv).
Qed.

Lemma visitPackage_undeclared rec name p pk (m : scannedMap) :
  (forall v, ~ declares pk v) -> visitPackage rec name p pk m = m.
Proof.
  intros Hno. unfold visitPackage.
  destruct (existsSync _ && negb _); [| reflexivity].
  destruct (readManifest _) as [pkg|] eqn:Hm; simpl; [| reflexivity].
  destruct (prop pkg "version") as [v|] eqn:Hv; simpl; [| reflexivity].
  exfalso. apply (Hno v). exists pkg. auto.
Qed.

Lemma scopesListable_app pre post :
  scopesListable (pre ++ post) = scopesListable pre && scopesListable post.
Proof. apply forallb_app. Qed.

Lemma scanScoped_app rec sc sp pre post : forall m,
  scanScoped rec sc sp (pre ++ post) m
  = scanScoped rec sc sp post (scanScoped rec sc sp pre m).
Proof.
  induction pre as [| [n c] pre IH]; intros m; simpl; [reflexivity|].
  destruct c; apply IH.
Qed.

Lemma scanScoped_has_mono name sc sp es m :
  JSMap.has name m = true ->
  JSMap.has name (scanScoped readNodeModules sc sp es m) = true.
Proof.
  intros Hm.
  apply (@scanScoped_invariant (fun m => JSMap.has name m = true) (walk_has_mono name)
           sc sp es m); [| exact Hm].
  apply Forall_forall. intros e _.
  apply (@readNodeModules_deep (fun m => JSMap.has name m = true) (walk_has_mono name)).
Qed.

(** X13. The enumerator misses no package of the directory it
    lists: when no scope directory of a [node_modules] is unreadable,
    every regular package directory in it that has a readable manifest
    has its name in the returned map, and so has every package
    directory with a readable manifest inside each of its scope
    directories, under the name scope/package. *)
Theorem enumerator_finds_listed_packages (entries : list (string * node))
  (nodeModulesPath : string) (scanned : scannedMap) :
  scopesListable entries = true ->
  let found :=
    getAllInstalledPackages (Some (Dir true entries)) nodeModulesPath scanned in
  (forall name l pk v,
     In (name, Dir l pk) entries -> startsWith "@" name = false -> declares pk v ->
     JSMap.has name found = true)
  /\ (forall scope sub name l pk v,
        In (scope, Dir true sub) entries -> startsWith "@" scope = true ->
        In (name, Dir l pk) sub -> declares pk v ->
        JSMap.has (scope ++ "/" ++ name)%string found = true).
Proof.
  intros Hl found. subst found. simpl. split.
  - intros name l pk v Hin Hat Hd.
    apply in_split in Hin as (pre & post & ->).
    rewrite scopesListable_app in Hl. apply andb_true_iff in Hl as [Hpre _].
    rewrite scanEntries_app by assumption. simpl. rewrite Hat.
    apply (@scanEntries_invariant' (fun m => JSMap.has name m = true) (walk_has_mono name)).
    eapply visitPackage_declared; eassumption.
  - intros scope sub name l pk v Hin Hat Hsub Hd.
    apply in_split in Hin as (pre & post & ->).
    rewrite scopesListable_app in Hl. apply andb_true_iff in Hl as [Hpre _].
    rewrite scanEntries_app by assumption. simpl. rewrite Hat.
    apply (@scanEntries_invariant' (fun m => JSMap.has (scope ++ "/" ++ name)%string m = true)
             (walk_has_mono (scope ++ "/" ++ name)%string)).
    apply in_split in Hsub as (pre' & post' & ->).
    rewrite scanScoped_app. simpl. apply scanScoped_has_mono.
    eapply visitPackage_declared; eassumption.
Qed.

Lemma enumerator_finds_listed_packages_witness :
  let found :=
    getAllInstalledPackages
      (Some (Dir true
               [("left-pad", Dir true [("package.json", manifestOf "left-pad" "1.3.0")]);
                ("@acme", Dir true
                            [("tool", Dir true
                                        [("package.json",
                                          manifestOf "@acme/tool" "2.0.0")])])]))
      "root/node_modules" [] in
  (forall name l pk v,
     In (name, Dir l pk)
        [("left-pad", Dir true [("package.json", manifestOf "left-pad" "1.3.0")]);
         ("@acme", Dir true
                     [("tool", Dir true
                                 [("package.json", manifestOf "@acme/tool" "2.0.0")])])] ->
     startsWith "@" name = false -> declares pk v ->
     JSMap.has name found = true)
  /\ (forall scope sub name l pk v,
        In (scope, Dir true sub)
           [("left-pad", Dir true [("package.json", manifestOf "left-pad" "1.3.0")]);
            ("@acme", Dir true
                        [("tool", Dir true
                                    [("package.json", manifestOf "@acme/tool" "2.0.0")])])] ->
        startsWith "@" scope = true ->
        In (name, Dir l pk) sub -> declares pk v ->
        JSMap.has (scope ++ "/" ++ name)%string found = true).
Proof.
  apply (@enumerator_finds_listed_packages
           [("left-pad", Dir true [("package.json", manifestOf "left-pad" "1.3.0")]);
            ("@acme", Dir true
                        [("tool", Dir true
                                    [("package.json", manifestOf "@acme/tool" "2.0.0")])])]
           "root/node_modules" []).
  reflexivity.
Defined.

(** X14. An unreadable scope directory ends the scan of its
    [node_modules]: listing it throws into the outer handler, so the
    entries listed after it (regular packages included) are never
    visited and the result is that of the entries listed before it. *)
Theorem unlistable_scope_ends_scan (pre post : list (string * node)) (name : string)
  (sub : list (string * node)) (nodeModulesPath : string) (scanned : scannedMap) :
  scopesListable pre = true ->
  startsWith "@" name = true ->
  getAllInstalledPackages (Some (Dir true (pre ++ (name, Dir false sub) :: post)))
    nodeModulesPath scanned
  = getAllInstalledPackages (Some (Dir true pre)) nodeModulesPath scanned.
Proof.
  intros Hpre Hat. simpl. rewrite scanEntries_app by assumption.
  simpl. now rewrite Hat.
Qed.

Lemma unlistable_scope_ends_scan_witness :
  getAllInstalledPackages
    (Some (Dir true
             ([("bar", Dir true [("package.json", manifestOf "bar" "2.0.0")])]
              ++ ("@acme", Dir false [])
                 :: [("foo", Dir true [("package.json", manifestOf "foo" "1.0.0")])])))
    "root/node_modules" []
  = getAllInstalledPackages
      (Some (Dir true [("bar", Dir true [("package.json", manifestOf "bar" "2.0.0")])]))
      "root/node_modules" [].
Proof.
  apply (@unlistable_scope_ends_scan
           [("bar", Dir true [("package.json", manifestOf "bar" "2.0.0")])]
           [("foo", Dir true [("package.json", manifestOf "foo" "1.0.0")])]
           "@acme" [] "root/node_modules" []); reflexivity.
Defined.

(** X15. A package directory without a usable manifest (none, one
    that cannot be read or parsed, or one that parses to [null]) is as
    good as absent: the scan gives what it gives on the tree without
    that directory, so the packages in its nested [node_modules] are
    not visited either. *)
Theorem package_without_manifest_is_skipped (pre post : list (string * node))
  (name : string) (l : bool) (pk : list (string * node)) (nodeModulesPath : string)
  (scanned : scannedMap) :
  scopesListable pre = true ->
  startsWith "@" name = false ->
  (forall v, ~ declares pk v) ->
  getAllInstalledPackages (Some (Dir true (pre ++ (name, Dir l pk) :: post)))
    nodeModulesPath scanned
  = getAllInstalledPackages (Some (Dir true (pre ++ post))) nodeModulesPath scanned.
Proof.
  intros Hpre Hat Hno. simpl. rewrite !scanEntries_app by assumption.
  simpl. rewrite Hat. now rewrite visitPackage_undeclared.
Qed.

Lemma package_without_manifest_is_skipped_witness :
  getAllInstalledPackages
    (Some (Dir true
             ([] ++ ("broken",
                     Dir true
                       [("package.json", File None);
                        ("node_modules",
                         Dir true
                           [("foo", Dir true
                                      [("package.json", manifestOf "foo" "1.0.0")])])])
                 :: [("bar", Dir true [("package.json", manifestOf "bar" "2.0.0")])])))
    "root/node_modules" []
  = getAllInstalledPackages
      (Some (Dir true
               ([] ++ [("bar", Dir true [("package.json", manifestOf "bar" "2.0.0")])])))
      "root/node_modules" [].
Proof.
  apply (@package_without_manifest_is_skipped
           []
           [("bar", Dir true [("package.json", manifestOf "bar" "2.0.0")])]
           "broken" true
           [("package.json", File None);
            ("node_modules",
             Dir true
               [("foo", Dir true [("package.json", manifestOf "foo" "1.0.0")])])]
           "root/node_modules" []); try reflexivity.
  intros v (pkg & Hm & _). discriminate Hm.
Defined.

(* ================================================================== *)
(** * Which occurrence of a name is kept *)

(** C10, as stated, fails in its second half.  Here [foo] occurs
    first, in depth-first order, inside [bar], with a manifest that
    cannot be parsed, and then at the top with version 1.0.0: the
    record kept for [foo] is that of the later occurrence. *)
Lemma C10_counterexample :
  getAllInstalledPackages (Some brokenFirstFoo) "root/node_modules" []
  = [("bar", mkInfo (JStr "2.0.0") "root/node_modules/bar");
     ("foo", mkInfo (JStr "1.0.0") "root/node_modules/foo")].
Proof. reflexivity. Qed.

Lemma walk_get_mono (name : string) (inf0 : info) :
  forall (m : scannedMap) name' (inf : info),
    JSMap.has name' m = false ->
    JSMap.get name m = Some inf0 -> JSMap.get name (JSMap.set name' inf m) = Some inf0.
Proof.
  intros m name' inf Hfresh Hm. rewrite map_get_set. keq name name'; [| exact Hm].
  apply map_has_false in Hfresh. congruence.
Qed.

Lemma visitPackage_fresh name p pk v (m : scannedMap) :
  JSMap.has name m = false -> declares pk v ->
  visitPackage readNodeModules name p pk m
  = getAllInstalledPackages (child "node_modules" pk) (join p "node_modules")
      (m ++ [(name, mkInfo v p)]).
Proof.
  intros Hfresh (pkg & Hm & Hv).
  assert (child "package.json" pk = Some (File (Some pkg))) as Hc.
  { destruct (child "package.json" pk) as [[[x|] | ? ?] |]; try discriminate.
    now injection Hm as ->. }
  unfold visitPackage. rewrite Hc, Hfresh. simpl. rewrite Hv. simpl.
  rewrite withChild_child, map_set_fresh by assumption.
  unfold getAllInstalledPackages. destruct (child "node_modules" pk); reflexivity.
Qed.

Lemma walk_keeps_new target p name (inf : info) (m : scannedMap) :
  JSMap.has name m = false ->
  JSMap.get name (getAllInstalledPackages target p (m ++ [(name, inf)])) = Some inf.
Proof.
  intros Hfresh.
  apply (@getAllInstalledPackages_invariant
           (fun m' => JSMap.get name m' = Some inf) (@walk_get_mono name inf)).
  rewrite <- (map_set_fresh name inf m Hfresh). apply map_get_set_eq.
Qed.

(** C10, amended. [getAllInstalledPackages] only extends its
    accumulator: every key/value pair present when it is called is
    present and unchanged in the returned map, which is the
    accumulator followed by the records added.  A package directory
    whose name is already recorded is ignored, its nested
    [node_modules] included; one whose name is not yet recorded and
    whose manifest can be read is recorded at once, at its own path
    and with its manifest's version, and its nested [node_modules] is
    walked next; one whose manifest cannot be read leaves no record.
    So, of the directories of one name that the walk reaches, in the
    order of the listing with nested directories first, the first one
    whose manifest can be read gives the record that the returned map
    holds. *)
Theorem C10_accumulator_only_grows (target : option node)
  (nodeModulesPath : string) (scanned : scannedMap) :
  (forall name inf,
     JSMap.get name scanned = Some inf ->
     JSMap.get name (getAllInstalledPackages target nodeModulesPath scanned)
     = Some inf)
  /\ (exists added,
        getAllInstalledPackages target nodeModulesPath scanned = scanned ++ added)
  /\ (forall name packagePath pkgEntries,
        JSMap.has name scanned = true ->
        visitPackage readNodeModules name packagePath pkgEntries scanned = scanned)
  /\ (forall name packagePath pkgEntries v,
        JSMap.has name scanned = false ->
        declares pkgEntries v ->
        let nested :=
          getAllInstalledPackages (child "node_modules" pkgEntries)
            (join packagePath "node_modules")
            (scanned ++ [(name, mkInfo v packagePath)]) in
        visitPackage readNodeModules name packagePath pkgEntries scanned = nested
        /\ JSMap.get name nested = Some (mkInfo v packagePath))
  /\ (forall name packagePath pkgEntries,
        (forall v, ~ declares pkgEntries v) ->
        visitPackage readNodeModules name packagePath pkgEntries scanned = scanned)
  /\ (forall pre post name l pk,
        target = Some (Dir true (pre ++ (name, Dir l pk) :: post)) ->
        scopesListable pre = true ->
        startsWith "@" name = false ->
        let before := scanEntries readNodeModules nodeModulesPath pre scanned in
        let found := getAllInstalledPackages target nodeModulesPath scanned in
        found
        = scanEntries readNodeModules nodeModulesPath post
            (visitPackage readNodeModules name (join nodeModulesPath name) pk before)
        /\ (forall inf,
              JSMap.get name before = Some inf -> JSMap.get name found = Some inf)
        /\ (forall v,
              JSMap.has name before = false ->
              declares pk v ->
              JSMap.get name found = Some (mkInfo v (join nodeModulesPath name)))).
Proof.
  split; [| split; [| split; [| split; [| split]]]].
  - apply (getAllInstalledPackages_invariant
             (fun m => forall k v, JSMap.get k scanned = Some v -> JSMap.get k m = Some v)).
    + apply walk_keeps_records.
    + auto.
  - apply (getAllInstalledPackages_invariant
             (fun m => exists added, m = scanned ++ added)).
    + apply walk_extends.
    + exists []. now rewrite app_nil_r.
  - intros. now apply visitPackage_known.
  - intros name packagePath pkgEntries v Hfresh Hd nested. subst nested.
    split; [now apply visitPackage_fresh | now apply walk_keeps_new].
  - intros name packagePath pkgEntries Hno. now apply visitPackage_undeclared.
  - intros pre post name l pk -> Hpre Hat before found.
    assert (found
            = scanEntries readNodeModules nodeModulesPath post
                (visitPackage readNodeModules name (join nodeModulesPath name) pk before))
      as Hfound.
    { unfold found, before. simpl. rewrite scanEntries_app by assumption.
      simpl. now rewrite Hat. }
    split; [exact Hfound | split].
    + intros inf Hget. rewrite Hfound.
      apply (@scanEntries_invariant' (fun m => JSMap.get name m = Some inf)
               (@walk_get_mono name inf)).
      rewrite visitPackage_known; [exact Hget|].
      unfold JSMap.has. now rewrite Hget.
    + intros v Hfresh Hd. rewrite Hfound.
      apply (@scanEntries_invariant'
               (fun m => JSMap.get name m = Some (mkInfo v (join nodeModulesPath name)))
               (@walk_get_mono name (mkInfo v (join nodeModulesPath name)))).
      rewrite (@visitPackage_fresh name (join nodeModulesPath name) pk v before Hfresh Hd).
      now apply walk_keeps_new.
Qed.

Lemma C10_witness :
  JSMap.get "foo"
    (getAllInstalledPackages (Some nestedFoo) "root/node_modules"
       [("foo", mkInfo (JStr "3.0.0") "elsewhere/foo")])
  = Some (mkInfo (JStr "3.0.0") "elsewhere/foo").
Proof.
  apply (proj1 (C10_accumulator_only_grows (Some nestedFoo) "root/node_modules"
                  [("foo", mkInfo (JStr "3.0.0") "elsewhere/foo")])).
  reflexivity.
Defined.


(* ================================================================== *)
(** * One bad record, and trees without packages *)

(** X16. One [null] or [undefined] record voids a structured feed:
    reading an array of records, or an object whose [packages] is one,
    throws exactly when the array holds [null] or [undefined], and
    then the source contributes nothing to the merged registry, the
    records listed before the bad one included. *)
Theorem null_record_voids_feed (sourceName : string) :
  (forall ref items,
     parseCompromisedList (JArr ref items) sourceName = Throw <->
     exists x, In x items /\ isObjectCoercible x = false)
  /\ (forall ref fields ref' items,
        field "packages" fields = Some (JArr ref' items) ->
        (parseCompromisedList (JObj ref fields) sourceName = Throw <->
         exists x, In x items /\ isObjectCoercible x = false))
  /\ (forall ref items x allCompromised,
        In x items -> isObjectCoercible x = false ->
        fetchStep allCompromised (sourceName, Parsed (JArr ref items)) = allCompromised)
  /\ (forall ref fields ref' items x allCompromised,
        field "packages" fields = Some (JArr ref' items) ->
        In x items -> isObjectCoercible x = false ->
        fetchStep allCompromised (sourceName, Parsed (JObj ref fields)) = allCompromised).
Proof.
  assert (forall ref items,
            parseCompromisedList (JArr ref items) sourceName = Throw <->
            exists x, In x items /\ isObjectCoercible x = false) as Harr.
  { intros ref items. simpl. apply parseRecords_throw. }
  assert (forall ref fields ref' items,
            field "packages" fields = Some (JArr ref' items) ->
            (parseCompromisedList (JObj ref fields) sourceName = Throw <->
             exists x, In x items /\ isObjectCoercible x = false)) as Hobj.
  { intros ref fields ref' items Hp. simpl. rewrite Hp. simpl.
    apply parseRecords_throw. }
  split; [exact Harr | split; [exact Hobj | split]].
  - intros ref items x acc Hin Hc. unfold fetchStep. cbn [snd fst].
    now rewrite (proj2 (Harr ref items) (ex_intro _ x (conj Hin Hc))).
  - intros ref fields ref' items x acc Hp Hin Hc. unfold fetchStep. cbn [snd fst].
    now rewrite (proj2 (Hobj ref fields ref' items Hp) (ex_intro _ x (conj Hin Hc))).
Qed.

Lemma null_record_voids_feed_witness :
  fetchStep
    [(KStr "bar", mkEntry [(KStr "2.0.0", ["Cobenian"])] ["Cobenian"])]
    ("Tenable (JSON)",
     Parsed (JArr 0 [JObj 1 [("package", JStr "foo"); ("version", JStr "1.0.0")];
                     JNull]))
  = [(KStr "bar", mkEntry [(KStr "2.0.0", ["Cobenian"])] ["Cobenian"])].
Proof.
  apply (proj1 (proj2 (proj2 (null_record_voids_feed "Tenable (JSON)")))
           0 [JObj 1 [("package", JStr "foo"); ("version", JStr "1.0.0")]; JNull]
           JNull).
  - right. left. reflexivity.
  - reflexivity.
Defined.

(** X17. Without a [node_modules] directory that can be listed (none
    at the project root, a file of that name, or a directory that
    cannot be read) the scan finds no package and reports nothing,
    whatever the registry holds: no finding, zero safe, zero
    scanned. *)
Theorem scan_without_node_modules (project : node) (projectRoot : string)
  (compromisedList : registry) :
  resolve project "node_modules" = None
  \/ (exists content, resolve project "node_modules" = Some (File content))
  \/ (exists entries, resolve project "node_modules" = Some (Dir false entries)) ->
  scanAllPackages project projectRoot compromisedList = mkResults [] [] 0 0.
Proof.
  unfold scanAllPackages.
  intros [-> | [[content ->] | [entries ->]]]; reflexivity.
Qed.

Lemma scan_without_node_modules_witness :
  scanAllPackages (Dir true [("package.json", manifestOf "app" "1.0.0")]) "root"
    [(KStr "foo", mkEntry [(KStr "1.0.0", ["Cobenian"])] ["Cobenian"])]
  = mkResults [] [] 0 0.
Proof.
  apply (@scan_without_node_modules
           (Dir true [("package.json", manifestOf "app" "1.0.0")]) "root"
           [(KStr "foo", mkEntry [(KStr "1.0.0", ["Cobenian"])] ["Cobenian"])]).
  left. reflexivity.
Defined.

(* ================================================================== *)
(** * From a feed and a tree to a finding *)

Lemma says_report_get (reg : registry) name v src :
  says reg name (FReport v src) ->
  exists e ss,
    JSMap.get name reg = Some e /\ JSMap.get v (versions e) = Some ss /\ In src ss.
Proof.
  unfold says, entryOf. destruct (JSMap.get name reg) as [e|]; simpl.
  - intros (ss & Hv & Hs). eauto.
  - intros (ss & [=] & _).
Qed.

(** X18. From a feed and a tree to a finding.  Let the project root be
    a plain path (segments separated by single slashes, none of them
    empty, [.] or [..]), so that [path.join] only appends.  Let a
    source that was fetched and parsed report version [ver] of [name],
    and let the project's [node_modules] hold, after entries whose
    scope directories can be listed, a regular package directory
    [name] whose manifest declares [ver].  Then the scan never counts
    [name] as safe: a finding named [name] is among the Compromised or
    the Suspicious ones.  And if no record for [name] was made before
    that directory is reached, the scan reports [name] Compromised at
    version [ver] and at that directory's path, and names the
    source. *)
Theorem listed_installed_package_is_flagged (feeds : list (string * fetched))
  (src : string) (doc : jsval) (partial : registry) (project : node)
  (projectRoot : string) (pre post : list (string * node)) (name ver : string)
  (l : bool) (pk : list (string * node)) :
  plainRoot projectRoot = true ->
  In (src, Parsed doc) feeds ->
  parseCompromisedList doc src = Ok partial ->
  says partial (KStr name) (FReport (KStr ver) src) ->
  resolve project "node_modules" = Some (Dir true (pre ++ (name, Dir l pk) :: post)) ->
  scopesListable pre = true ->
  startsWith "@" name = false ->
  declares pk (JStr ver) ->
  let nodeModulesPath := join projectRoot "node_modules" in
  let r := scanAllPackages project projectRoot (fetchAllCompromisedPackages feeds) in
  (exists f, Finding.name f = name /\ (In f (compromised r) \/ In f (suspicious r)))
  /\ (JSMap.has name (scanEntries readNodeModules nodeModulesPath pre []) = false ->
      exists f,
        In f (compromised r)
        /\ Finding.name f = name
        /\ Finding.installedVersion f = JStr ver
        /\ Finding.path f = join nodeModulesPath name
        /\ In src (Finding.sources f)).
Proof.
  intros _ Hfeed Hparse Hsays Htree Hpre Hat Hd nodeModulesPath r.
  set (all := fetchAllCompromisedPackages feeds) in *.
  set (installed :=
         getAllInstalledPackages (resolve project "node_modules") nodeModulesPath []).
  assert (r = classifyAll installed all) as Hr by reflexivity.
  assert (installed
          = scanEntries readNodeModules nodeModulesPath post
              (visitPackage readNodeModules name (join nodeModulesPath name) pk
                 (scanEntries readNodeModules nodeModulesPath pre []))) as Hinst.
  { unfold installed. rewrite Htree. simpl.
    rewrite scanEntries_app by assumption. simpl. now rewrite Hat. }
  assert (says all (KStr name) (FReport (KStr ver) src)) as Hall.
  { apply merged_reports. eauto. }
  apply says_report_get in Hall as (e & ss & He & Hv & Hs).
  split.
  - assert (JSMap.has name installed = true) as Hhas.
    { rewrite Hinst.
      apply (@scanEntries_invariant' (fun m => JSMap.has name m = true)
               (walk_has_mono name)).
      eapply visitPackage_declared; eassumption. }
    apply map_has_get in Hhas as [inf Hinf]. apply map_get_In in Hinf.
    destruct (JSMap.get (toKey (version inf)) (versions e)) as [srcs|] eqn:Hm.
    + exists (Finding.mk name (version inf) (JSMap.keys (versions e)) srcs
                (Some (sources e)) (path inf)).
      split; [reflexivity | left]. rewrite Hr. unfold classifyAll.
      apply classify_fold_complete. exists inf, e, srcs. simpl. auto.
    + exists (Finding.mk name (version inf) (JSMap.keys (versions e)) (sources e)
                None (path inf)).
      split; [reflexivity | right]. rewrite Hr. unfold classifyAll.
      apply classify_fold_complete. exists inf, e. simpl. auto.
  - intros Hfresh.
    assert (JSMap.get name installed
            = Some (mkInfo (JStr ver) (join nodeModulesPath name))) as Hget.
    { rewrite Hinst.
      apply (@scanEntries_invariant'
               (fun m => JSMap.get name m
                         = Some (mkInfo (JStr ver) (join nodeModulesPath name)))
               (@walk_get_mono name (mkInfo (JStr ver) (join nodeModulesPath name)))).
      destruct Hd as (pkg & Hm & Hver).
      assert (child "package.json" pk = Some (File (Some pkg))) as Hc.
      { destruct (child "package.json" pk) as [[[x|] | ? ?] |]; try discriminate.
        now injection Hm as ->. }
      exact (@visitPackage_records name (join nodeModulesPath name) pk pkg (JStr ver)
               _ Hfresh Hc Hver). }
    apply map_get_In in Hget.
    exists (Finding.mk name (JStr ver) (JSMap.keys (versions e)) ss
              (Some (sources e)) (join nodeModulesPath name)).
    split; [| simpl; auto].
    rewrite Hr. unfold classifyAll. apply classify_fold_complete.
    exists (mkInfo (JStr ver) (join nodeModulesPath name)), e, ss. simpl. auto.
Qed.

Lemma listed_installed_package_is_flagged_witness :
  let r :=
    scanAllPackages
      (Dir true
         [("node_modules",
           Dir true
             ([("bar", Dir true [("package.json", manifestOf "bar" "2.0.0")])]
              ++ ("foo", Dir true [("package.json", manifestOf "foo" "1.0.0")]) :: []))])
      "root"
      (fetchAllCompromisedPackages
         [("GenSec HQ", FetchFailed); ("Cobenian", Parsed (JStr "foo@1.0.0"))]) in
  exists f,
    In f (compromised r)
    /\ Finding.name f = "foo"%string
    /\ Finding.installedVersion f = JStr "1.0.0"
    /\ Finding.path f = join (join "root" "node_modules") "foo"
    /\ In "Cobenian"%string (Finding.sources f).
Proof.
  apply (proj2
           (@listed_installed_package_is_flagged
              [("GenSec HQ", FetchFailed); ("Cobenian", Parsed (JStr "foo@1.0.0"))]
              "Cobenian" (JStr "foo@1.0.0")
              [(KStr "foo", mkEntry [(KStr "1.0.0", ["Cobenian"])] ["Cobenian"])]
              (Dir true
                 [("node_modules",
                   Dir true
                     ([("bar", Dir true [("package.json", manifestOf "bar" "2.0.0")])]
                      ++ ("foo", Dir true [("package.json", manifestOf "foo" "1.0.0")])
                         :: []))])
              "root"
              [("bar", Dir true [("package.json", manifestOf "bar" "2.0.0")])]
              [] "foo" "1.0.0" true
              [("package.json", manifestOf "foo" "1.0.0")]
              eq_refl (or_intror (or_introl eq_refl)) eq_refl
              (ex_intro _ ["Cobenian"%string] (conj eq_refl (or_introl eq_refl)))
              eq_refl eq_refl eq_refl
              (ex_intro _ (JObj 0 [("name", JStr "foo"); ("version", JStr "1.0.0")])
                 (conj eq_refl eq_refl)))).
  reflexivity.
Defined.


(* ================================================================== *)
(** * What the flattening reaches *)

Lemma withField_field {A} name (k : jsval -> A) d fields :
  withField name k d fields =
  match field name fields with Some v => k v | None => d end.
Proof.
  induction fields as [| [n v] rest IH]; simpl; [reflexivity|].
  destruct (String.eqb n name); [reflexivity | exact IH].
Qed.

Lemma flatten_set_has (k : string) :
  forall (m : installedMap) name v vs p,
    truthy v = true -> CheckPackages.toString v = Ok vs ->
    JSMap.has k m = true ->
    JSMap.has k (JSMap.set (name ++ "@" ++ vs)%string
                   (Installed.mk name v (jsOr p (JStr "unknown"))) m) = true.
Proof. intros m name v vs p _ _ Hm. rewrite map_has_set, Hm. apply orb_true_r. Qed.

Lemma flatten_has_mono k deps m r :
  flattenDependencies deps m = Ok r -> JSMap.has k m = true -> JSMap.has k r = true.
Proof.
  intros Hrun Hm.
  exact (@flattenDependencies_invariant (fun m => JSMap.has k m = true)
           (flatten_set_has k) deps m r Hm Hrun).
Qed.

Lemma flattenFields_has_mono k fields m r :
  flattenFields flattenDependencies fields m = Ok r ->
  JSMap.has k m = true -> JSMap.has k r = true.
Proof.
  intros Hrun Hm.
  apply (@flattenFields_invariant (fun m => JSMap.has k m = true)
           (flatten_set_has k) fields m r); try assumption.
  apply Forall_forall. intros f _.
  apply (@flattenDependencies_deep (fun m => JSMap.has k m = true) (flatten_set_has k)).
Qed.

Lemma flattenFields_visit fields name info : forall m r,
  flattenFields flattenDependencies fields m = Ok r ->
  In (name, info) fields ->
  exists m1 m2,
    visitDependency flattenDependencies name info m1 = Ok m2
    /\ forall k, JSMap.has k m2 = true -> JSMap.has k r = true.
Proof.
  induction fields as [| [n i] rest IH]; intros m r Hrun Hin; [destruct Hin|].
  simpl in Hrun.
  destruct (visitDependency flattenDependencies n i m) as [m'|] eqn:E;
    simpl in Hrun; [| discriminate].
  destruct Hin as [[= -> ->] | Hin].
  - exists m, m'. split; [exact E|].
    intros k. now apply flattenFields_has_mono with (fields := rest).
  - eapply IH; eassumption.
Qed.

Lemma visitDependency_records name info m m2 v vs :
  visitDependency flattenDependencies name info m = Ok m2 ->
  prop info "version" = Ok v -> truthy v = true -> CheckPackages.toString v = Ok vs ->
  JSMap.has (name ++ "@" ++ vs)%string m2 = true.
Proof.
  intros Hrun Hv Tv Sv. unfold visitDependency in Hrun.
  rewrite Hv in Hrun. simpl in Hrun. rewrite Tv, Sv in Hrun. simpl in Hrun.
  destruct (prop info "path") as [p|]; simpl in Hrun; [| discriminate].
  assert (JSMap.has (name ++ "@" ++ vs)%string
            (JSMap.set (name ++ "@" ++ vs)%string
               (Installed.mk name v (jsOr p (JStr "unknown"))) m) = true) as Hset.
  { now rewrite map_has_set, keqb_refl. }
  destruct info as [| | b | n | s | r0 items | r0 fields];
    try (injection Hrun as <-; exact Hset).
  rewrite withField_field in Hrun.
  destruct (field "dependencies" fields) as [d|]; [| injection Hrun as <-; exact Hset].
  destruct (truthy d); [| injection Hrun as <-; exact Hset].
  eapply flatten_has_mono; eassumption.
Qed.

Lemma visitDependency_below n ref fields d m m2 :
  visitDependency flattenDependencies n (JObj ref fields) m = Ok m2 ->
  field "dependencies" fields = Some d -> truthy d = true ->
  exists m1, flattenDependencies d m1 = Ok m2.
Proof.
  intros Hrun Hd Td. unfold visitDependency in Hrun.
  destruct (prop (JObj ref fields) "version") as [v|]; simpl in Hrun; [| discriminate].
  destruct (if truthy v then _ else _) as [m1|]; simpl in Hrun; [| discriminate].
  rewrite withField_field, Hd, Td in Hrun. eauto.
Qed.

Lemma listedDep_object deps name v : listedDep deps name v -> truthy deps = true.
Proof. intros []; reflexivity. Qed.

Lemma flatten_complete deps name v :
  listedDep deps name v ->
  forall vs result r,
    CheckPackages.toString v = Ok vs ->
    flattenDependencies deps result = Ok r ->
    JSMap.has (name ++ "@" ++ vs)%string r = true.
Proof.
  induction 1 as [ref fields name info v Hin Hv Tv
                 | ref fields n ref' ifields d name v Hin Hd Hl IH];
    intros vs result r Sv Hrun; simpl in Hrun.
  - destruct (flattenFields_visit _ _ _ _ Hrun Hin) as (m1 & m2 & Hvisit & Hmono).
    apply Hmono. eapply visitDependency_records; eassumption.
  - destruct (flattenFields_visit _ _ _ _ Hrun Hin) as (m1 & m2 & Hvisit & Hmono).
    apply Hmono.
    destruct (@visitDependency_below n ref' ifields d m1 m2 Hvisit Hd
                (listedDep_object Hl)) as [m3 Hm3].
    eapply IH; eassumption.
Qed.

(** X19. [flattenDependencies] misses no dependency: when the
    flattening returns, every entry of the tree that has a truthy
    version, at whatever depth below the [dependencies] of its
    ancestors, has its [name@version] key in the result. *)
Theorem flatten_finds_every_dependency (deps : jsval) (name : string) (v : jsval)
  (vs : string) (result r : installedMap) :
  listedDep deps name v ->
  CheckPackages.toString v = Ok vs ->
  flattenDependencies deps result = Ok r ->
  JSMap.has (name ++ "@" ++ vs)%string r = true.
Proof. intros Hl Sv Hrun. eapply flatten_complete; eassumption. Qed.

Lemma flatten_finds_every_dependency_witness :
  JSMap.has ("debug" ++ "@" ++ "4.3.4")%string
    [("express@4.18.2", Installed.mk "express" (JStr "4.18.2") (JStr "unknown"));
     ("debug@4.3.4", Installed.mk "debug" (JStr "4.3.4") (JStr "unknown"))]
  = true.
Proof.
  apply (@flatten_finds_every_dependency
           (JObj 0 [("express",
                     JObj 1 [("version", JStr "4.18.2");
                             ("dependencies",
                              JObj 2 [("debug", JObj 3 [("version", JStr "4.3.4")])])])])
           "debug" (JStr "4.3.4") "4.3.4" []
           [("express@4.18.2", Installed.mk "express" (JStr "4.18.2") (JStr "unknown"));
            ("debug@4.3.4", Installed.mk "debug" (JStr "4.3.4") (JStr "unknown"))]).
  - eapply listed_below.
    + left. reflexivity.
    + reflexivity.
    + eapply listed_here; [left; reflexivity | reflexivity | reflexivity].
  - reflexivity.
  - reflexivity.
Defined.

(** X20. The older checker, from the tree to the report: when the
    flattening of a dependency tree returns, every entry of the tree
    with a truthy version whose [name@version] is a key of the
    compromised list produces a hit, so the list of hits is not empty;
    the hit has the name, version, severity and source the list holds
    under that key. *)
Theorem old_checker_flags_listed_dependency (deps : jsval) (name : string)
  (v : jsval) (vs : string) (installedPackages : installedMap)
  (compromisedList : list (string * CheckPackages.record))
  (info : CheckPackages.record) :
  listedDep deps name v ->
  CheckPackages.toString v = Ok vs ->
  flattenDependencies deps [] = Ok installedPackages ->
  JSMap.get (name ++ "@" ++ vs)%string compromisedList = Some info ->
  let found := checkForCompromised installedPackages compromisedList in
  found <> []
  /\ exists hit,
       In hit found
       /\ Hit.name hit = CheckPackages.name info
       /\ Hit.version hit = CheckPackages.version info
       /\ Hit.severity hit = CheckPackages.severity info
       /\ Hit.source hit = CheckPackages.source info.
Proof.
  intros Hl Sv Hrun Hinfo found.
  assert (JSMap.has (name ++ "@" ++ vs)%string installedPackages = true) as Hhas.
  { eapply flatten_complete; eassumption. }
  apply map_has_get in Hhas as [pkg Hpkg]. apply map_get_In in Hpkg.
  assert (In (hitOf info pkg) found) as Hin.
  { unfold found, checkForCompromised. rewrite checkForCompromised_fold. simpl.
    apply in_flat_map. exists ((name ++ "@" ++ vs)%string, pkg).
    split; [assumption|]. cbn [fst snd]. rewrite Hinfo. now left. }
  split.
  - intros E. rewrite E in Hin. destruct Hin.
  - exists (hitOf info pkg). repeat split. exact Hin.
Qed.

Lemma old_checker_flags_listed_dependency_witness :
  checkForCompromised
    [("express@4.18.2", Installed.mk "express" (JStr "4.18.2") (JStr "unknown"));
     ("debug@4.3.4", Installed.mk "debug" (JStr "4.3.4") (JStr "unknown"))]
    [("debug@4.3.4",
      CheckPackages.mk (JStr "debug") (JStr "4.3.4") (JStr "critical") (JStr "tenable"))]
  <> [].
Proof.
  refine (proj1
           (@old_checker_flags_listed_dependency
              (JObj 0 [("express",
                        JObj 1 [("version", JStr "4.18.2");
                                ("dependencies",
                                 JObj 2 [("debug",
                                          JObj 3 [("version", JStr "4.3.4")])])])])
              "debug" (JStr "4.3.4") "4.3.4"
              [("express@4.18.2",
                Installed.mk "express" (JStr "4.18.2") (JStr "unknown"));
               ("debug@4.3.4", Installed.mk "debug" (JStr "4.3.4") (JStr "unknown"))]
              [("debug@4.3.4",
                CheckPackages.mk (JStr "debug") (JStr "4.3.4") (JStr "critical")
                  (JStr "tenable"))]
              (CheckPackages.mk (JStr "debug") (JStr "4.3.4") (JStr "critical")
                 (JStr "tenable"))
              _ eq_refl eq_refl eq_refl)).
  eapply listed_below.
  - left. reflexivity.
  - reflexivity.
  - eapply listed_here; [left; reflexivity | reflexivity | reflexivity].
Defined.
